(** * mr-Observer: a shallow embedding of the Observer class

    The development follows the array-aware [Observer] class
    (constructor, [set], [unset], [patch], [insert], [move], [remove],
    [get], [clear], [on] and the [destroy] of the handle it returns,
    [_emitWildcard], [_emitWildcardDeeper], [_makePathParts],
    [_checkSet], [_checkUnset], [_patchNode]).

    Modelling choices, fixed once and used throughout:

    - the data is a JSON tree: no object is reachable along two paths, so
      an in-place write [node[key] = v] is a write at a position of the
      tree; handlers registered on the emitter only observe;
    - a JS number is a rational [Q] compared with [Qeq_bool]; NaN, the
      infinities and the loss of precision above 2^53 are not represented;
    - a property read sees own properties, plus [length] of arrays and
      strings and the characters of a string; members inherited from the
      built-in prototypes ([constructor], [toString], ...) are not
      represented;
    - an array has no property besides its indices and [length]; a write
      that would give it one ends the method with [Unmodelled];
    - a path is a string, an integer or [null]; [set(data)] and
      [patch(data)] with one argument are the calls with the path [''];
    - [EventEmitter] is an external package: [emit(name, ...args)] is
      recorded as one entry of the trace [emitted], and a subscription
      made under a name receives the entries that carry that name; a
      subscription made with [once] is not represented, and [off],
      which [clear] calls, is taken to remove the handlers and nothing
      else;
    - a string holds ASCII characters, each of them one unit of its
      [length].

    A theorem about a read or a write that could meet a member of
    [Object.prototype] ([constructor], [__proto__], ...) keeps to the
    keys that are none ([inherited_by_object]); one that relies on
    [parseInt] or on the decimal form of a number being exact keeps to
    short strings ([modest]). *)

From Stdlib Require Import List String Ascii ZArith QArith Bool Lia.
From Stdlib Require Import DecimalString DecimalPos.
Import ListNotations.

Local Open Scope string_scope.
Local Open Scope Z_scope.
Local Open Scope list_scope.

Set Implicit Arguments.

(* ------------------------------------------------------------------ *)
(** ** Strings: decimal numerals, [split], [join], [parseInt]          *)
(* ------------------------------------------------------------------ *)

Module Str.

(** [Number.prototype.toString] on an integer. *)
Definition of_Z (z : Z) : string := NilZero.string_of_int (Z.to_int z).

Definition of_nat (n : nat) : string := of_Z (Z.of_nat n).

Definition is_digit (c : ascii) : bool :=
  let n := nat_of_ascii c in (48 <=? n)%nat && (n <=? 57)%nat.

Definition digit_val (c : ascii) : Z := Z.of_nat (nat_of_ascii c - 48).

(** The longest prefix of decimal digits of [s], read as a number on top
    of the accumulator, and how many digits were read. *)
Fixpoint digits_prefix (s : string) (acc : Z) (count : nat) : Z * nat :=
  match s with
  | String c rest =>
      if is_digit c then digits_prefix rest (10 * acc + digit_val c) (S count)
      else (acc, count)
  | EmptyString => (acc, count)
  end.

(** White space skipped by [parseInt] (the ASCII part of it). *)
Definition is_space (c : ascii) : bool :=
  let n := nat_of_ascii c in
  (n =? 32)%nat || ((9 <=? n)%nat && (n <=? 13)%nat).

Fixpoint skip_spaces (s : string) : string :=
  match s with
  | String c rest => if is_space c then skip_spaces rest else s
  | EmptyString => s
  end.

(** [parseInt(s, 10)]: [None] stands for NaN. *)
Definition parseInt (s : string) : option Z :=
  let unsigned (t : string) :=
    match digits_prefix t 0 0 with
    | (_, O) => None
    | (v, S _) => Some v
    end in
  match skip_spaces s with
  | String "-" rest => option_map Z.opp (unsigned rest)
  | String "+" rest => unsigned rest
  | t => unsigned t
  end.

(** An array index in the sense of the language: the canonical numeral
    of an integer in [0, 2^32 - 2]. *)
Definition array_index (s : string) : option nat :=
  match digits_prefix s 0 0 with
  | (_, O) => None
  | (v, S _) =>
      if (of_Z v =? s)%string && (v <? 4294967295) then Some (Z.to_nat v) else None
  end.

(** [s.split('.')], with the segment under construction in [cur]. *)
Fixpoint split_dot (s : string) (cur : string) : list string :=
  match s with
  | EmptyString => [cur]
  | String c rest =>
      if Ascii.eqb c "."%char then cur :: split_dot rest EmptyString
      else split_dot rest (cur ++ String c EmptyString)
  end.

Definition split (s : string) : list string := split_dot s EmptyString.

(** [xs.join('.')]. *)
Definition join (xs : list string) : string := String.concat "." xs.

(** [name.replace(/:(set|unset|insert|move|remove)$/, '')]. *)
Definition ends_with (s suffix : string) : bool :=
  let n := String.length s in
  let m := String.length suffix in
  (m <=? n)%nat && (substring (n - m) m s =? suffix)%string.

Definition strip_kind (name : string) : string :=
  let drop (suffix : string) :=
    substring 0 (String.length name - String.length suffix) name in
  if ends_with name ":unset" then drop ":unset"
  else if ends_with name ":set" then drop ":set"
  else if ends_with name ":insert" then drop ":insert"
  else if ends_with name ":move" then drop ":move"
  else if ends_with name ":remove" then drop ":remove"
  else name.

End Str.

(* ------------------------------------------------------------------ *)
(** ** The data tree                                                   *)
(* ------------------------------------------------------------------ *)

(** A JS value of the data tree.  An object keeps its properties in the
    order [for (key in obj)] enumerates them; an array keeps its slots,
    [None] being a hole (a slot that was never assigned). *)
Unset Elimination Schemes.
Inductive value : Type :=
| VUndefined
| VNull
| VBool (b : bool)
| VNum (q : Q)
| VStr (s : string)
| VObject (props : list (string * value))
| VArray (elems : list (option value)).
Set Elimination Schemes.

(** Induction over a tree: the properties of an object and the filled
    slots of an array are the subtrees. *)
Definition slot_holds (P : value -> Prop) (e : option value) : Prop :=
  match e with Some v => P v | None => True end.

Definition value_ind (P : value -> Prop)
  (Hundef : P VUndefined) (Hnull : P VNull)
  (Hbool : forall b, P (VBool b)) (Hnum : forall q, P (VNum q))
  (Hstr : forall s, P (VStr s))
  (Hobj : forall props, Forall (fun kv => P (snd kv)) props -> P (VObject props))
  (Harr : forall elems, Forall (slot_holds P) elems -> P (VArray elems))
  : forall v, P v :=
  fix F (v : value) : P v :=
    match v with
    | VUndefined => Hundef
    | VNull => Hnull
    | VBool b => Hbool b
    | VNum q => Hnum q
    | VStr s => Hstr s
    | VObject props =>
        Hobj props
          ((fix G (l : list (string * value)) : Forall (fun kv => P (snd kv)) l :=
              match l with
              | [] => Forall_nil _
              | kv :: l' => Forall_cons kv (F (snd kv)) (G l')
              end) props)
    | VArray elems =>
        Harr elems
          ((fix G (l : list (option value)) : Forall (slot_holds P) l :=
              match l with
              | [] => Forall_nil _
              | e :: l' =>
                  Forall_cons e
                    (match e return slot_holds P e with
                     | Some x => F x
                     | None => I
                     end) (G l')
              end) elems)
    end.

(** [typeof(v) === 'object' && v instanceof Object]. *)
Definition is_object (v : value) : bool :=
  match v with VObject _ | VArray _ => true | _ => false end.

(** [Array.isArray(v)]. *)
Definition is_array (v : value) : bool :=
  match v with VArray _ => true | _ => false end.

(** [v === undefined]. *)
Definition is_undefined (v : value) : bool :=
  match v with VUndefined => true | _ => false end.

(** [v === null || v === undefined]. *)
Definition is_nullish (v : value) : bool :=
  match v with VUndefined | VNull => true | _ => false end.

(** [a === b] for operands of which at least one is not an object; the
    source never compares two objects without testing first that one of
    them is not an object. *)
Definition strict_eq (a b : value) : bool :=
  match a, b with
  | VUndefined, VUndefined => true
  | VNull, VNull => true
  | VBool x, VBool y => Bool.eqb x y
  | VNum x, VNum y => Qeq_bool x y
  | VStr x, VStr y => (x =? y)%string
  | _, _ => false
  end.

(** The number [z] as a value. *)
Definition of_int (z : Z) : value := VNum (inject_Z z).

Module Props.

Fixpoint lookup (k : string) (props : list (string * value)) : option value :=
  match props with
  | [] => None
  | (k', v) :: rest => if (k' =? k)%string then Some v else lookup k rest
  end.

Fixpoint replace (k : string) (v : value) (props : list (string * value))
  : list (string * value) :=
  match props with
  | [] => []
  | (k', v') :: rest =>
      if (k' =? k)%string then (k', v) :: rest else (k', v') :: replace k v rest
  end.

(** A new integer-like key goes among the integer-like keys, in
    ascending order; they come before every other key. *)
Fixpoint add_index (n : nat) (k : string) (v : value)
  (props : list (string * value)) : list (string * value) :=
  match props with
  | [] => [(k, v)]
  | (k', v') :: rest =>
      match Str.array_index k' with
      | Some m =>
          if (m <? n)%nat then (k', v') :: add_index n k v rest
          else (k, v) :: props
      | None => (k, v) :: props
      end
  end.

(** [obj[k] = v] on an ordinary object. *)
Definition assign (k : string) (v : value) (props : list (string * value))
  : list (string * value) :=
  match lookup k props with
  | Some _ => replace k v props
  | None =>
      match Str.array_index k with
      | Some n => add_index n k v props
      | None => props ++ [(k, v)]
      end
  end.

(** [delete obj[k]]. *)
Fixpoint remove (k : string) (props : list (string * value))
  : list (string * value) :=
  match props with
  | [] => []
  | (k', v') :: rest =>
      if (k' =? k)%string then rest else (k', v') :: remove k rest
  end.

End Props.

Module Arr.

(** [arr[n]]: a hole and an index out of range read as [undefined]. *)
Definition read (n : nat) (elems : list (option value)) : value :=
  match nth_error elems n with
  | Some (Some v) => v
  | _ => VUndefined
  end.

Fixpoint replace (n : nat) (v : value) (elems : list (option value))
  : list (option value) :=
  match elems, n with
  | [], _ => []
  | _ :: rest, O => Some v :: rest
  | e :: rest, S n' => e :: replace n' v rest
  end.

(** [arr[n] = v]: beyond the end the array grows, the slots in between
    being holes. *)
Definition assign (n : nat) (v : value) (elems : list (option value))
  : list (option value) :=
  if (n <? List.length elems)%nat then replace n v elems
  else elems ++ repeat None (n - List.length elems) ++ [Some v].

(** [arr.splice(n, 1)]. *)
Definition delete (n : nat) (elems : list (option value)) : list (option value) :=
  firstn n elems ++ skipn (S n) elems.

(** [arr.splice(n, 0, v)] for [n <= length]. *)
Definition insert (n : nat) (v : value) (elems : list (option value))
  : list (option value) :=
  firstn n elems ++ Some v :: skipn n elems.

End Arr.

(** [node[k]] for a node that is neither [null] nor [undefined]. *)
Definition get_prop (node : value) (k : string) : value :=
  match node with
  | VObject props =>
      match Props.lookup k props with Some v => v | None => VUndefined end
  | VArray elems =>
      match Str.array_index k with
      | Some n => Arr.read n elems
      | None =>
          if (k =? "length")%string then of_int (Z.of_nat (List.length elems))
          else VUndefined
      end
  | VStr s =>
      match Str.array_index k with
      | Some n =>
          match String.get n s with
          | Some c => VStr (String c EmptyString)
          | None => VUndefined
          end
      | None =>
          if (k =? "length")%string then of_int (Z.of_nat (String.length s))
          else VUndefined
      end
  | _ => VUndefined
  end.

(** [node[k]]: reading a property of [null] or [undefined] throws. *)
Definition deref (node : value) (k : string) : option value :=
  if is_nullish node then None else Some (get_prop node k).

(** [node[k] = v] for an object or an array [node].  [None]: the write is
    outside the data model (a property of an array that is not one of its
    indices, or a write into a primitive). *)
Definition set_prop (node : value) (k : string) (v : value) : option value :=
  match node with
  | VObject props => Some (VObject (Props.assign k v props))
  | VArray elems =>
      match Str.array_index k with
      | Some n => Some (VArray (Arr.assign n v elems))
      | None => None
      end
  | _ => None
  end.

(** The write [node[k] = v] seen from the root: [keys] leads from [root] to
    the property written, through objects and arrays. *)
Fixpoint update_at (root : value) (keys : list string) (v : value) : option value :=
  match keys with
  | [] => Some v
  | k :: rest =>
      match update_at (get_prop root k) rest v with
      | Some child => set_prop root k child
      | None => None
      end
  end.

(** The pairs [for (key in v)] goes through, with [v[key]]. *)
Fixpoint indexed (i : nat) (elems : list (option value)) : list (string * value) :=
  match elems with
  | [] => []
  | None :: rest => indexed (S i) rest
  | Some v :: rest => (Str.of_nat i, v) :: indexed (S i) rest
  end.

Definition own_entries (v : value) : list (string * value) :=
  match v with
  | VObject props => props
  | VArray elems => indexed 0 elems
  | _ => []
  end.

(** [node.hasOwnProperty(k)] for an object or an array. *)
Definition has_own (node : value) (k : string) : bool :=
  match node with
  | VObject props =>
      match Props.lookup k props with Some _ => true | None => false end
  | VArray elems =>
      match Str.array_index k with
      | Some n => match nth_error elems n with Some (Some _) => true | _ => false end
      | None => (k =? "length")%string
      end
  | _ => false
  end.

(* ------------------------------------------------------------------ *)
(** ** Paths, events and the state of an observer                      *)
(* ------------------------------------------------------------------ *)

(** A path as a caller writes it: a string, an integer or [null], or
    [undefined] for an argument that is left out.  The same type serves
    for the event path that [_emitWildcardDeeper] builds, which is a
    string or, after one step, a bare segment. *)
Inductive rawpath : Type :=
| RUndefined
| RNull
| RStr (s : string)
| RInt (z : Z).

(** A resolved segment: a key, or an index into an array. *)
Inductive part : Type :=
| PStr (s : string)
| PNum (z : Z).

Definition rawpath_eqb (a b : rawpath) : bool :=
  match a, b with
  | RUndefined, RUndefined => true
  | RNull, RNull => true
  | RStr x, RStr y => (x =? y)%string
  | RInt x, RInt y => (x =? y)%Z
  | _, _ => false
  end.

Definition part_eqb (a b : part) : bool :=
  match a, b with
  | PStr x, PStr y => (x =? y)%string
  | PNum x, PNum y => (x =? y)%Z
  | _, _ => false
  end.

(** Truthiness of a path, as tested by [path ? ... : ...]. *)
Definition truthy (p : rawpath) : bool :=
  match p with
  | RUndefined | RNull => false
  | RStr s => negb (s =? "")%string
  | RInt z => negb (z =? 0)%Z
  end.

(** A path as the left operand of [+] with a string. *)
Definition path_string (p : rawpath) : string :=
  match p with
  | RUndefined => "undefined"
  | RNull => "null"
  | RStr s => s
  | RInt z => Str.of_Z z
  end.

Definition part_string (p : part) : string :=
  match p with
  | PStr s => s
  | PNum z => Str.of_Z z
  end.

(** A segment as a path of its own. *)
Definition part_path (p : part) : rawpath :=
  match p with
  | PStr s => RStr s
  | PNum z => RInt z
  end.

(** A segment as a value handed to a subscriber. *)
Definition part_value (p : part) : value :=
  match p with
  | PStr s => VStr s
  | PNum z => of_int z
  end.

(** The property key [node[part]] reads; [parts[i]] out of range is
    [undefined], whose key is the string "undefined". *)
Definition key_of (p : option part) : string :=
  match p with
  | Some q => part_string q
  | None => "undefined"
  end.

(** [parts[parts.length - 1]]. *)
Definition last_part (parts : list part) : option part :=
  match parts with
  | [] => None
  | _ => Some (last parts (PStr ""))
  end.

(** [path + (path ? '.' : '') + key]. *)
Definition child_path (path : rawpath) (key : string) : rawpath :=
  RStr (path_string path ++ (if truthy path then "." else "") ++ key).

(** A node of [_eventsCache]: a [Map] from segments to nodes that carries
    the two counters [counter] and [end]. *)
Unset Elimination Schemes.
Inductive trie : Type :=
| Trie (counter : nat) (end_ : nat) (children : list (part * trie)).
Set Elimination Schemes.

(** [node.get(k)]. *)
Fixpoint trie_get (k : part) (cs : list (part * trie)) : option trie :=
  match cs with
  | [] => None
  | (k', t) :: rest => if part_eqb k' k then Some t else trie_get k rest
  end.

(** [node.set(k, t)]: a [Map] keeps the position of a key it already has. *)
Fixpoint trie_put (k : part) (t : trie) (cs : list (part * trie))
  : list (part * trie) :=
  match cs with
  | [] => [(k, t)]
  | (k', t') :: rest =>
      if part_eqb k' k then (k', t) :: rest else (k', t') :: trie_put k t rest
  end.

(** One call [emit(name, pathParts, value, old, to)] on the emitter. *)
Record event : Type := Event {
  ev_name : string;
  ev_path : list part;
  ev_value : value;
  ev_old : value;
  ev_to : value
}.

Record observer : Type := Observer {
  data : value;
  _pathCache : list (rawpath * list part);
  _eventsCache : trie;
  handlers : list string;
  emitted : list event
}.

(** [this._pathCache.get(path)] and [this._pathCache.set(path, parts)]. *)
Fixpoint cache_get (k : rawpath) (c : list (rawpath * list part))
  : option (list part) :=
  match c with
  | [] => None
  | (k', ps) :: rest => if rawpath_eqb k' k then Some ps else cache_get k rest
  end.

Fixpoint cache_set (k : rawpath) (ps : list part) (c : list (rawpath * list part))
  : list (rawpath * list part) :=
  match c with
  | [] => [(k, ps)]
  | (k', ps') :: rest =>
      if rawpath_eqb k' k then (k', ps) :: rest else (k', ps') :: cache_set k ps rest
  end.

Definition with_data (d : value) (o : observer) : observer :=
  Observer d (_pathCache o) (_eventsCache o) (handlers o) (emitted o).

Definition with_cache (c : list (rawpath * list part)) (o : observer) : observer :=
  Observer (data o) c (_eventsCache o) (handlers o) (emitted o).

(** A value that counts as false in [data || { }]. *)
Definition falsy (v : value) : bool :=
  match v with
  | VUndefined | VNull => true
  | VBool b => negb b
  | VNum q => Qeq_bool q 0
  | VStr s => (s =? "")%string
  | VObject _ | VArray _ => false
  end.

(** [new Observer(data)]: [this.data = data || { }], and the two caches
    are empty maps. *)
Definition new_observer (d : value) : observer :=
  Observer (if falsy d then VObject [] else d) [] (Trie 0 0 []) [] [].

(* ------------------------------------------------------------------ *)
(** ** Methods run in a state and may throw                            *)
(* ------------------------------------------------------------------ *)

Inductive error : Type :=
| TypeError     (* a property of [null] or [undefined] was read, or a
                   property of a primitive deleted *)
| Unmodelled.   (* the method wrote outside the data model *)

Inductive result (A : Type) : Type :=
| Ok (a : A) (o : observer)
| Err (e : error) (o : observer).

Arguments Err {A} e o.

Definition M (A : Type) : Type := observer -> result A.

Definition ret {A : Type} (a : A) : M A := fun o => Ok a o.

Definition bind {A B : Type} (m : M A) (k : A -> M B) : M B :=
  fun o => match m o with
           | Ok a o' => k a o'
           | Err e o' => Err e o'
           end.

Definition throw {A : Type} (e : error) : M A := fun o => Err e o.

Notation "x <- m ;; k" := (bind m (fun x => k))
  (at level 61, m at next level, right associativity).
Notation "m ;;; k" := (bind m (fun _ => k))
  (at level 61, right associativity).

(** The state in which a method ends, whether it returned or threw. *)
Definition final {A : Type} (r : result A) : observer :=
  match r with Ok _ o => o | Err _ o => o end.

Section Loops.

Variable A : Type.

(** [for (x of xs) body(x)]. *)
Fixpoint for_each (body : A -> M unit) (xs : list A) : M unit :=
  match xs with
  | [] => ret tt
  | x :: rest => body x ;;; for_each body rest
  end.

(** [for (key in arr) body(key, arr[key])] on the slots of an array, the
    first of which has index [i]; a hole is not enumerated. *)
Fixpoint for_slots (body : nat -> A -> M unit) (i : nat)
  (slots : list (option A)) : M unit :=
  match slots with
  | [] => ret tt
  | None :: rest => for_slots body (S i) rest
  | Some x :: rest => body i x ;;; for_slots body (S i) rest
  end.

End Loops.

(** [this.emit(name, pathParts, value, old, to)]. *)
Definition emit (name : string) (pathParts : list part) (v old to : value) : M unit :=
  fun o => Ok tt (Observer (data o) (_pathCache o) (_eventsCache o) (handlers o)
                    (emitted o ++ [Event name pathParts v old to])).

(* ------------------------------------------------------------------ *)
(** ** Path resolution: [_makePathParts]                               *)
(* ------------------------------------------------------------------ *)

(** The loop of [_makePathParts] over the segments that [split] left,
    [node] being the node the next segment is read in.  Under an array a
    segment that [parseInt] reads as an integer becomes that integer; the
    loop stops at the first node that is [null] or [undefined] and leaves
    the segments after it as they are.  [None]: [node[part]] threw. *)
Fixpoint resolve (node : value) (segments : list string) : option (list part) :=
  match segments with
  | [] => Some []
  | s :: rest =>
      let p := if is_array node
               then match Str.parseInt s with
                    | Some z => PNum z
                    | None => PStr s
                    end
               else PStr s in
      match deref node (part_string p) with
      | None => None
      | Some node' =>
          if is_nullish node' then Some (p :: map PStr rest)
          else option_map (cons p) (resolve node' rest)
      end
  end.

(** The key under which [_makePathParts] stores what it resolved: the
    path itself, an integer after [path = path.toString()]. *)
Definition cache_key (path : rawpath) : rawpath :=
  match path with
  | RInt z => RStr (Str.of_Z z)
  | _ => path
  end.

(** Where the path is not in the cache: no segment for [null] and [''],
    a [TypeError] for [undefined], which has no [split], the loop of
    resolution for a string and for an integer turned into one. *)
Definition fresh_parts (path : rawpath) (root : value) : option (list part) :=
  match path with
  | RUndefined => None
  | RNull => Some []
  | RStr "" => Some []
  | _ => resolve root (Str.split (path_string path))
  end.

Definition _makePathParts (path : rawpath) : M (list part) :=
  fun o =>
    match cache_get path (_pathCache o) with
    | Some parts => Ok parts o
    | None =>
        let fresh := fresh_parts path (data o) in
        match fresh with
        | Some parts =>
            Ok parts (with_cache (cache_set (cache_key path) parts (_pathCache o)) o)
        | None => Err TypeError o
        end
    end.

(* ------------------------------------------------------------------ *)
(** ** Dispatch: [_emitWildcardDeeper] and [_emitWildcard]             *)
(* ------------------------------------------------------------------ *)

(** [pathParts[pathParts.length - depth]], [undefined] out of range. *)
Definition part_at_depth (pathParts : list part) (depth : nat) : option part :=
  if (depth <=? List.length pathParts)%nat
  then nth_error pathParts (List.length pathParts - depth)
  else None.

(** [(path ? part + '.' + path : part)]. *)
Definition deeper_path (p : part) (path : rawpath) : rawpath :=
  if truthy path then RStr (part_string p ++ "." ++ path_string path)
  else part_path p.

(** [(path ? '*.' + path : '*')]. *)
Definition deeper_wildcard (path : rawpath) : rawpath :=
  if truthy path then RStr ("*." ++ path_string path) else RStr "*".

(** The calls of [emit] that one scan of the trie makes, in order.  The
    two inner loops are [node.has(k)] followed by [node.get(k)], for the
    segment of the path and for the wildcard. *)
Fixpoint _emitWildcardDeeper (node : trie) (path : rawpath) (pathParts : list part)
  (depth : nat) (type : string) (v old to : value) : list event :=
  match node with
  | Trie _ e children =>
      (if negb (e =? 0)%nat && (depth - 1 =? List.length pathParts)%nat
       then [Event (path_string path ++ ":" ++ type) pathParts v old to]
       else [])
      ++ match part_at_depth pathParts depth with
         | Some p =>
             (fix specific (cs : list (part * trie)) : list event :=
                match cs with
                | [] => []
                | (k, child) :: rest =>
                    if part_eqb k p
                    then _emitWildcardDeeper child (deeper_path p path) pathParts
                           (S depth) type v old to
                    else specific rest
                end) children
         | None => []
         end
      ++ (fix wildcard (cs : list (part * trie)) : list event :=
            match cs with
            | [] => []
            | (k, child) :: rest =>
                if part_eqb k (PStr "*")
                then _emitWildcardDeeper child (deeper_wildcard path) pathParts
                       (S depth) type v old to
                else wildcard rest
            end) children
  end.

(** Everything one call of [_emitWildcard] hands to the emitter, for a
    path already resolved: the qualified events the trie matches, then
    the event named after the kind of the change alone. *)
Definition wildcard_events (cache : trie) (pathParts : list part) (type : string)
  (v old to : value) : list event :=
  _emitWildcardDeeper cache (RStr "") pathParts 1 type v old to
  ++ [Event type pathParts v old to].

Definition emit_all (evs : list event) : M unit :=
  for_each (fun e => emit (ev_name e) (ev_path e) (ev_value e) (ev_old e) (ev_to e)) evs.

Definition _emitWildcard (path : rawpath) (type : string) (v old to : value) : M unit :=
  pathParts <- _makePathParts path ;;
  (fun o =>
     emit_all (_emitWildcardDeeper (_eventsCache o) (RStr "") pathParts 1 type v old to) o) ;;;
  emit type pathParts v old to.

(* ------------------------------------------------------------------ *)
(** ** The diff engine: [_checkSet] and [_checkUnset]                  *)
(* ------------------------------------------------------------------ *)

(** [isObject ? other[key] : undefined]. *)
Definition paired (other : value) (key : string) : value :=
  if is_object other then get_prop other key else VUndefined.

Fixpoint _checkSet (path : rawpath) (data old : value) {struct data} : M unit :=
  match data with
  | VObject props =>
      for_each
        (fun kv => _checkSet (child_path path (fst kv)) (snd kv) (paired old (fst kv)))
        props
  | VArray elems =>
      for_slots
        (fun i x => _checkSet (child_path path (Str.of_nat i)) x
                      (paired old (Str.of_nat i)))
        0 elems
  | _ => ret tt
  end ;;;
  if negb (is_object data && is_object old) && negb (strict_eq data old)
  then _emitWildcard path "set" data old VUndefined
  else ret tt.

Fixpoint _checkUnset (path : rawpath) (old data : value) {struct old} : M unit :=
  match old with
  | VObject props =>
      for_each
        (fun kv => _checkUnset (child_path path (fst kv)) (snd kv) (paired data (fst kv)))
        props
  | VArray elems =>
      for_slots
        (fun i x => _checkUnset (child_path path (Str.of_nat i)) x
                      (paired data (Str.of_nat i)))
        0 elems
  | _ => ret tt
  end ;;;
  if is_undefined data
  then _emitWildcard path "unset" old VUndefined VUndefined
  else ret tt.

(* ------------------------------------------------------------------ *)
(** ** Navigation and array primitives used by the methods             *)
(* ------------------------------------------------------------------ *)

Inductive walked : Type :=
| Reached (node : value)   (* the loop ran to its end *)
| Stopped                  (* [node === undefined]: the method returns *)
| Threw.                   (* [node[part]] was read in [null] *)

(** [for (...) { node = node[parts[i]]; if (node === undefined) return; }] *)
Fixpoint walk (node : value) (parts : list part) : walked :=
  match parts with
  | [] => Reached node
  | p :: rest =>
      match deref node (part_string p) with
      | None => Threw
      | Some child => if is_undefined child then Stopped else walk child rest
      end
  end.

(** The loop of [get]: it returns at the first [null] or [undefined]. *)
Fixpoint get_walk (node : value) (parts : list part) : option value :=
  match parts with
  | [] => Some node
  | p :: rest =>
      match deref node (part_string p) with
      | None => None
      | Some child => if is_nullish child then Some child else get_walk child rest
      end
  end.

(** The property keys that lead to [parts[0 .. length - 2]]. *)
Definition parent_keys (parts : list part) : list string :=
  map part_string (removelast parts).

(** [parts.slice(0, -1).join('.')]. *)
Definition array_path (parts : list part) : rawpath :=
  RStr (Str.join (parent_keys parts)).

(** [i = hi; while (i-- > lo) body(i)]: the values [i] takes in the body. *)
Definition down_from (hi lo : Z) : list Z :=
  rev (map (fun k => lo + Z.of_nat k) (seq 0 (Z.to_nat (hi - lo)))).

(** [i = lo; while (i++ < hi) body(i - 1)]: the values of [i - 1]. *)
Definition up_to (lo hi : Z) : list Z :=
  map (fun k => lo + Z.of_nat k) (seq 0 (Z.to_nat (hi - lo))).

Module ArrZ.

Definition length (elems : list (option value)) : Z :=
  Z.of_nat (List.length elems).

(** [arr[i]] for an integer [i]; no property has a negative index. *)
Definition read (i : Z) (elems : list (option value)) : value :=
  if i <? 0 then VUndefined else Arr.read (Z.to_nat i) elems.

(** The start of [arr.splice(start, ...)]: a negative [start] counts
    from the end, and the result is clamped to [0, length]. *)
Definition splice_start (start : Z) (elems : list (option value)) : nat :=
  if start <? 0 then Z.to_nat (Z.max (length elems + start) 0)
  else Z.to_nat (Z.min start (length elems)).

(** [arr.splice(start, 1)]. *)
Definition delete (start : Z) (elems : list (option value)) : list (option value) :=
  Arr.delete (splice_start start elems) elems.

(** [arr.splice(start, 0, v)]. *)
Definition insert (start : Z) (v : value) (elems : list (option value))
  : list (option value) :=
  Arr.insert (splice_start start elems) v elems.

End ArrZ.

(** [path === '' || path === null]: the path is one of the root. *)
Definition names_root (path : rawpath) : bool :=
  match path with
  | RNull => true
  | RStr s => (s =? "")%string
  | RUndefined | RInt _ => false
  end.

Inductive located : Type :=
| Found (path : rawpath) (parts : option (list part)) (node : value)
| Absent.

(** The common head of [insert], [move] and [remove]: [path] after
    [path = path.toString()], [parts] when it was computed, and the node
    the path leads to. *)
Definition locate (path : rawpath) : M located :=
  if names_root path
  then fun o => Ok (Found path None (data o)) o
  else
    let path := cache_key path in
    parts <- _makePathParts path ;;
    (fun o =>
       match walk (data o) parts with
       | Threw => Err TypeError o
       | Stopped => Ok Absent o
       | Reached node => Ok (Found path (Some parts) node) o
       end).

(** The keys from the root to the node [locate] found. *)
Definition located_keys (parts : option (list part)) : list string :=
  match parts with
  | Some ps => map part_string ps
  | None => []
  end.

(** An in-place change of the node at [keys] turns it into [node]. *)
Definition store (keys : list string) (node : value) : M unit :=
  fun o =>
    match update_at (data o) keys node with
    | Some root => Ok tt (with_data root o)
    | None => Err Unmodelled o
    end.

(** The node at [keys] as it is now. *)
Definition node_at (root : value) (keys : list string) : value :=
  fold_left get_prop keys root.

(* ------------------------------------------------------------------ *)
(** ** The methods of the class                                        *)
(* ------------------------------------------------------------------ *)

Module Observer.

(** The path taken as the data when [data === undefined]. *)
Definition path_value (path : rawpath) : value :=
  match path with
  | RUndefined => VUndefined
  | RNull => VNull
  | RStr s => VStr s
  | RInt z => of_int z
  end.

(** [path === '']. *)
Definition is_empty (path : rawpath) : bool :=
  match path with
  | RStr s => (s =? "")%string
  | _ => false
  end.

(** A parameter [path = '']: the default stands in for [undefined]. *)
Definition or_empty (path : rawpath) : rawpath :=
  match path with
  | RUndefined => RStr ""
  | _ => path
  end.

(** [get(path = '')]. *)
Definition get (path : rawpath) : M value :=
  let path := or_empty path in
  match path with
  | RUndefined => fun o => Ok (data o) o
  | _ =>
      parts <- _makePathParts path ;;
      (fun o =>
         match get_walk (data o) parts with
         | Some v => Ok v o
         | None => Err TypeError o
         end)
  end.

Definition set (path : rawpath) (data_ : value) : M unit :=
  let (path, data_) :=
    if is_undefined data_ then (RStr "", path_value path) else (path, data_) in
  if is_empty path && negb (is_object data_) then ret tt
  else
    parts <- _makePathParts path ;;
    (fun o =>
       match walk (data o) (removelast parts) with
       | Threw => Err TypeError o
       | Stopped => Ok tt o
       | Reached node =>
           if negb (is_object node) then Ok tt o
           else
             let key := key_of (last_part parts) in
             let nodeLength :=
               if is_empty path then None
               else match node with
                    | VArray elems => Some (ArrZ.length elems)
                    | _ => None
                    end in
             let old := if is_empty path then data o else get_prop node key in
             ((if is_empty path then (fun o' => Ok tt (with_data data_ o'))
               else store (parent_keys parts ++ [key]) data_) ;;;
              _checkUnset path old data_ ;;;
              _checkSet path data_ old ;;;
              match nodeLength with
              | None => ret tt
              | Some n =>
                  (fun o' =>
                     match node_at (data o') (parent_keys parts) with
                     | VArray elems =>
                         for_each
                           (fun i => _emitWildcard (array_path parts) "insert"
                                       (ArrZ.read i elems) (of_int i) VUndefined)
                           (up_to n (ArrZ.length elems)) o'
                     | _ => Ok tt o'
                     end)
              end) o
       end).

(** The numeric value of the last segment where [unset] uses it as an
    index of an array: [None] is NaN. *)
Definition index_number (p : option part) : option Z :=
  match p with
  | Some (PNum z) => Some z
  | Some (PStr s) => option_map Z.of_nat (Str.array_index s)
  | None => None
  end.

Definition index_value (p : option part) : value :=
  match p with
  | Some q => part_value q
  | None => VUndefined
  end.

(** The body of [if (path === undefined) { ... }] in [unset]: the root
    becomes an empty object, and what it held is torn down. *)
Definition reset_root (path : rawpath) : M unit :=
  fun o =>
    let old := data o in
    _checkUnset path old (VObject []) (with_data (VObject []) o).

(** The rest of [unset], for a path that is not [undefined]. *)
Definition unset_at (path : rawpath) : M unit :=
  parts <- _makePathParts path ;;
  (fun o =>
     match walk (data o) (removelast parts) with
     | Threw => Err TypeError o
     | Stopped => Ok tt o
     | Reached node =>
         let index := last_part parts in
         match deref node (key_of index) with
         | None => Err TypeError o
         | Some old =>
             if is_undefined old then Ok tt o
             else
               (_checkUnset path old VUndefined ;;;
                match node with
                | VArray elems =>
                    if ArrZ.length elems =? 0 then ret tt
                    else
                      let start := match index_number index with
                                   | Some z => z
                                   | None => 0
                                   end in
                      let elems' := ArrZ.delete start elems in
                      store (parent_keys parts) (VArray elems') ;;;
                      match index_number index with
                      | Some z =>
                          for_each
                            (fun i => _emitWildcard (array_path parts) "move"
                                        (ArrZ.read i elems') (of_int (i + 1)) (of_int i))
                            (if z <? ArrZ.length elems'
                             then down_from (ArrZ.length elems') z else [])
                      | None => ret tt
                      end ;;;
                      _emitWildcard (array_path parts) "remove" old
                        (index_value index) VUndefined
                | VObject props =>
                    store (parent_keys parts)
                      (VObject (Props.remove (key_of index) props))
                | _ => throw TypeError
                end) o
         end
     end).

(** [unset(path = '')]. *)
Definition unset (path : rawpath) : M unit :=
  let path := or_empty path in
  match path with
  | RUndefined => reset_root path
  | _ => unset_at path
  end.

(** [(parts ? (path + '.') : '') + index], the path of a new element. *)
Definition element_path (path : rawpath) (parts : option (list part)) (index : Z)
  : rawpath :=
  match parts with
  | Some _ => RStr (path_string path ++ "." ++ Str.of_Z index)
  | None => RStr (Str.of_Z index)
  end.

Definition insert (path : rawpath) (data_ : value) (index : Z) : M unit :=
  loc <- locate path ;;
  match loc with
  | Absent => ret tt
  | Found path parts (VArray elems) =>
      let len := ArrZ.length elems in
      (* negative index *)
      let index := if index <? -1
                   then (if index <? - len then 0 else len + index + 1)
                   else index in
      let '(elems', movedSince, index) :=
        if index =? 0 then
          (* beginning: [node.unshift(data)] *)
          (Some data_ :: elems, Some 1, 0)
        else if (index =? -1) || (len <=? index) then
          (* end: [node.push(data)] *)
          (elems ++ [Some data_], None, len)
        else
          (* middle *)
          (ArrZ.insert index data_ elems, Some (index + 1), index) in
      store (located_keys parts) (VArray elems') ;;;
      match movedSince with
      | Some since =>
          for_each
            (fun i => _emitWildcard path "move" (ArrZ.read i elems')
                        (of_int (i - 1)) (of_int i))
            (down_from (ArrZ.length elems') since)
      | None => ret tt
      end ;;;
      _emitWildcard path "insert" data_ (of_int index) VUndefined ;;;
      _checkSet (element_path path parts index) data_ VUndefined
  | Found _ _ _ => ret tt
  end.

(** The way [move] and [remove] bring an index into the array. *)
Definition clamp (i len : Z) : Z :=
  if i <? 0 then (if i <? - len then 0 else len + i)
  else if len <=? i then len - 1
  else i.

Definition move (path : rawpath) (from to : Z) : M unit :=
  loc <- locate path ;;
  match loc with
  | Absent => ret tt
  | Found path parts (VArray elems) =>
      let len := ArrZ.length elems in
      let from := clamp from len in
      let to := clamp to len in
      if from =? to then ret tt
      else
        let data_ := ArrZ.read from elems in
        (* remove item, then put it back *)
        let elems' := ArrZ.insert to data_ (ArrZ.delete from elems) in
        let '(movedSince, movedTill, movedDirection) :=
          if from <? to then (from + 1, to + 1, -1) else (to, from, 1) in
        store (located_keys parts) (VArray elems') ;;;
        (* notify of shifted items in between *)
        for_each
          (fun i => _emitWildcard path "move" (ArrZ.read (i + movedDirection) elems')
                      (of_int i) (of_int (i + movedDirection)))
          (down_from movedTill movedSince) ;;;
        _emitWildcard path "move" data_ (of_int from) (of_int to)
  | Found _ _ _ => ret tt
  end.

(** [(path ? path + '.' : '') + index], the path of the removed element. *)
Definition removed_path (path : rawpath) (index : Z) : rawpath :=
  RStr ((if truthy path then path_string path ++ "." else "") ++ Str.of_Z index).

Definition remove (path : rawpath) (index : Z) : M unit :=
  loc <- locate path ;;
  match loc with
  | Absent => ret tt
  | Found path parts (VArray elems) =>
      let len := ArrZ.length elems in
      if len =? 0 then ret tt
      else
        let index := clamp index len in
        let data_ := ArrZ.read index elems in
        _checkUnset (removed_path path index) data_ VUndefined ;;;
        let elems' := ArrZ.delete index elems in
        store (located_keys parts) (VArray elems') ;;;
        for_each
          (fun i => _emitWildcard path "move" (ArrZ.read i elems')
                      (of_int (i + 1)) (of_int i))
          (if index <? ArrZ.length elems'
           then down_from (ArrZ.length elems') index else []) ;;;
        _emitWildcard path "remove" data_ (of_int index) VUndefined
  | Found _ _ _ => ret tt
  end.

(** [clear()]: [this.off()], a method of the emitter, drops every
    handler; nothing in the method touches the trie of event paths, and
    [off] is taken to leave it as it is. *)
Definition clear : M unit :=
  fun o => Ok tt (Observer (VObject []) [] (_eventsCache o) [] (emitted o)).

(** The loop of [on] over the segments from the last to the first: each
    node on the way gets its [counter] incremented, the node of the first
    segment its [end]. *)
Fixpoint trie_add (backwards : list part) (node : trie) : trie :=
  match backwards, node with
  | [], _ => node
  | p :: rest, Trie c e children =>
      let map := match trie_get p children with
                 | Some m => m
                 | None => Trie 0 0 []
                 end in
      let map := match map with
                 | Trie mc me mcs =>
                     Trie (S mc) (match rest with [] => S me | _ => me end) mcs
                 end in
      Trie c e (trie_put p (trie_add rest map) children)
  end.

(** [on(name, callback, scope, once)]; [super.on] registers the
    handler under [name]. *)
Definition on (name : string) : M unit :=
  pathParts <- _makePathParts (RStr (Str.strip_kind name)) ;;
  (fun o =>
     Ok tt (Observer (data o) (_pathCache o)
              (trie_add (rev pathParts) (_eventsCache o))
              (handlers o ++ [name]) (emitted o))).

(** One turn of the first loop of [_patchNode], for the key [key] of
    [node] whose value [current] is not an object: [node[key] = incoming]
    and [_checkSet]. *)
Definition patch_scalar (pos : list string) (pathDeeper : rawpath)
  (key : string) (current incoming : value) : M unit :=
  store (pos ++ [key]) incoming ;;;
  _checkSet pathDeeper incoming current.

(** The same for an object [current] and an [incoming] value that is not
    an object. *)
Definition patch_replace (pos : list string) (pathDeeper : rawpath)
  (key : string) (current incoming : value) : M unit :=
  store (pos ++ [key]) incoming ;;;
  _checkUnset pathDeeper current incoming ;;;
  _emitWildcard pathDeeper "set" incoming current VUndefined.

(** One turn of the second loop of [_patchNode], [node] being the node
    at [pos] and [isArray] telling whether it is an array. *)
Definition patch_add (pos : list string) (path : rawpath) (isArray : bool)
  (kv : string * value) : M unit :=
  let (key, v) := kv in
  fun o =>
    if has_own (node_at (data o) pos) key then Ok tt o
    else
      (store (pos ++ [key]) v ;;;
       _checkSet (child_path path key) v VUndefined ;;;
       if isArray
       then _emitWildcard path "insert" v
              (match Str.parseInt key with Some z => of_int z | None => VUndefined end)
              VUndefined
       else ret tt) o.

(** [_patchNode(path, node, data)].  The node is changed in place: [pos]
    is the place of [node] in the tree, so that a write to [node[key]]
    is seen by whatever reads [this.data] next. *)
Fixpoint _patchNode (pos : list string) (path : rawpath) (node data_ : value)
  {struct node} : M unit :=
  (* update existing data first *)
  match node with
  | VObject props =>
      for_each
        (fun kv =>
           let key := fst kv in
           let current := snd kv in
           let incoming := get_prop data_ key in
           if is_undefined incoming then ret tt
           else if is_object current then
             if is_object incoming
             then _patchNode (pos ++ [key]) (child_path path key) current incoming
             else patch_replace pos (child_path path key) key current incoming
           else patch_scalar pos (child_path path key) key current incoming)
        props
  | VArray elems =>
      for_slots
        (fun i current =>
           let key := Str.of_nat i in
           let incoming := get_prop data_ key in
           if is_undefined incoming then ret tt
           else if is_object current then
             if is_object incoming
             then _patchNode (pos ++ [key]) (child_path path key) current incoming
             else patch_replace pos (child_path path key) key current incoming
           else patch_scalar pos (child_path path key) key current incoming)
        0 elems
  | _ => ret tt
  end ;;;
  (* add new data *)
  for_each (patch_add pos path (is_array node)) (own_entries data_).

Definition patch (path : rawpath) (data_ : value) : M unit :=
  let (path, data_) :=
    if is_undefined data_ then (RStr "", path_value path) else (path, data_) in
  if is_empty path && negb (is_object data_) then ret tt
  else
    parts <- _makePathParts path ;;
    (fun o =>
       match walk (data o) (removelast parts) with
       | Threw => Err TypeError o
       | Stopped => Ok tt o
       | Reached node =>
           if negb (is_object node) then Ok tt o
           else
             let key := key_of (last_part parts) in
             let current := if is_empty path then data o else get_prop node key in
             let pos := if is_empty path then [] else parent_keys parts ++ [key] in
             if is_object current then
               if is_object data_ then _patchNode pos path current data_ o
               else (store (parent_keys parts ++ [key]) data_ ;;;
                     _checkUnset path current data_ ;;;
                     _emitWildcard path "set" data_ current VUndefined) o
             else if is_object data_ then
               (store (parent_keys parts ++ [key]) data_ ;;;
                _checkSet path data_ current) o
             else if negb (strict_eq current data_) then
               (store (parent_keys parts ++ [key]) data_ ;;;
                _emitWildcard path "set" data_ current VUndefined) o
             else Ok tt o
       end).

End Observer.

(* ------------------------------------------------------------------ *)
(** ** The class before arrays: [unset] of [src/index.js]              *)
(* ------------------------------------------------------------------ *)

(** The earlier file of the class takes string paths only, keeps them as
    [split] leaves them, and emits each change twice: under
    [path + ':unset'] with the old value, and under ['*:unset'] with the
    path and the old value. *)
Module Legacy.

Record observer : Type := Observer {
  data : value;
  pathCache : list (string * list string);
  emitted : list (string * list value)
}.

(** [this.emit(name, ...args)]. *)
Definition emit (name : string) (args : list value) (o : observer) : observer :=
  Observer (data o) (pathCache o) (emitted o ++ [(name, args)]).

Fixpoint cache_get (k : string) (c : list (string * list string))
  : option (list string) :=
  match c with
  | [] => None
  | (k', ps) :: rest => if (k' =? k)%string then Some ps else cache_get k rest
  end.

Definition _makePathParts (path : string) (o : observer) : list string * observer :=
  match cache_get path (pathCache o) with
  | Some parts => (parts, o)
  | None =>
      let parts := Str.split path in
      (parts, Observer (data o) (pathCache o ++ [(path, parts)]) (emitted o))
  end.

(** [path + (path ? '.' : '') + key]. *)
Definition child_path (path key : string) : string :=
  path ++ (if (path =? "")%string then "" else ".") ++ key.

Section Loops.

Variable A : Type.

Fixpoint for_each (body : A -> observer -> observer) (xs : list A)
  (o : observer) : observer :=
  match xs with
  | [] => o
  | x :: rest => for_each body rest (body x o)
  end.

Fixpoint for_slots (body : nat -> A -> observer -> observer) (i : nat)
  (slots : list (option A)) (o : observer) : observer :=
  match slots with
  | [] => o
  | None :: rest => for_slots body (S i) rest o
  | Some x :: rest => for_slots body (S i) rest (body i x o)
  end.

End Loops.

Fixpoint _checkUnset (path : string) (old data_ : value) (o : observer)
  {struct old} : observer :=
  let o :=
    match old with
    | VObject props =>
        for_each
          (fun kv => _checkUnset (child_path path (fst kv)) (snd kv)
                       (paired data_ (fst kv)))
          props o
    | VArray elems =>
        for_slots
          (fun i x => _checkUnset (child_path path (Str.of_nat i)) x
                        (paired data_ (Str.of_nat i)))
          0 elems o
    | _ => o
    end in
  if is_undefined data_
  then emit "*:unset" [VStr path; old] (emit (path ++ ":unset") [old] o)
  else o.

(** [delete node[key]]; on an array it leaves a hole. *)
Definition delete_prop (node : value) (key : string) : option value :=
  match node with
  | VObject props => Some (VObject (Props.remove key props))
  | VArray elems =>
      match Str.array_index key with
      | Some n =>
          if (n <? List.length elems)%nat
          then Some (VArray (firstn n elems ++ None :: skipn (S n) elems))
          else Some node
      | None => if (key =? "length")%string then None else Some node
      end
  | VStr _ => None
  | _ => Some node
  end.

(** [unset(path = '')]: [None] stands for a [TypeError], or for a write
    outside the data model. *)
Definition unset (arg : option string) (o : observer) : option observer :=
  let path := match arg with Some p => p | None => "" end in
  if (path =? "")%string then
    (* [if (! path)]: the root is reset *)
    let old := data o in
    Some (_checkUnset path old (VObject [])
            (Observer (VObject []) (pathCache o) (emitted o)))
  else
    let (parts, o) := _makePathParts path o in
    match walk (data o) (map PStr (removelast parts)) with
    | Threw => None
    | Stopped => Some o
    | Reached node =>
        let key := last parts "undefined" in
        match deref node key with
        | None => None
        | Some old =>
            if is_undefined old then Some o
            else
              let o := _checkUnset path old VUndefined o in
              match delete_prop node key with
              | Some node' =>
                  match update_at (data o) (removelast parts) node' with
                  | Some root => Some (Observer root (pathCache o) (emitted o))
                  | None => None
                  end
              | None => None
              end
        end
    end.

(** [get(path = '')]. *)
Definition get (arg : option string) (o : observer) : option value * observer :=
  let path := match arg with Some p => p | None => "" end in
  if (path =? "")%string then (Some (data o), o)
  else
    let (parts, o) := _makePathParts path o in
    (get_walk (data o) (map PStr parts), o).

(** The paths under a value, each with the value it leads to, a node
    after the nodes below it. *)
Fixpoint paths_under (path : string) (v : value) {struct v}
  : list (string * value) :=
  match v with
  | VObject props =>
      flat_map (fun kv => paths_under (child_path path (fst kv)) (snd kv)) props
  | VArray elems =>
      (fix slots (i : nat) (l : list (option value)) : list (string * value) :=
         match l with
         | [] => []
         | None :: rest => slots (S i) rest
         | Some x :: rest =>
             paths_under (child_path path (Str.of_nat i)) x ++ slots (S i) rest
         end) 0%nat elems
  | _ => []
  end ++ [(path, v)].

(** The root has no path of its own under it. *)
Definition paths_below_root (root : value) : list (string * value) :=
  removelast (paths_under "" root).

(** The two calls of [emit] for one path that disappears. *)
Definition unset_calls (pv : string * value) : list (string * list value) :=
  [((fst pv ++ ":unset")%string, [snd pv]); ("*:unset", [VStr (fst pv); snd pv])].

End Legacy.

(* ------------------------------------------------------------------ *)
(** ** Reading a run                                                   *)
(* ------------------------------------------------------------------ *)

(** What a handler subscribed under [name] has been called with. *)
Definition delivered (name : string) (o : observer) : list event :=
  filter (fun e => (ev_name e =? name)%string) (emitted o).

(** [e1] is emitted, [e2] later, [e3] later still. *)
Definition in_order (e1 e2 e3 : event) (log : list event) : Prop :=
  exists i j k : nat,
    (i < j)%nat /\ (j < k)%nat /\
    nth_error log i = Some e1 /\ nth_error log j = Some e2 /\
    nth_error log k = Some e3.

(** An event of kind [type]: the one named [type] alone, or a qualified
    one, whose name ends in [':' + type]. *)
Definition of_kind (type : string) (e : event) : Prop :=
  ev_name e = type \/ exists prefix : string, ev_name e = (prefix ++ ":" ++ type)%string.

(** The cache answers the two paths of the root with no segment, if it
    answers them at all. *)
Definition root_cache_ok (o : observer) : Prop :=
  forall k ps,
    names_root k = true -> cache_get k (_pathCache o) = Some ps -> ps = [].

(** The state after the emitter was called with each of [evs]. *)
Definition push_events (evs : list event) (o : observer) : observer :=
  Observer (data o) (_pathCache o) (_eventsCache o) (handlers o) (emitted o ++ evs).

(** Induction over a trie: the children of a node are the subtries. *)
Definition trie_ind (P : trie -> Prop)
  (Hnode : forall c e children,
      Forall (fun kt => P (snd kt)) children -> P (Trie c e children))
  : forall t, P t :=
  fix F (t : trie) : P t :=
    match t with
    | Trie c e children =>
        Hnode c e children
          ((fix G (l : list (part * trie)) : Forall (fun kt => P (snd kt)) l :=
              match l with
              | [] => Forall_nil _
              | kt :: l' => Forall_cons kt (F (snd kt)) (G l')
              end) children)
    end.

(** The path [p] resolves to [pp] in the state [o]: it is in the cache
    with these segments, or it is a path of the root that is not in the
    cache yet. *)
Definition resolved (p : rawpath) (pp : list part) (o : observer) : Prop :=
  cache_get p (_pathCache o) = Some pp \/
  (names_root p = true /\ pp = [] /\ cache_get p (_pathCache o) = None).


(** The state of the earlier class after the emitter was called with each
    of [evs]. *)
Definition legacy_push (evs : list (string * list value)) (o : Legacy.observer)
  : Legacy.observer :=
  Legacy.Observer (Legacy.data o) (Legacy.pathCache o) (Legacy.emitted o ++ evs).

(** The teardown of a value announces every path under it, and its own
    path last. *)
Definition legacy_announces (v : value) : Prop :=
  forall (path : string) (o : Legacy.observer),
    Legacy._checkUnset path v VUndefined o =
    legacy_push (flat_map Legacy.unset_calls (Legacy.paths_under path v)) o.

(** Sample data of the documentation. *)
Definition str (s : string) : option value := Some (VStr s).

Definition abc : value := VArray [str "a"; str "b"; str "c"].

Definition abcd : value := VArray [str "a"; str "b"; str "c"; str "d"].

Definition planets : value :=
  VObject [("earth", VObject [("population", VNum 7.594)]);
           ("mars", VObject [("population", VNum 0)])].

Definition ab12 : value := VObject [("a", VNum 1); ("b", VNum 2)].

Definition ac13 : value := VObject [("a", VNum 1); ("c", VNum 3)].

Definition move_event (parts : list part) (v : value) (from to : Z) : event :=
  Event "move" parts v (of_int from) (of_int to).

Definition insert_event (parts : list part) (v : value) (index : Z) : event :=
  Event "insert" parts v (of_int index) VUndefined.

Definition remove_event (parts : list part) (v : value) (index : Z) : event :=
  Event "remove" parts v (of_int index) VUndefined.

Definition set_event (parts : list part) (v old : value) : event :=
  Event "set" parts v old VUndefined.

Definition unset_event (parts : list part) (old : value) : event :=
  Event "unset" parts old VUndefined VUndefined.

(** The reading of the insertion example in which the displaced elements
    are reported from the lowest index up: ['b'] before ['c'], and both
    before the insertion. *)
Definition insert_reports_moves_ascending (o : observer) : Prop :=
  data o = VArray [str "a"; str "x"; str "b"; str "c"] /\
  in_order (move_event [] (VStr "b") 1 2) (move_event [] (VStr "c") 2 3)
    (insert_event [] (VStr "x") 1) (emitted o).

(** The recursion of [_checkSet] into the keys of the new value, and of
    [_checkUnset] into the keys of the old one. *)
Definition checkSet_keys (path : rawpath) (data_ old : value) : M unit :=
  for_each
    (fun kv => _checkSet (child_path path (fst kv)) (snd kv) (paired old (fst kv)))
    (own_entries data_).

Definition checkUnset_keys (path : rawpath) (old data_ : value) : M unit :=
  for_each
    (fun kv => _checkUnset (child_path path (fst kv)) (snd kv) (paired data_ (fst kv)))
    (own_entries old).

(** The reading of [_checkSet] in which a pair of objects always gets its
    own [set] event. *)
Definition checkSet_emits_for_objects : Prop :=
  forall (path : rawpath) (data_ old : value) (o : observer),
    is_object data_ = true -> is_object old = true ->
    exists (o' : observer) (parts : list part),
      _checkSet path data_ old o = Ok tt o' /\
      In (set_event parts data_ old) (emitted o').

(** What a state may differ in after paths were resolved and events
    emitted: the cache, which keeps what it had, and the trace, which
    grows by events that satisfy [Q]. *)
Record grows (Q : event -> Prop) (o o' : observer) : Prop := Grows {
  grows_data : data o' = data o;
  grows_trie : _eventsCache o' = _eventsCache o;
  grows_handlers : handlers o' = handlers o;
  grows_cache : forall k ps, cache_get k (_pathCache o) = Some ps ->
                             cache_get k (_pathCache o') = Some ps;
  grows_root : root_cache_ok o -> root_cache_ok o';
  grows_emitted : exists evs, emitted o' = emitted o ++ evs /\ Forall Q evs
}.

(** A method that returns, in a state that [grows]. *)
Definition runs (Q : event -> Prop) (m : M unit) : Prop :=
  forall o, is_nullish (data o) = false ->
            exists o', m o = Ok tt o' /\ grows Q o o'.

(** A call of a method of the class. *)
Inductive call : Type :=
| CGet (path : rawpath)
| CSet (path : rawpath) (data_ : value)
| CPatch (path : rawpath) (data_ : value)
| CUnset (path : rawpath)
| CInsert (path : rawpath) (data_ : value) (index : Z)
| CMove (path : rawpath) (from to : Z)
| CRemove (path : rawpath) (index : Z)
| COn (name : string)
| CClear.

(** The state a call leaves, whether it returned or threw. *)
Definition perform (c : call) (o : observer) : observer :=
  match c with
  | CGet path => final (Observer.get path o)
  | CSet path v => final (Observer.set path v o)
  | CPatch path v => final (Observer.patch path v o)
  | CUnset path => final (Observer.unset path o)
  | CInsert path v i => final (Observer.insert path v i o)
  | CMove path from to => final (Observer.move path from to o)
  | CRemove path i => final (Observer.remove path i o)
  | COn name => final (Observer.on name o)
  | CClear => final (Observer.clear o)
  end.

(** The states an observer goes through. *)
Inductive reachable : observer -> Prop :=
| reachable_new (d : value) : reachable (new_observer d)
| reachable_call (c : call) (o : observer) :
    reachable o -> reachable (perform c o).

(** A path that is not an integer. *)
Definition not_integer (p : rawpath) : Prop := cache_key p = p.

(** A path that is a string or [null]. *)
Definition plain (p : rawpath) : bool :=
  match p with
  | RNull | RStr _ => true
  | RUndefined | RInt _ => false
  end.

(** The calls that hand [_makePathParts] no integer: [insert], [move] and
    [remove] turn an integer path into a string before they resolve it,
    the other methods do not. *)
Definition integer_free (c : call) : Prop :=
  match c with
  | CGet p | CUnset p | CSet p _ | CPatch p _ => not_integer p
  | CClear => False
  | _ => True
  end.

(** The cache of [o'] answers what the cache of [o] answered. *)
Definition cache_kept (o o' : observer) : Prop :=
  forall k ps, cache_get k (_pathCache o) = Some ps ->
               cache_get k (_pathCache o') = Some ps.

(** A method that leaves every state related by [R] to the state it
    started in. *)
Definition keeps (R : observer -> observer -> Prop) {A : Type} (m : M A) : Prop :=
  forall o, R o (final (m o)).

(* ------------------------------------------------------------------ *)
(** ** Numerals                                                       *)
(* ------------------------------------------------------------------ *)

(** The number a decimal numeral denotes on top of an accumulator. *)
Fixpoint uint_value (d : Decimal.uint) (acc : Z) : Z :=
  match d with
  | Decimal.Nil => acc
  | Decimal.D0 l => uint_value l (10 * acc)
  | Decimal.D1 l => uint_value l (10 * acc + 1)
  | Decimal.D2 l => uint_value l (10 * acc + 2)
  | Decimal.D3 l => uint_value l (10 * acc + 3)
  | Decimal.D4 l => uint_value l (10 * acc + 4)
  | Decimal.D5 l => uint_value l (10 * acc + 5)
  | Decimal.D6 l => uint_value l (10 * acc + 6)
  | Decimal.D7 l => uint_value l (10 * acc + 7)
  | Decimal.D8 l => uint_value l (10 * acc + 8)
  | Decimal.D9 l => uint_value l (10 * acc + 9)
  end.

(* ------------------------------------------------------------------ *)
(** ** What a call leaves in place                                    *)
(* ------------------------------------------------------------------ *)

(** What a method may do to the root: leave it as it was, or leave an
    object or an array there. *)
Definition root_kept (o o' : observer) : Prop :=
  data o' = data o \/ is_object (data o') = true.

(** The subscriptions are as they were: the trie of event paths and the
    handlers of the emitter. *)
Definition subscriptions_kept (o o' : observer) : Prop :=
  _eventsCache o' = _eventsCache o /\ handlers o' = handlers o.

(* ------------------------------------------------------------------ *)
(** ** The parent of a path                                           *)
(* ------------------------------------------------------------------ *)

(** The node in which [set], [patch] and [unset] look up the last
    segment of [path]: where the walk over the segments before it ends. *)
Definition parent_of (path : rawpath) (o : observer) : option value :=
  match _makePathParts path o with
  | Ok parts o' =>
      match walk (data o') (removelast parts) with
      | Reached node => Some node
      | _ => None
      end
  | Err _ _ => None
  end.

(** A path that is not one of the root is cached with at least one
    segment. *)
Definition cache_segments_ok (o : observer) : Prop :=
  forall k ps,
    cache_get k (_pathCache o) = Some ps -> names_root k = false -> ps <> [].

(* ------------------------------------------------------------------ *)
(** ** The position of an insert                                      *)
(* ------------------------------------------------------------------ *)


(* ------------------------------------------------------------------ *)
(** ** Subscriptions and the paths they are meant for                 *)
(* ------------------------------------------------------------------ *)



(* ------------------------------------------------------------------ *)
(** ** The handle of a subscription: [destroy]                        *)
(* ------------------------------------------------------------------ *)

(** [node.delete(k)]. *)
Fixpoint trie_delete (k : part) (cs : list (part * trie)) : list (part * trie) :=
  match cs with
  | [] => []
  | (k', t') :: rest =>
      if part_eqb k' k then rest else (k', t') :: trie_delete k rest
  end.

(** The loop of [evt.destroy], the closure that [on] hands out, over the
    segments from the last to the first: the [counter] of each node on
    the way is decremented, a node whose counter reaches zero is deleted
    from its parent and the loop ends there; the node of the first
    segment has its [end] decremented.  [inl TypeError]: the node of a
    segment is not there, and [map.counter] is read in [undefined];
    [inl Unmodelled]: a counter would go below zero. *)
Fixpoint trie_drop (backwards : list part) (node : trie) : error + trie :=
  match backwards, node with
  | [], _ => inr node
  | p :: rest, Trie c e children =>
      match trie_get p children with
      | None => inl TypeError
      | Some (Trie 0 _ _) => inl Unmodelled
      | Some (Trie 1 _ _) => inr (Trie c e (trie_delete p children))
      | Some (Trie (S mc) me mcs) =>
          match rest, me with
          | [], 0%nat => inl Unmodelled
          | _, _ =>
              let map := Trie mc (match rest with [] => me - 1 | _ => me end)%nat mcs in
              match trie_drop rest map with
              | inr map' => inr (Trie c e (trie_put p map' children))
              | inl err => inl err
              end
          end
      end
  end.

(** [node.counter]. *)
Definition counter_of (t : trie) : nat :=
  match t with Trie c _ _ => c end.

(** Every node below the root of the trie carries at least one
    subscription. *)
Fixpoint counted (t : trie) : Prop :=
  match t with
  | Trie _ _ children =>
      (fix all (cs : list (part * trie)) : Prop :=
         match cs with
         | [] => True
         | (_, child) :: rest =>
             (0 < counter_of child)%nat /\ counted child /\ all rest
         end) children
  end.

(* ------------------------------------------------------------------ *)
(** ** Values as JSON gives them                                      *)
(* ------------------------------------------------------------------ *)

(** A value as JSON gives it: no [undefined] in it, no key twice in an
    object, and no array so long that a position is not an index. *)
Fixpoint settled (v : value) : Prop :=
  match v with
  | VUndefined => False
  | VObject props =>
      NoDup (map fst props) /\
      (fix all (l : list (string * value)) : Prop :=
         match l with
         | [] => True
         | (_, x) :: rest => settled x /\ all rest
         end) props
  | VArray elems =>
      Z.of_nat (List.length elems) < 4294967295 /\
      (fix all (l : list (option value)) : Prop :=
         match l with
         | [] => True
         | Some x :: rest => settled x /\ all rest
         | None :: rest => all rest
         end) elems
  | _ => True
  end.

(* ------------------------------------------------------------------ *)
(** ** What handlers are told                                         *)
(* ------------------------------------------------------------------ *)




(* ------------------------------------------------------------------ *)
(** ** The shape of a resolved path                                   *)
(* ------------------------------------------------------------------ *)

(** A segment as [_makePathParts] leaves it: the piece of the path
    between two dots, or the integer that [parseInt] reads in it. *)
Definition resolves_to (piece : string) (p : part) : Prop :=
  p = PStr piece \/ exists z, Str.parseInt piece = Some z /\ p = PNum z.

(** What the cache holds: under [null] and [''] no segment, under
    another string one segment for each piece of it, and nothing under a
    number or [undefined]. *)
Definition cache_shaped (o : observer) : Prop :=
  forall k ps,
    cache_get k (_pathCache o) = Some ps ->
    match k with
    | RNull => ps = []
    | RStr s => if (s =? "")%string then ps = []
                else Forall2 resolves_to (Str.split s) ps
    | RUndefined | RInt _ => False
    end.

(** No character of [s] is a dot. *)
Fixpoint no_dot (s : string) : bool :=
  match s with
  | EmptyString => true
  | String c rest => negb (Ascii.eqb c ".") && no_dot rest
  end.


(* ------------------------------------------------------------------ *)
(** ** Properties after a patch                                       *)
(* ------------------------------------------------------------------ *)

(** A property after a patch by the properties [dprops]: the value
    that [dprops] gives its key, or the one it had. *)
Definition patched (dprops : list (string * value)) (kv : string * value)
  : string * value :=
  (fst kv, match Props.lookup (fst kv) dprops with
           | Some x => x
           | None => snd kv
           end).

(* ------------------------------------------------------------------ *)
(** ** The calls of a teardown                                        *)
(* ------------------------------------------------------------------ *)













(* ------------------------------------------------------------------ *)
(** ** Keys the data model answers for                                *)
(* ------------------------------------------------------------------ *)

(** The names that [Object.prototype] defines.  In an object that has
    no key of its own under such a name, [node[name]] answers the
    inherited member, and [node['__proto__'] = v] runs a setter: reads
    and writes the data model leaves out. *)
Definition object_members : list string :=
  ["constructor"; "__proto__"; "hasOwnProperty"; "isPrototypeOf";
   "propertyIsEnumerable"; "toLocaleString"; "toString"; "valueOf";
   "__defineGetter__"; "__defineSetter__"; "__lookupGetter__";
   "__lookupSetter__"].

Definition inherited_by_object (k : string) : bool :=
  existsb (String.eqb k) object_members.

(** A key that is one segment of a path and no member of
    [Object.prototype]. *)
Definition plain_key (k : string) : bool :=
  no_dot k && negb (inherited_by_object k).

(** A string of at most 15 characters, all of them ASCII: on its pieces
    [parseInt] is exact, and so is the decimal form of an integer that
    is written with it. *)
Definition modest (s : string) : bool :=
  (String.length s <=? 15)%nat
  && forallb (fun c => (nat_of_ascii c <? 128)%nat) (list_ascii_of_string s).

Unset Implicit Arguments.

(* ------------------------------------------------------------------ *)
(** ** Strings                                                         *)
(* ------------------------------------------------------------------ *)

Example of_Z_neg : Str.of_Z (-15) = "-15". Proof. reflexivity. Qed.
Example parseInt_junk : Str.parseInt "12abc" = Some 12. Proof. reflexivity. Qed.
Example parseInt_nan : Str.parseInt "population" = None. Proof. reflexivity. Qed.
Example array_index_canon : Str.array_index "007" = None. Proof. reflexivity. Qed.
Example split_abc : Str.split "a..b" = ["a"; ""; "b"]. Proof. reflexivity. Qed.
Example strip_set : Str.strip_kind "*.population:set" = "*.population".
Proof. reflexivity. Qed.

(* ------------------------------------------------------------------ *)
(** ** Argument shift of [set] and [patch]                             *)
(* ------------------------------------------------------------------ *)

Lemma path_value_not_object (p : rawpath) : is_object (Observer.path_value p) = false.
Proof. destruct p; reflexivity. Qed.

(** C10.  For every path [p] (a string, an integer, [null], or none),
    [set(p, undefined)] is read as [set('', p)]: [p] is not an object, so
    the call returns at once, in the state it was made in; nothing is
    stored and nothing emitted.  [patch] shifts its arguments the same
    way, with the same result. *)
Theorem set_undefined_shifts_arguments (p : rawpath) (o : observer) :
  Observer.set p VUndefined o = Observer.set (RStr "") (Observer.path_value p) o /\
  Observer.set p VUndefined o = Ok tt o /\
  Observer.patch p VUndefined o = Ok tt o.
Proof.
  assert (Hset : forall q, Observer.set q VUndefined o = Ok tt o).
  { intros q. unfold Observer.set. cbn. now rewrite path_value_not_object. }
  repeat split.
  - rewrite Hset. symmetry.
    destruct (is_undefined (Observer.path_value p)) eqn:Hund.
    + replace (Observer.path_value p) with VUndefined
        by (now destruct (Observer.path_value p)).
      apply Hset.
    + unfold Observer.set. rewrite Hund. cbn. now rewrite path_value_not_object.
  - apply Hset.
  - unfold Observer.patch. cbn. now rewrite path_value_not_object.
Qed.

(* ------------------------------------------------------------------ *)
(** ** The examples of the documentation, run                          *)
(* ------------------------------------------------------------------ *)

(** C3, as amended.  On ['a','b','c'], [insert('', 'x', 1)] leaves
    ['a','x','b','c'] and emits, in this order: the move of ['c'] from 2
    to 3, the move of ['b'] from 1 to 2 (highest index first), the insert
    of ['x'] at 1, and the [set] of the new element at path [1]. *)
Theorem insert_middle_trace :
  exists o : observer,
    Observer.insert (RStr "") (VStr "x") 1 (new_observer abc) = Ok tt o /\
    data o = VArray [str "a"; str "x"; str "b"; str "c"] /\
    emitted o = [move_event [] (VStr "c") 2 3;
                 move_event [] (VStr "b") 1 2;
                 insert_event [] (VStr "x") 1;
                 set_event [PNum 1] (VStr "x") VUndefined].
Proof. eexists. split; [vm_compute; reflexivity | split; reflexivity]. Qed.

(** C3, as stated, fails: the move of ['b'] is not emitted before the
    move of ['c']. *)
Lemma insert_moves_ascending_refuted :
  ~ insert_reports_moves_ascending
      (final (Observer.insert (RStr "") (VStr "x") 1 (new_observer abc))).
Proof.
  intros [_ (i & j & k & Hij & Hjk & Hi & Hj & Hk)].
  vm_compute in Hi, Hj, Hk.
  destruct i as [|[|[|[|i]]]]; try discriminate Hi;
    destruct j as [|[|[|[|j]]]]; try discriminate Hj; try lia.
  all: destruct j; discriminate Hj.
Qed.

(** C4.  With a handler on ['*.population:set'] over the two planets,
    [set('earth.population', 7.595)] calls the handler once, with the
    path ['earth','population'], the value 7.595 and the old value 7.594;
    [set('mars.name', 'Mars')] after it does not call the handler. *)
Theorem wildcard_population_set :
  exists o0 o1 o2 : observer,
    Observer.on "*.population:set" (new_observer planets) = Ok tt o0 /\
    Observer.set (RStr "earth.population") (VNum 7.595) o0 = Ok tt o1 /\
    Observer.set (RStr "mars.name") (VStr "Mars") o1 = Ok tt o2 /\
    handlers o0 = ["*.population:set"] /\
    delivered "*.population:set" o0 = [] /\
    delivered "*.population:set" o1 =
      [Event "*.population:set" [PStr "earth"; PStr "population"]
         (VNum 7.595) (VNum 7.594) VUndefined] /\
    delivered "*.population:set" o2 = delivered "*.population:set" o1 /\
    get_prop (get_prop (data o2) "mars") "name" = VStr "Mars".
Proof.
  do 3 eexists.
  split; [vm_compute; reflexivity|].
  split; [vm_compute; reflexivity|].
  split; [vm_compute; reflexivity|].
  repeat split.
Qed.

(** On ['a','b','c','d'], [move('', 0, 2)] gives ['b','c','a','d'] and
    [move('', 2, 0)] after it gives ['a','b','c','d'] back. *)
Lemma move_there_and_back :
  exists o1 o2 : observer,
    Observer.move (RStr "") 0 2 (new_observer abcd) = Ok tt o1 /\
    Observer.move (RStr "") 2 0 o1 = Ok tt o2 /\
    data o1 = VArray [str "b"; str "c"; str "a"; str "d"] /\
    data o2 = abcd.
Proof.
  do 2 eexists.
  split; [vm_compute; reflexivity|].
  split; [vm_compute; reflexivity|].
  split; reflexivity.
Qed.

(** C1, on the code.  [unset()] and [unset('')] on [{a: 1}] return with
    the root as it was and emit nothing: with the default [path = ''] the
    path resolves to no segment, the method reads [node[undefined]], finds
    it [undefined] and returns; [get()] still answers [{a: 1}]. *)
Theorem unset_root_keeps_root :
  let root := VObject [("a", VNum 1)] in
  exists o1 o2 o3 : observer,
    Observer.unset RUndefined (new_observer root) = Ok tt o1 /\
    Observer.unset (RStr "") (new_observer root) = Ok tt o2 /\
    Observer.get RUndefined o1 = Ok root o3 /\
    data o1 = root /\ emitted o1 = [] /\
    data o2 = root /\ emitted o2 = [].
Proof.
  do 3 eexists.
  split; [vm_compute; reflexivity|].
  split; [vm_compute; reflexivity|].
  split; [vm_compute; reflexivity|].
  repeat split.
Qed.

(** At the string path ['p'], [set('p', {a:1,c:3})] over [{a:1,b:2}]
    emits the [unset] of [p.b] and the [set] of [p.c], and nothing else. *)
Lemma set_diff_string_path :
  exists o : observer,
    Observer.set (RStr "p") ac13 (new_observer (VObject [("p", ab12)])) = Ok tt o /\
    data o = VObject [("p", ac13)] /\
    emitted o = [unset_event [PStr "p"; PStr "b"] (VNum 2);
                 set_event [PStr "p"; PStr "c"] (VNum 3) VUndefined].
Proof. eexists. split; [vm_compute; reflexivity | split; reflexivity]. Qed.

(** C5, on the code, at the integer path [0].  Over [[{a:1,b:2}]],
    [set(0, {a:1,c:3})] reports both changes at the path [[0]] of the
    element itself: [0] counts as false in [path ? '.' : ''], the paths of
    the keys are built as ['0b'] and ['0c'], and under the root array
    [parseInt] reads each of them as the index 0. *)
Theorem set_diff_integer_path_zero :
  exists o : observer,
    Observer.set (RInt 0) ac13 (new_observer (VArray [Some ab12])) = Ok tt o /\
    data o = VArray [Some ac13] /\
    child_path (RInt 0) "b" = RStr "0b" /\
    emitted o = [unset_event [PNum 0] (VNum 2);
                 set_event [PNum 0] (VNum 3) VUndefined].
Proof. eexists. split; [vm_compute; reflexivity | repeat split]. Qed.

(** The same call at the integer path [1] reports the changes at [1.b]
    and [1.c]. *)
Lemma set_diff_integer_path_one :
  exists o : observer,
    Observer.set (RInt 1) ac13 (new_observer (VArray [Some VNull; Some ab12])) = Ok tt o /\
    emitted o = [unset_event [PNum 1; PStr "b"] (VNum 2);
                 set_event [PNum 1; PStr "c"] (VNum 3) VUndefined].
Proof. eexists. split; [vm_compute; reflexivity | reflexivity]. Qed.

(** C7, on the code.  Over [{a: null}], [set('a.b.c', 1)] throws: the
    loop reads [node['b']] in [null], which it took for a node because it
    tests [node === undefined] only.  The data is unchanged and nothing is
    emitted, but the call does not return. *)
Theorem set_below_null_throws :
  let root := VObject [("a", VNull)] in
  exists o : observer,
    Observer.set (RStr "a.b.c") (VNum 1) (new_observer root) = Err TypeError o /\
    data o = root /\ emitted o = [] /\
    Observer.get (RStr "a.b.c") o = Ok VNull o.
Proof.
  eexists.
  split; [vm_compute; reflexivity|].
  repeat split.
Qed.

(** C8, on the code, at the integer path [0].  Over ['a'] the path [0]
    resolves to the index 0; once the root is an object the same path
    resolves again, to the key ['0']: the cache is read under the number
    and written under the string, so that an integer path is never found
    in it.  The string path ['0'] keeps its first resolution. *)
Theorem integer_path_resolved_again :
  let reshape := Observer.set (RStr "") (VObject [("0", VStr "b")]) in
  exists o o' : observer,
    (first <- _makePathParts (RInt 0) ;; reshape ;;;
     again <- _makePathParts (RInt 0) ;; ret (first, again))
      (new_observer (VArray [str "a"])) = Ok ([PNum 0], [PStr "0"]) o /\
    (first <- _makePathParts (RStr "0") ;; reshape ;;;
     again <- _makePathParts (RStr "0") ;; ret (first, again))
      (new_observer (VArray [str "a"])) = Ok ([PNum 0], [PNum 0]) o'.
Proof. do 2 eexists. split; vm_compute; reflexivity. Qed.

(** The resolution cached for the string ['0'] is replaced by a later
    call with the integer [0]. *)
Lemma integer_path_overwrites_string_entry :
  let reshape := Observer.set (RStr "") (VObject [("0", VStr "b")]) in
  exists o : observer,
    (first <- _makePathParts (RStr "0") ;; reshape ;;;
     _makePathParts (RInt 0) ;;;
     again <- _makePathParts (RStr "0") ;; ret (first, again))
      (new_observer (VArray [str "a"])) = Ok ([PNum 0], [PStr "0"]) o.
Proof. eexists. vm_compute; reflexivity. Qed.

(** C6, as stated, fails: when [{a:1}] replaces [{a:2}] at ['p'],
    [_checkSet] emits the [set] of [p.a] and nothing for ['p'] itself. *)
Lemma checkSet_objects_refuted : ~ checkSet_emits_for_objects.
Proof.
  intros H.
  destruct (H (RStr "p") (VObject [("a", VNum 1)]) (VObject [("a", VNum 2)])
              (new_observer (VObject [])) eq_refl eq_refl)
    as (o' & parts & Hrun & Hin).
  vm_compute in Hrun. injection Hrun as <-.
  destruct Hin as [Hin | []]. discriminate Hin.
Qed.

(* ------------------------------------------------------------------ *)
(** ** The path cache                                                  *)
(* ------------------------------------------------------------------ *)

Lemma rawpath_eqb_eq (a b : rawpath) : rawpath_eqb a b = true <-> a = b.
Proof.
  destruct a, b; cbn; split; intros H; try discriminate; try reflexivity.
  - apply String.eqb_eq in H. now subst.
  - injection H as ->. apply String.eqb_refl.
  - apply Z.eqb_eq in H. now subst.
  - injection H as ->. apply Z.eqb_refl.
Qed.

Lemma rawpath_eqb_refl (a : rawpath) : rawpath_eqb a a = true.
Proof. now apply rawpath_eqb_eq. Qed.

Lemma rawpath_eqb_neq (a b : rawpath) : a <> b -> rawpath_eqb a b = false.
Proof.
  intros H. destruct (rawpath_eqb a b) eqn:E; [|reflexivity].
  apply rawpath_eqb_eq in E. contradiction.
Qed.

Lemma cache_get_set_same (k : rawpath) (ps : list part) c :
  cache_get k (cache_set k ps c) = Some ps.
Proof.
  induction c as [|[k' ps'] c IH]; cbn.
  - now rewrite rawpath_eqb_refl.
  - destruct (rawpath_eqb k' k) eqn:E; cbn; rewrite E; [reflexivity | exact IH].
Qed.

Lemma cache_get_set_other (k k' : rawpath) (ps : list part) c :
  k <> k' -> cache_get k' (cache_set k ps c) = cache_get k' c.
Proof.
  intros Hne. induction c as [|[k0 ps0] c IH]; cbn.
  - rewrite rawpath_eqb_neq by exact Hne. reflexivity.
  - destruct (rawpath_eqb k0 k) eqn:E; cbn.
    + apply rawpath_eqb_eq in E. subst k0.
      rewrite rawpath_eqb_neq by exact Hne. reflexivity.
    + destruct (rawpath_eqb k0 k'); [reflexivity | exact IH].
Qed.

Lemma of_Z_nonempty (z : Z) : Str.of_Z z <> "".
Proof.
  unfold Str.of_Z. destruct (Z.to_int z) as [d|d]; cbn.
  - destruct d; cbn; discriminate.
  - discriminate.
Qed.


Lemma cache_key_root (p : rawpath) :
  names_root (cache_key p) = true -> names_root p = true.
Proof.
  destruct p as [| |s|z]; cbn; auto.
  intros H. apply String.eqb_eq in H. now apply of_Z_nonempty in H.
Qed.

Lemma resolve_total (node : value) (segments : list string) :
  is_nullish node = false -> exists ps, resolve node segments = Some ps.
Proof.
  revert node. induction segments as [|s rest IH]; intros node Hnode; cbn.
  - now exists [].
  - unfold deref. rewrite Hnode.
    match goal with |- context [is_nullish ?n] => destruct (is_nullish n) eqn:E end.
    + eexists. reflexivity.
    + destruct (IH _ E) as [ps Hps]. rewrite Hps. eexists. reflexivity.
Qed.

(** A path found in the cache is answered from it, in the same state. *)
Lemma makePathParts_hit (path : rawpath) (o : observer) (ps : list part) :
  cache_get path (_pathCache o) = Some ps -> _makePathParts path o = Ok ps o.
Proof. intros H. unfold _makePathParts. now rewrite H. Qed.

Lemma grows_refl (Q : event -> Prop) (o : observer) : grows Q o o.
Proof.
  constructor; auto. exists []. split; [now rewrite app_nil_r | constructor].
Qed.

Lemma grows_trans (Q : event -> Prop) (o1 o2 o3 : observer) :
  grows Q o1 o2 -> grows Q o2 o3 -> grows Q o1 o3.
Proof.
  intros [d1 t1 h1 c1 r1 (e1 & He1 & Hq1)] [d2 t2 h2 c2 r2 (e2 & He2 & Hq2)].
  constructor; try congruence; auto.
  exists (e1 ++ e2). split.
  - rewrite He2, He1. now rewrite app_assoc.
  - apply Forall_app. now split.
Qed.

Lemma grows_weaken (Q Q' : event -> Prop) (o o' : observer) :
  (forall e, Q e -> Q' e) -> grows Q o o' -> grows Q' o o'.
Proof.
  intros HQ [d t h c r (e & He & Hq)].
  constructor; auto. exists e. split; [exact He|].
  eapply Forall_impl; eauto.
Qed.

Lemma runs_ret (Q : event -> Prop) : runs Q (ret tt).
Proof. intros o _. exists o. split; [reflexivity | apply grows_refl]. Qed.

Lemma runs_seq (Q : event -> Prop) (m1 m2 : M unit) :
  runs Q m1 -> runs Q m2 -> runs Q (m1 ;;; m2).
Proof.
  intros H1 H2 o Ho.
  destruct (H1 o Ho) as (o1 & E1 & G1).
  assert (Ho1 : is_nullish (data o1) = false) by now rewrite (grows_data G1).
  destruct (H2 o1 Ho1) as (o2 & E2 & G2).
  exists o2. split.
  - unfold bind. now rewrite E1.
  - eapply grows_trans; eauto.
Qed.

Lemma runs_for_each (Q : event -> Prop) (A : Type) (body : A -> M unit) (xs : list A) :
  Forall (fun x => runs Q (body x)) xs -> runs Q (for_each body xs).
Proof.
  induction 1 as [|x xs Hx _ IH]; cbn.
  - apply runs_ret.
  - apply runs_seq; assumption.
Qed.

(* ------------------------------------------------------------------ *)
(** ** Emission                                                        *)
(* ------------------------------------------------------------------ *)

Lemma push_events_nil (o : observer) : push_events [] o = o.
Proof. destruct o. unfold push_events. cbn. now rewrite app_nil_r. Qed.

Lemma push_events_app (a b : list event) (o : observer) :
  push_events b (push_events a o) = push_events (a ++ b) o.
Proof. unfold push_events. cbn. now rewrite app_assoc. Qed.

Lemma emit_all_spec (evs : list event) (o : observer) :
  emit_all evs o = Ok tt (push_events evs o).
Proof.
  revert o. induction evs as [|e evs IH]; intros o.
  - cbn. now rewrite push_events_nil.
  - unfold emit_all in *. cbn. unfold bind, emit at 1.
    rewrite IH. f_equal. destruct e. apply (push_events_app [_] evs o).
Qed.

Lemma grows_push (Q : event -> Prop) (evs : list event) (o : observer) :
  Forall Q evs -> grows Q o (push_events evs o).
Proof. intros H. constructor; auto. now exists evs. Qed.

(** One call of [_emitWildcard] hands [wildcard_events] to the emitter,
    for the segments the path resolves to. *)
Lemma emitWildcard_spec (path : rawpath) (type : string) (v old to : value)
  (o o1 : observer) (ps : list part) :
  _makePathParts path o = Ok ps o1 ->
  _emitWildcard path type v old to o =
    Ok tt (push_events (wildcard_events (_eventsCache o1) ps type v old to) o1).
Proof.
  intros H. unfold _emitWildcard, bind. rewrite H, emit_all_spec.
  unfold emit, wildcard_events. cbn. f_equal.
  apply (push_events_app _ [_] o1).
Qed.

Lemma deeper_of_kind (type : string) (v old to : value) (pathParts : list part)
  (node : trie) :
  forall (path : rawpath) (depth : nat),
    Forall (of_kind type) (_emitWildcardDeeper node path pathParts depth type v old to).
Proof.
  induction node as [c e children IH] using trie_ind. intros path depth.
  cbn [_emitWildcardDeeper].
  apply Forall_app; split; [|apply Forall_app; split].
  - destruct (negb (e =? 0)%nat && (depth - 1 =? List.length pathParts)%nat);
      constructor; [|constructor].
    right. now exists (path_string path).
  - destruct (part_at_depth pathParts depth) as [p|]; [|constructor].
    induction IH as [|[k child] rest Hchild _ IHrest]; [constructor|].
    cbn in Hchild. destruct (part_eqb k p); [apply Hchild | exact IHrest].
  - induction IH as [|[k child] rest Hchild _ IHrest]; [constructor|].
    cbn in Hchild. destruct (part_eqb k (PStr "*")); [apply Hchild | exact IHrest].
Qed.

Lemma wildcard_events_of_kind (cache : trie) (ps : list part) (type : string)
  (v old to : value) :
  Forall (of_kind type) (wildcard_events cache ps type v old to).
Proof.
  unfold wildcard_events. apply Forall_app. split.
  - apply deeper_of_kind.
  - constructor; [now left | constructor].
Qed.

Lemma plain_cache_key (p : rawpath) : plain p = true -> cache_key p = p.
Proof. now destruct p. Qed.

Lemma fresh_parts_total (p : rawpath) (root : value) :
  plain p = true -> is_nullish root = false ->
  exists ps, fresh_parts p root = Some ps /\ (names_root p = true -> ps = []).
Proof.
  intros Hp Hroot. destruct p as [| |s|z]; try discriminate.
  - now exists [].
  - destruct s as [|c s]; [now exists []|].
    destruct (resolve_total root (Str.split (path_string (RStr (String c s)))) Hroot)
      as [ps Hps].
    exists ps. split; [exact Hps | discriminate].
Qed.

(** Resolving a path that is a string or [null] returns, keeps what the
    cache had, and leaves the path in the cache. *)
Lemma makePathParts_runs (path : rawpath) (o : observer) :
  plain path = true -> is_nullish (data o) = false ->
  exists ps o',
    _makePathParts path o = Ok ps o' /\
    grows (fun _ => False) o o' /\
    cache_get path (_pathCache o') = Some ps /\
    emitted o' = emitted o.
Proof.
  intros Hplain Hroot. unfold _makePathParts.
  pose proof (plain_cache_key _ Hplain) as Hkey.
  destruct (cache_get path (_pathCache o)) as [ps|] eqn:Hget.
  - exists ps, o. split; [reflexivity|].
    split; [apply grows_refl|]. now split.
  - destruct (fresh_parts_total path (data o) Hplain Hroot) as (ps & -> & Hnil).
    rewrite Hkey.
    exists ps. eexists. split; [reflexivity|]. cbn.
    split; [|split; [apply cache_get_set_same | reflexivity]].
    constructor; cbn; auto.
    + intros k ps0 Hk. rewrite cache_get_set_other; [exact Hk|].
      intros ->. congruence.
    + intros Hok k ps0 Hk. cbn.
      destruct (rawpath_eqb path k) eqn:E.
      * apply rawpath_eqb_eq in E. subst k. rewrite cache_get_set_same.
        intros [= <-]. now apply Hnil.
      * rewrite cache_get_set_other.
        -- now apply Hok.
        -- intros ->. now rewrite rawpath_eqb_refl in E.
    + exists []. split; [now rewrite app_nil_r | constructor].
Qed.

Lemma emitWildcard_runs (path : rawpath) (type : string) (v old to : value) :
  plain path = true -> runs (of_kind type) (_emitWildcard path type v old to).
Proof.
  intros Hkey o Hroot.
  destruct (makePathParts_runs path o Hkey Hroot) as (ps & o1 & Hrun & G & _ & _).
  rewrite (emitWildcard_spec _ type v old to _ _ _ Hrun).
  eexists. split; [reflexivity|].
  eapply grows_trans.
  - eapply grows_weaken; [|exact G]. intros e [].
  - apply grows_push, wildcard_events_of_kind.
Qed.

(* ------------------------------------------------------------------ *)
(** ** The diff engine                                                 *)
(* ------------------------------------------------------------------ *)

Lemma for_slots_indexed (body : string -> value -> M unit)
  (slots : list (option value)) :
  forall (i : nat) (o : observer),
    for_slots (fun j x => body (Str.of_nat j) x) i slots o =
    for_each (fun kv => body (fst kv) (snd kv)) (indexed i slots) o.
Proof.
  induction slots as [|[x|] rest IH]; intros i o; cbn.
  - reflexivity.
  - unfold bind. destruct (body (Str.of_nat i) x o); [apply IH | reflexivity].
  - apply IH.
Qed.

(** [_checkSet] is the recursion into the keys of the new value, then the
    test for the event of the path itself. *)
Lemma checkSet_unfold (path : rawpath) (data_ old : value) (o : observer) :
  _checkSet path data_ old o =
  (checkSet_keys path data_ old ;;;
   if negb (is_object data_ && is_object old) && negb (strict_eq data_ old)
   then _emitWildcard path "set" data_ old VUndefined
   else ret tt) o.
Proof.
  unfold checkSet_keys.
  destruct data_; try reflexivity.
  cbn [_checkSet own_entries]. unfold bind.
  now rewrite (for_slots_indexed
                 (fun k x => _checkSet (child_path path k) x (paired old k))).
Qed.

Lemma checkUnset_unfold (path : rawpath) (old data_ : value) (o : observer) :
  _checkUnset path old data_ o =
  (checkUnset_keys path old data_ ;;;
   if is_undefined data_
   then _emitWildcard path "unset" old VUndefined VUndefined
   else ret tt) o.
Proof.
  unfold checkUnset_keys.
  destruct old; try reflexivity.
  cbn [_checkUnset own_entries]. unfold bind.
  now rewrite (for_slots_indexed
                 (fun k x => _checkUnset (child_path path k) x (paired data_ k))).
Qed.

Lemma runs_ext (Q : event -> Prop) (m m' : M unit) :
  (forall o, m o = m' o) -> runs Q m' -> runs Q m.
Proof. intros E H o Ho. rewrite E. now apply H. Qed.

Lemma indexed_forall (P : value -> Prop) (slots : list (option value)) :
  Forall (slot_holds P) slots ->
  forall i, Forall (fun kv => P (snd kv)) (indexed i slots).
Proof.
  induction 1 as [|[x|] rest Hx _ IH]; intros i; cbn; auto.
Qed.

(** [_checkUnset] on a path that is a string or [null] returns, and
    emits events of kind [unset] only. *)
Lemma checkUnset_runs (old : value) :
  forall (path : rawpath) (data_ : value),
    plain path = true -> runs (of_kind "unset") (_checkUnset path old data_).
Proof.
  induction old using value_ind; intros path data_ Hkey;
    (eapply runs_ext; [intros o; apply checkUnset_unfold|]);
    (apply runs_seq;
     [| destruct (is_undefined data_);
        [now apply emitWildcard_runs | apply runs_ret]]);
    unfold checkUnset_keys; apply runs_for_each;
    try (cbn; constructor).
  - eapply Forall_impl; [|exact H]. intros kv Hkv. now apply Hkv.
  - cbn [own_entries].
    eapply Forall_impl;
      [| apply (indexed_forall
                  (fun x => forall k, runs (of_kind "unset")
                              (_checkUnset (child_path path k) x (paired data_ k))))].
    + intros kv Hkv. apply Hkv.
    + eapply Forall_impl; [|exact H].
      intros [x|] Hx; cbn in *; auto.
Qed.

(** [_checkSet] on a path that is a string or [null] returns, and emits
    events of kind [set] only. *)
Lemma checkSet_runs (data_ : value) :
  forall (path : rawpath) (old : value),
    plain path = true -> runs (of_kind "set") (_checkSet path data_ old).
Proof.
  induction data_ using value_ind; intros path old Hkey;
    (eapply runs_ext; [intros o; apply checkSet_unfold|]);
    (apply runs_seq;
     [| match goal with
        | |- runs _ (if ?c then _ else _) =>
            destruct c; [now apply emitWildcard_runs | apply runs_ret]
        end]);
    unfold checkSet_keys; apply runs_for_each;
    try (cbn; constructor).
  - eapply Forall_impl; [|exact H]. intros kv Hkv. now apply Hkv.
  - cbn [own_entries].
    eapply Forall_impl;
      [| apply (indexed_forall
                  (fun x => forall k, runs (of_kind "set")
                              (_checkSet (child_path path k) x (paired old k))))].
    + intros kv Hkv. apply Hkv.
    + eapply Forall_impl; [|exact H].
      intros [x|] Hx; cbn in *; auto.
Qed.

(* ------------------------------------------------------------------ *)
(** ** Writing at a position of the tree                               *)
(* ------------------------------------------------------------------ *)

Lemma get_prop_primitive (v : value) (k : string) :
  is_object v = false -> is_object (get_prop v k) = false.
Proof.
  destruct v as [| | b | q | s | props | elems]; cbn;
    try reflexivity; try discriminate.
  intros _. destruct (Str.array_index k) as [n|].
  - now destruct (String.get n s).
  - now destruct (k =? "length")%string.
Qed.



Lemma lookup_replace_same (k : string) (v : value) (props : list (string * value)) :
  Props.lookup k props <> None ->
  Props.lookup k (Props.replace k v props) = Some v.
Proof.
  induction props as [|[k' v'] rest IH]; cbn.
  - congruence.
  - destruct (k' =? k)%string eqn:E; cbn; rewrite E; auto.
Qed.




(* ------------------------------------------------------------------ *)
(** ** Indices of an array, as integers and as positions               *)
(* ------------------------------------------------------------------ *)

Lemma clamp_in_range (i len : nat) :
  (i < len)%nat -> Observer.clamp (Z.of_nat i) (Z.of_nat len) = Z.of_nat i.
Proof.
  intros H. unfold Observer.clamp.
  destruct (Z.ltb_spec (Z.of_nat i) 0); [lia|].
  destruct (Z.leb_spec (Z.of_nat len) (Z.of_nat i)); [lia | reflexivity].
Qed.

Lemma readZ_of_nat (i : nat) (elems : list (option value)) :
  ArrZ.read (Z.of_nat i) elems = Arr.read i elems.
Proof.
  unfold ArrZ.read. destruct (Z.ltb_spec (Z.of_nat i) 0); [lia|].
  now rewrite Nat2Z.id.
Qed.

Lemma deleteZ_of_nat (i : nat) (elems : list (option value)) :
  (i < List.length elems)%nat ->
  ArrZ.delete (Z.of_nat i) elems = Arr.delete i elems.
Proof.
  intros H. unfold ArrZ.delete, ArrZ.splice_start, ArrZ.length.
  destruct (Z.ltb_spec (Z.of_nat i) 0); [lia|].
  now rewrite Z.min_l, Nat2Z.id by lia.
Qed.

Lemma length_delete (i : nat) (elems : list (option value)) :
  (i < List.length elems)%nat ->
  List.length (Arr.delete i elems) = (List.length elems - 1)%nat.
Proof.
  intros H. unfold Arr.delete.
  rewrite length_app, length_firstn, length_skipn. lia.
Qed.



(* ------------------------------------------------------------------ *)
(** ** Events for a path that is resolved once and for all             *)
(* ------------------------------------------------------------------ *)

Lemma names_root_cache_key (p : rawpath) : names_root p = true -> cache_key p = p.
Proof. now destruct p. Qed.

Lemma makePathParts_resolved (p : rawpath) (pp : list part) (o : observer) :
  resolved p pp o ->
  exists o',
    _makePathParts p o = Ok pp o' /\
    cache_get p (_pathCache o') = Some pp /\
    data o' = data o /\ _eventsCache o' = _eventsCache o /\
    emitted o' = emitted o.
Proof.
  intros [Hhit | (Hroot & -> & Hmiss)].
  - exists o. now rewrite (makePathParts_hit _ _ _ Hhit).
  - unfold _makePathParts. rewrite Hmiss.
    replace (fresh_parts p (data o)) with (Some (@nil part)).
    + rewrite (names_root_cache_key _ Hroot).
      eexists. split; [reflexivity|]. cbn.
      now rewrite cache_get_set_same.
    + destruct p as [| |s|z]; try reflexivity; try discriminate.
      cbn in Hroot. apply String.eqb_eq in Hroot. now subst.
Qed.




(** What [locate] found, read off its definition. *)
Lemma locate_found (path p : rawpath) (parts : option (list part)) (node : value)
  (o o1 : observer) :
  locate path o = Ok (Found p parts node) o1 ->
  (names_root path = true /\ p = path /\ parts = None /\ o1 = o /\ node = data o) \/
  (names_root path = false /\ p = cache_key path /\
   exists ps, parts = Some ps /\
              _makePathParts p o = Ok ps o1 /\ walk (data o1) ps = Reached node).
Proof.
  unfold locate. destruct (names_root path) eqn:Hroot.
  - intros [= <- <- <- <-]. left. auto.
  - unfold bind.
    destruct (_makePathParts (cache_key path) o) as [ps o'|] eqn:Hrun; [|discriminate].
    destruct (walk (data o') ps) eqn:Hwalk; try discriminate.
    intros [= <- <- <- <-]. right. eauto 10.
Qed.

Lemma makePathParts_root (p : rawpath) (ps : list part) (o o1 : observer) :
  _makePathParts p o = Ok ps o1 ->
  data o1 = data o /\ _eventsCache o1 = _eventsCache o /\ emitted o1 = emitted o /\
  (cache_key p = p -> cache_get p (_pathCache o1) = Some ps) /\
  (cache_key p = p -> root_cache_ok o -> root_cache_ok o1).
Proof.
  unfold _makePathParts.
  destruct (cache_get p (_pathCache o)) as [hit|] eqn:Hget.
  - intros [= <- <-]. auto.
  - destruct (fresh_parts p (data o)) as [fresh|] eqn:Hfresh; [|discriminate].
    intros [= <- <-]. cbn. repeat split.
    + intros ->. apply cache_get_set_same.
    + intros Hkey Hok k ps0 Hk. rewrite Hkey. cbn.
      destruct (rawpath_eqb p k) eqn:E.
      * apply rawpath_eqb_eq in E. subst k. rewrite cache_get_set_same.
        intros [= <-].
        destruct p as [| |s|z]; try discriminate; [cbn in Hfresh; congruence|].
        cbn in Hk. apply String.eqb_eq in Hk. subst s. cbn in Hfresh. congruence.
      * rewrite cache_get_set_other.
        -- now apply Hok.
        -- intros ->. now rewrite rawpath_eqb_refl in E.
Qed.

(* ------------------------------------------------------------------ *)
(** ** The teardown of a value, call by call                          *)
(* ------------------------------------------------------------------ *)



















(* ------------------------------------------------------------------ *)
(** ** [remove] at an index of the array                               *)
(* ------------------------------------------------------------------ *)


Lemma checkUnset_keys_runs (path : rawpath) (old data_ : value) :
  runs (of_kind "unset") (checkUnset_keys path old data_).
Proof.
  unfold checkUnset_keys. apply runs_for_each, Forall_forall.
  intros kv _. now apply checkUnset_runs.
Qed.

(** The teardown of a value that disappears: events of kind [unset], the
    last of which is the [unset] of the value itself. *)
Lemma checkUnset_teardown (path : rawpath) (old : value) (o o2 : observer) :
  plain path = true -> is_nullish (data o) = false ->
  _checkUnset path old VUndefined o = Ok tt o2 ->
  exists before ps,
    emitted o2 = emitted o ++ before ++ [unset_event ps old] /\
    Forall (of_kind "unset") before.
Proof.
  intros Hkey Hnn. rewrite checkUnset_unfold. unfold bind. cbn [is_undefined].
  destruct (checkUnset_keys_runs path old VUndefined o Hnn) as (oa & -> & Ga).
  assert (Hnna : is_nullish (data oa) = false) by now rewrite (grows_data Ga).
  destruct (makePathParts_runs path oa Hkey Hnna) as (ps & ob & Hrun & _ & _ & Heb).
  rewrite (emitWildcard_spec _ "unset" old VUndefined VUndefined _ _ _ Hrun).
  intros [= <-]. cbn [emitted push_events]. rewrite Heb.
  destruct (grows_emitted Ga) as (evs & -> & Hevs).
  exists (evs ++ _emitWildcardDeeper (_eventsCache ob) (RStr "") ps 1 "unset"
                   old VUndefined VUndefined), ps.
  unfold wildcard_events, unset_event. rewrite <- !app_assoc. split; [reflexivity|].
  apply Forall_app. split; [exact Hevs | apply deeper_of_kind].
Qed.

(* ------------------------------------------------------------------ *)
(** ** The event of the path itself in [_checkSet]                     *)
(* ------------------------------------------------------------------ *)

(** C6, as amended.  [_checkSet(path, newValue, oldValue)] recurses into
    the keys of [newValue], which ends in a state [o1], and then emits the
    [set] event of [path] itself exactly when the two values are not both
    objects and are not identical ([===]).  A pair of objects never gets
    an event of its own, whatever the two contain; a pair of which one
    only is an object always gets one; a pair of values that are not
    objects gets one unless they are identical. *)
Theorem checkSet_own_event (path : rawpath) (data_ old : value) (o o1 : observer) :
  checkSet_keys path data_ old o = Ok tt o1 ->
  _checkSet path data_ old o =
    (if (is_object data_ && is_object old) || strict_eq data_ old
     then Ok tt o1
     else _emitWildcard path "set" data_ old VUndefined o1) /\
  (is_object data_ = true -> is_object old = true ->
   _checkSet path data_ old o = Ok tt o1) /\
  (is_object data_ <> is_object old ->
   _checkSet path data_ old o = _emitWildcard path "set" data_ old VUndefined o1).
Proof.
  intros Hkeys. rewrite checkSet_unfold. unfold bind. rewrite Hkeys.
  repeat split.
  - now destruct (is_object data_ && is_object old), (strict_eq data_ old).
  - now intros -> ->.
  - intros Hmixed.
    replace (strict_eq data_ old) with false by (now destruct data_, old).
    now destruct (is_object data_), (is_object old).
Qed.

(** When [{a:1}] replaces [{a:2}] at ['p'], the one event is the [set]
    of [p.a]. *)
Lemma checkSet_own_event_witness :
  let new := VObject [("a", VNum 1)] in
  let old := VObject [("a", VNum 2)] in
  let o := new_observer (VObject []) in
  let o1 := Observer (VObject []) [(RStr "p.a", [PStr "p"; PStr "a"])]
              (Trie 0 0 []) []
              [set_event [PStr "p"; PStr "a"] (VNum 1) (VNum 2)] in
  checkSet_keys (RStr "p") new old o = Ok tt o1 /\
  _checkSet (RStr "p") new old o = Ok tt o1.
Proof.
  intros new old o o1.
  assert (H : checkSet_keys (RStr "p") new old o = Ok tt o1) by reflexivity.
  split; [exact H|].
  exact (proj1 (proj2 (checkSet_own_event (RStr "p") new old o o1 H)) eq_refl eq_refl).
Defined.

(* ------------------------------------------------------------------ *)
(** ** What every method keeps of the path cache                       *)
(* ------------------------------------------------------------------ *)

Section Keeping.

Variable R : observer -> observer -> Prop.
Variable admissible : rawpath -> Prop.

Hypothesis R_refl : forall o, R o o.
Hypothesis R_trans : forall a b c, R a b -> R b c -> R a c.
Hypothesis R_cache : forall o o', _pathCache o' = _pathCache o -> R o o'.
Hypothesis R_resolve : forall p, admissible p -> keeps R (_makePathParts p).
Hypothesis admissible_str : forall s, admissible (RStr s).
Hypothesis admissible_null : admissible RNull.
Hypothesis admissible_undefined : admissible RUndefined.

Lemma keeps_pure (A : Type) (f : M A) :
  (forall o, _pathCache (final (f o)) = _pathCache o) -> keeps R f.
Proof. intros H o. apply R_cache, H. Qed.

Lemma keeps_ret (A : Type) (a : A) : keeps R (ret a).
Proof. now apply keeps_pure. Qed.

Lemma keeps_throw (A : Type) (e : error) : keeps R (@throw A e).
Proof. now apply keeps_pure. Qed.

Lemma keeps_bind (A B : Type) (m : M A) (k : A -> M B) :
  keeps R m -> (forall a, keeps R (k a)) -> keeps R (bind m k).
Proof.
  intros Hm Hk o. unfold bind. specialize (Hm o).
  destruct (m o) as [a o'|e o']; cbn in *; [|exact Hm].
  eapply R_trans; [exact Hm | apply Hk].
Qed.

Lemma keeps_state (A : Type) (f : observer -> M A) :
  (forall s, keeps R (f s)) -> keeps R (fun o => f o o).
Proof. intros H o. apply H. Qed.

Lemma keeps_for_each (A : Type) (body : A -> M unit) (xs : list A) :
  Forall (fun x => keeps R (body x)) xs -> keeps R (for_each body xs).
Proof.
  induction 1 as [|x xs Hx _ IH]; cbn; [apply keeps_ret|].
  apply keeps_bind; auto.
Qed.

Lemma keeps_for_all (A : Type) (body : A -> M unit) (xs : list A) :
  (forall x, keeps R (body x)) -> keeps R (for_each body xs).
Proof. intros H. apply keeps_for_each, Forall_forall. auto. Qed.

Lemma keeps_for_slots (A : Type) (body : nat -> A -> M unit)
  (slots : list (option A)) :
  Forall (fun e => match e with
                   | Some x => forall i, keeps R (body i x)
                   | None => True
                   end) slots ->
  forall i, keeps R (for_slots body i slots).
Proof.
  induction 1 as [|e slots He _ IH]; intros i; cbn; [apply keeps_ret|].
  destruct e as [x|]; [apply keeps_bind; auto | apply IH].
Qed.

Lemma keeps_store (keys : list string) (node : value) : keeps R (store keys node).
Proof.
  apply keeps_pure. intros o. unfold store.
  now destruct (update_at (data o) keys node).
Qed.

Lemma keeps_emitWildcard (p : rawpath) (type : string) (v old to : value) :
  admissible p -> keeps R (_emitWildcard p type v old to).
Proof.
  intros Hp. unfold _emitWildcard.
  apply keeps_bind; [now apply R_resolve|]. intros ps.
  apply keeps_bind; [|intros _; now apply keeps_pure].
  apply keeps_state. intros s. apply keeps_pure. intros o.
  now rewrite emit_all_spec.
Qed.

Lemma keeps_checkSet (data_ : value) :
  forall (path : rawpath) (old : value),
    admissible path -> keeps R (_checkSet path data_ old).
Proof.
  induction data_ using value_ind; intros path old Hp; cbn [_checkSet];
    (apply keeps_bind;
     [| intros _;
        match goal with
        | |- keeps _ (if ?c then _ else _) =>
            destruct c; [now apply keeps_emitWildcard | apply keeps_ret]
        end]);
    try apply keeps_ret.
  - apply keeps_for_each. eapply Forall_impl; [|exact H].
    intros kv Hkv. apply Hkv, admissible_str.
  - apply keeps_for_slots. eapply Forall_impl; [|exact H].
    intros [x|] Hx; cbn in *; [|exact I].
    intros i. apply Hx, admissible_str.
Qed.

Lemma keeps_checkUnset (old : value) :
  forall (path : rawpath) (data_ : value),
    admissible path -> keeps R (_checkUnset path old data_).
Proof.
  induction old using value_ind; intros path data_ Hp; cbn [_checkUnset];
    (apply keeps_bind;
     [| intros _; destruct (is_undefined data_);
        [now apply keeps_emitWildcard | apply keeps_ret]]);
    try apply keeps_ret.
  - apply keeps_for_each. eapply Forall_impl; [|exact H].
    intros kv Hkv. apply Hkv, admissible_str.
  - apply keeps_for_slots. eapply Forall_impl; [|exact H].
    intros [x|] Hx; cbn in *; [|exact I].
    intros i. apply Hx, admissible_str.
Qed.

Lemma keeps_apply (A : Type) (m : M A) : keeps R m -> forall o, R o (final (m o)).
Proof. intros H. exact H. Qed.

Ltac path_ok :=
  solve [ assumption | apply admissible_str | apply admissible_null
        | match goal with
          | |- admissible (Observer.element_path _ ?parts _) =>
              destruct parts; apply admissible_str
          end ].

Ltac keep :=
  repeat first
    [ apply keeps_ret
    | apply keeps_throw
    | apply keeps_store
    | apply R_refl
    | solve [apply R_cache; reflexivity]
    | solve [apply keeps_pure; intros ?; reflexivity]
    | apply keeps_emitWildcard; path_ok
    | apply keeps_checkSet; path_ok
    | apply keeps_checkUnset; path_ok
    | apply R_resolve; path_ok
    | apply keeps_for_all; intros ?
    | apply keeps_bind; [|intros ?]
    | match goal with
      | |- keeps _ (if ?c then _ else _) => destruct c
      | |- keeps _ (match ?x with _ => _ end) => destruct x
      | |- keeps _ (fun o => _) => let o' := fresh "o" in intros o'; cbv beta
      | |- R _ (final (if ?c then _ else _)) => destruct c
      | |- R _ (final (match ?x with _ => _ end)) => destruct x
      | |- R ?o (final (_ ?o)) => apply keeps_apply
      end ].

Lemma keeps_locate (path : rawpath) : keeps R (locate path).
Proof.
  unfold locate. destruct (names_root path); [now apply keeps_pure|].
  assert (admissible (cache_key path)) by (destruct path; cbn; auto).
  keep.
Qed.

Lemma admissible_or_empty (path : rawpath) :
  admissible path -> admissible (Observer.or_empty path).
Proof. destruct path; cbn; auto. Qed.

Lemma keeps_get (path : rawpath) :
  admissible path -> keeps R (Observer.get path).
Proof.
  intros Hp. apply admissible_or_empty in Hp. unfold Observer.get.
  destruct (Observer.or_empty path); keep.
Qed.

Lemma keeps_set (path : rawpath) (v : value) :
  admissible path -> keeps R (Observer.set path v).
Proof.
  intros Hp. unfold Observer.set.
  destruct (is_undefined v); keep.
Qed.

Lemma keeps_unset (path : rawpath) :
  admissible path -> keeps R (Observer.unset path).
Proof.
  intros Hp. apply admissible_or_empty in Hp.
  unfold Observer.unset, Observer.reset_root, Observer.unset_at.
  destruct (Observer.or_empty path); keep.
  eapply R_trans; [|now apply keeps_checkUnset].
  now apply R_cache.
Qed.

Lemma keeps_bind_ok (A B : Type) (m : M A) (k : A -> M B) :
  keeps R m ->
  (forall o a o', m o = Ok a o' -> R o' (final (k a o'))) ->
  keeps R (bind m k).
Proof.
  intros Hm Hk o. unfold bind. specialize (Hm o).
  destruct (m o) as [a o'|e o'] eqn:E; cbn in *; [|exact Hm].
  eapply R_trans; [exact Hm | eapply Hk, E].
Qed.

Lemma located_admissible (path p : rawpath) (parts : option (list part))
  (node : value) (o o' : observer) :
  locate path o = Ok (Found p parts node) o' -> admissible p.
Proof.
  intros H. destruct (locate_found _ _ _ _ _ _ H)
    as [(Hroot & -> & _) | (_ & -> & _)]; destruct path; cbn; auto; discriminate.
Qed.

Lemma keeps_insert (path : rawpath) (v : value) (index : Z) :
  keeps R (Observer.insert path v index).
Proof.
  unfold Observer.insert. apply keeps_bind_ok; [apply keeps_locate|].
  intros o [p parts node|] o' Hloc; [|keep].
  pose proof (located_admissible _ _ _ _ _ _ Hloc) as Hp.
  keep.
Qed.

Lemma keeps_move (path : rawpath) (from to : Z) :
  keeps R (Observer.move path from to).
Proof.
  unfold Observer.move. apply keeps_bind_ok; [apply keeps_locate|].
  intros o [p parts node|] o' Hloc; [|keep].
  pose proof (located_admissible _ _ _ _ _ _ Hloc) as Hp.
  keep.
Qed.

Lemma keeps_remove (path : rawpath) (index : Z) :
  keeps R (Observer.remove path index).
Proof.
  unfold Observer.remove. apply keeps_bind_ok; [apply keeps_locate|].
  intros o [p parts node|] o' Hloc; [|keep].
  pose proof (located_admissible _ _ _ _ _ _ Hloc) as Hp.
  keep.
Qed.

Lemma keeps_on (name : string) : keeps R (Observer.on name).
Proof. unfold Observer.on. keep. Qed.

Lemma keeps_patch_turn (pos : list string) (path : rawpath) (key : string)
  (current incoming : value) :
  keeps R (Observer.patch_scalar pos (child_path path key) key current incoming) /\
  keeps R (Observer.patch_replace pos (child_path path key) key current incoming).
Proof.
  unfold Observer.patch_scalar, Observer.patch_replace, child_path. split; keep.
Qed.

Lemma keeps_patch_add (pos : list string) (path : rawpath) (isArray : bool)
  (kv : string * value) :
  admissible path -> keeps R (Observer.patch_add pos path isArray kv).
Proof.
  intros Hp. unfold Observer.patch_add, child_path. destruct kv as [key v]. keep.
Qed.

Lemma keeps_patchNode (node : value) :
  forall (pos : list string) (path : rawpath) (data_ : value),
    admissible path -> keeps R (Observer._patchNode pos path node data_).
Proof.
  induction node using value_ind; intros pos path data_ Hp;
    cbn [Observer._patchNode];
    (apply keeps_bind;
     [| intros _; apply keeps_for_all; intros kv; now apply keeps_patch_add]);
    try apply keeps_ret.
  - apply keeps_for_each. eapply Forall_impl; [|exact H].
    intros kv Hkv. cbv zeta.
    destruct (is_undefined (get_prop data_ (fst kv))); [apply keeps_ret|].
    destruct (is_object (snd kv)); [|apply keeps_patch_turn].
    destruct (is_object (get_prop data_ (fst kv))); [|apply keeps_patch_turn].
    apply Hkv, admissible_str.
  - apply keeps_for_slots. eapply Forall_impl; [|exact H].
    intros [x|] Hx; cbn in *; [|exact I].
    intros i.
    destruct (is_undefined (get_prop data_ (Str.of_nat i))); [apply keeps_ret|].
    destruct (is_object x); [|apply keeps_patch_turn].
    destruct (is_object (get_prop data_ (Str.of_nat i))); [|apply keeps_patch_turn].
    apply Hx, admissible_str.
Qed.

Lemma keeps_patch (path : rawpath) (v : value) :
  admissible path -> keeps R (Observer.patch path v).
Proof.
  intros Hp. unfold Observer.patch.
  destruct (is_undefined v); keep; apply keeps_patchNode; path_ok.
Qed.

End Keeping.

(** A path keeps the segments it was resolved to: what [_makePathParts]
    stores is never stored again under a key that is already there. *)
Lemma makePathParts_kept (p : rawpath) :
  not_integer p -> keeps cache_kept (_makePathParts p).
Proof.
  intros Hp o k ps Hk. unfold _makePathParts. unfold not_integer in Hp. rewrite Hp.
  destruct (cache_get p (_pathCache o)) as [hit|] eqn:Hget; [exact Hk|].
  destruct (fresh_parts p (data o)) as [fresh|]; [|exact Hk].
  cbn [final with_cache _pathCache]. rewrite cache_get_set_other; [exact Hk|].
  intros ->. congruence.
Qed.

Lemma makePathParts_root_ok (p : rawpath) :
  keeps (fun o o' => root_cache_ok o -> root_cache_ok o') (_makePathParts p).
Proof.
  intros o Hok. unfold _makePathParts.
  destruct (cache_get p (_pathCache o)) as [hit|] eqn:Hget; [exact Hok|].
  destruct (fresh_parts p (data o)) as [fresh|] eqn:Hfresh; [|exact Hok].
  intros k ps Hk. cbn [final with_cache _pathCache].
  destruct (rawpath_eqb (cache_key p) k) eqn:E.
  - apply rawpath_eqb_eq in E. subst k. rewrite cache_get_set_same.
    intros [= <-]. apply cache_key_root in Hk.
    destruct p as [| |s|z]; try discriminate; [cbn in Hfresh; congruence|].
    cbn in Hk. apply String.eqb_eq in Hk. subst s. cbn in Hfresh. congruence.
  - rewrite cache_get_set_other.
    + now apply Hok.
    + intros <-. now rewrite rawpath_eqb_refl in E.
Qed.

(** X22.  What the cache does keep.  A call that hands [_makePathParts] no
    integer leaves in the cache every resolution that was there: a path
    resolved before the call is answered with the same segments after it,
    whatever the call did to the data. *)
Theorem cached_path_is_kept (c : call) (o : observer) :
  integer_free c -> cache_kept o (perform c o).
Proof.
  assert (Hrefl : forall s, cache_kept s s) by (intros s k ps H; exact H).
  assert (Htrans : forall a b d, cache_kept a b -> cache_kept b d -> cache_kept a d)
    by (intros a b d Hab Hbd k ps H; apply Hbd, Hab, H).
  assert (Hcache : forall s s', _pathCache s' = _pathCache s -> cache_kept s s')
    by (intros s s' E k ps H; now rewrite E).
  assert (Hstr : forall s, not_integer (RStr s)) by reflexivity.
  destruct c as [arg|p v|p v|arg|p v i|p from to|p i|name|]; cbn; intros Hc.
  - apply (keeps_get cache_kept not_integer); auto using makePathParts_kept; reflexivity.
  - apply (keeps_set cache_kept not_integer); auto using makePathParts_kept; reflexivity.
  - apply (keeps_patch cache_kept not_integer); auto using makePathParts_kept; reflexivity.
  - apply (keeps_unset cache_kept not_integer); auto using makePathParts_kept; reflexivity.
  - apply (keeps_insert cache_kept not_integer); auto using makePathParts_kept; reflexivity.
  - apply (keeps_move cache_kept not_integer); auto using makePathParts_kept; reflexivity.
  - apply (keeps_remove cache_kept not_integer); auto using makePathParts_kept; reflexivity.
  - apply (keeps_on cache_kept not_integer); auto using makePathParts_kept; reflexivity.
  - contradiction.
Qed.

Lemma cached_path_is_kept_witness :
  let c := CSet (RStr "b") (VObject []) in
  let o := final (Observer.get (RStr "b") (new_observer ab12)) in
  integer_free c /\ cache_kept o (perform c o).
Proof.
  intros c o.
  assert (H1 : integer_free c) by reflexivity.
  split; [exact H1|].
  exact (cached_path_is_kept c o H1).
Defined.

(** In every state an observer goes through, the cache answers the paths
    of the root with no segment. *)
Theorem reachable_root_cache_ok (o : observer) : reachable o -> root_cache_ok o.
Proof.
  set (R := fun s s' : observer => root_cache_ok s -> root_cache_ok s').
  assert (Hrefl : forall s, R s s) by (intros s H; exact H).
  assert (Htrans : forall a b d, R a b -> R b d -> R a d)
    by (intros a b d Hab Hbd H; apply Hbd, Hab, H).
  assert (Hcache : forall s s', _pathCache s' = _pathCache s -> R s s').
  { intros s s' E H k ps Hk. rewrite E. now apply H. }
  assert (Hres : forall p, True -> keeps R (_makePathParts p))
    by (intros p _; apply makePathParts_root_ok).
  induction 1 as [d | c o _ IH].
  - intros k ps _ H. discriminate H.
  - destruct c as [arg|p v|p v|arg|p v i|p from to|p i|name|]; cbn.
    + now apply (keeps_get R (fun _ => True)).
    + now apply (keeps_set R (fun _ => True)).
    + now apply (keeps_patch R (fun _ => True)).
    + now apply (keeps_unset R (fun _ => True)).
    + now apply (keeps_insert R (fun _ => True)).
    + now apply (keeps_move R (fun _ => True)).
    + now apply (keeps_remove R (fun _ => True)).
    + now apply (keeps_on R (fun _ => True)).
    + intros k ps _ H. discriminate H.
Qed.

(* ------------------------------------------------------------------ *)
(** ** Calls that change nothing                                       *)
(* ------------------------------------------------------------------ *)

(** Where the walk of [set] stops at [undefined], or ends in a parent
    that is not an object, the call returns with the data and the trace as
    they were. *)
Lemma set_unresolved_is_noop (path : rawpath) (v : value) (o o1 : observer)
  (parts : list part) :
  is_undefined v = false ->
  _makePathParts path o = Ok parts o1 ->
  (walk (data o1) (removelast parts) = Stopped \/
   exists node, walk (data o1) (removelast parts) = Reached node /\
                is_object node = false) ->
  exists o',
    Observer.set path v o = Ok tt o' /\ data o' = data o /\ emitted o' = emitted o.
Proof.
  intros Hv Hrun Hwalk. unfold Observer.set. rewrite Hv.
  destruct (Observer.is_empty path && negb (is_object v)); [now exists o|].
  unfold bind. rewrite Hrun.
  destruct (makePathParts_root _ _ _ _ Hrun) as (Hd & _ & He & _).
  exists o1. split; [|now split].
  destruct Hwalk as [-> | (node & -> & Hnode)]; [reflexivity|].
  now rewrite Hnode.
Qed.

(** Where the walk reads a property of [null], the call throws, with the
    data and the trace as they were. *)
Lemma set_walk_throws (path : rawpath) (v : value) (o o1 : observer)
  (parts : list part) :
  is_undefined v = false ->
  Observer.is_empty path && negb (is_object v) = false ->
  _makePathParts path o = Ok parts o1 ->
  walk (data o1) (removelast parts) = Threw ->
  Observer.set path v o = Err TypeError o1 /\
  data o1 = data o /\ emitted o1 = emitted o.
Proof.
  intros Hv Hguard Hrun Hwalk. unfold Observer.set. rewrite Hv, Hguard.
  unfold bind. rewrite Hrun, Hwalk.
  destruct (makePathParts_root _ _ _ _ Hrun) as (Hd & _ & He & _).
  auto.
Qed.

(** [unset()] and [unset('')] change nothing, whatever the root holds, as
    long as it has no key ['undefined']. *)
Lemma unset_root_is_noop (path : rawpath) (o : observer) :
  path = RUndefined \/ path = RStr "" ->
  root_cache_ok o ->
  is_nullish (data o) = false ->
  get_prop (data o) "undefined" = VUndefined ->
  exists o',
    Observer.unset path o = Ok tt o' /\ data o' = data o /\ emitted o' = emitted o.
Proof.
  intros Hpath Hok Hnn Hkey.
  assert (Hres : resolved (RStr "") [] o).
  { destruct (cache_get (RStr "") (_pathCache o)) as [ps|] eqn:E.
    - left. now rewrite E, (Hok (RStr "") ps eq_refl E).
    - right. auto. }
  destruct (makePathParts_resolved _ _ _ Hres) as (o1 & Hrun & _ & Hd & _ & He).
  exists o1. split; [|now split].
  unfold Observer.unset.
  replace (Observer.or_empty path) with (RStr "")
    by (now destruct Hpath as [-> | ->]).
  unfold Observer.unset_at, bind.
  rewrite Hrun. cbn. unfold deref. rewrite Hd, Hnn, Hkey. reflexivity.
Qed.

(** After [path = ''] the test [path === undefined] of [get] and of
    [unset] never holds: the reset of the root is not reached. *)
Lemma or_empty_defined (path : rawpath) : Observer.or_empty path <> RUndefined.
Proof. destruct path; discriminate. Qed.

Lemma unset_never_resets (path : rawpath) (o : observer) :
  Observer.unset path o = Observer.unset_at (Observer.or_empty path) o.
Proof.
  unfold Observer.unset.
  pose proof (or_empty_defined path) as H.
  now destruct (Observer.or_empty path).
Qed.

(* ------------------------------------------------------------------ *)
(** ** [move] and the move back                                        *)
(* ------------------------------------------------------------------ *)

Lemma insertZ_of_nat (n : nat) (v : value) (elems : list (option value)) :
  (n <= List.length elems)%nat ->
  ArrZ.insert (Z.of_nat n) v elems = Arr.insert n v elems.
Proof.
  intros H. unfold ArrZ.insert, ArrZ.splice_start, ArrZ.length.
  destruct (Z.ltb_spec (Z.of_nat n) 0); [lia|].
  now rewrite Z.min_l, Nat2Z.id by lia.
Qed.

Lemma length_insert (n : nat) (v : value) (elems : list (option value)) :
  List.length (Arr.insert n v elems) = S (List.length elems).
Proof.
  unfold Arr.insert. rewrite length_app. cbn.
  rewrite length_firstn, length_skipn. lia.
Qed.

Lemma firstn_exact (A : Type) (l1 l2 : list A) :
  firstn (List.length l1) (l1 ++ l2) = l1.
Proof. induction l1 as [|x l1 IH]; cbn; [now destruct l2 | now rewrite IH]. Qed.

Lemma skipn_exact (A : Type) (l1 l2 : list A) :
  skipn (List.length l1) (l1 ++ l2) = l2.
Proof. induction l1 as [|x l1 IH]; cbn; auto. Qed.

Lemma skipn_past (A : Type) (l1 l2 : list A) (x : A) :
  skipn (S (List.length l1)) (l1 ++ x :: l2) = l2.
Proof. induction l1 as [|y l1 IH]; cbn; auto. Qed.

Lemma delete_insert (n : nat) (v : value) (elems : list (option value)) :
  (n <= List.length elems)%nat -> Arr.delete n (Arr.insert n v elems) = elems.
Proof.
  intros H. unfold Arr.delete, Arr.insert.
  assert (Hn : List.length (firstn n elems) = n) by (rewrite length_firstn; lia).
  rewrite <- Hn at 1 4. rewrite firstn_exact, skipn_past.
  apply firstn_skipn.
Qed.

Lemma read_insert (n : nat) (v : value) (elems : list (option value)) :
  (n <= List.length elems)%nat -> Arr.read n (Arr.insert n v elems) = v.
Proof.
  intros H. unfold Arr.read, Arr.insert.
  rewrite nth_error_app2 by (rewrite length_firstn; lia).
  rewrite length_firstn. now replace (n - Nat.min n (List.length elems))%nat with 0%nat by lia.
Qed.

Lemma insert_delete (n : nat) (v : value) (elems : list (option value)) :
  nth_error elems n = Some (Some v) -> Arr.insert n v (Arr.delete n elems) = elems.
Proof.
  intros H. unfold Arr.insert, Arr.delete.
  destruct (nth_error_split elems n H) as (l1 & l2 & -> & <-).
  rewrite firstn_exact, skipn_past, firstn_exact, skipn_exact. reflexivity.
Qed.

(** What [move] does to an array at the root: the element at [from] sits
    at [to] afterwards, and the call returns. *)
Lemma move_root (path : rawpath) (elems : list (option value)) (from to : nat)
  (o : observer) :
  names_root path = true -> data o = VArray elems ->
  (from < List.length elems)%nat -> (to < List.length elems)%nat -> from <> to ->
  exists o1,
    Observer.move path (Z.of_nat from) (Z.of_nat to) o = Ok tt o1 /\
    data o1 = VArray (Arr.insert to (Arr.read from elems) (Arr.delete from elems)).
Proof.
  intros Hroot Hdata Hfrom Hto Hne.
  unfold Observer.move, bind, locate. rewrite Hroot, Hdata.
  change (ArrZ.length elems) with (Z.of_nat (List.length elems)).
  rewrite !clamp_in_range by assumption.
  replace (Z.of_nat from =? Z.of_nat to) with false
    by (symmetry; apply Z.eqb_neq; lia).
  rewrite readZ_of_nat, deleteZ_of_nat by assumption.
  rewrite insertZ_of_nat by (rewrite length_delete by assumption; lia).
  set (elems1 := Arr.insert to (Arr.read from elems) (Arr.delete from elems)).
  destruct (if Z.of_nat from <? Z.of_nat to
            then (Z.of_nat from + 1, Z.of_nat to + 1, -1)
            else (Z.of_nat to, Z.of_nat from, 1)) as [[since till] direction].
  cbn [located_keys store update_at].
  assert (Hkey : plain path = true) by (now destruct path).
  assert (Hruns : runs (of_kind "move")
            (for_each
               (fun i : Z =>
                  _emitWildcard path "move" (ArrZ.read (i + direction) elems1)
                    (of_int i) (of_int (i + direction)))
               (down_from till since) ;;;
             _emitWildcard path "move" (Arr.read from elems)
               (of_int (Z.of_nat from)) (of_int (Z.of_nat to)))).
  { apply runs_seq; [|now apply emitWildcard_runs].
    apply runs_for_each, Forall_forall. intros i _. now apply emitWildcard_runs. }
  destruct (Hruns (with_data (VArray elems1) o) eq_refl) as (o1 & Hrun & G).
  exists o1. split; [exact Hrun | exact (grows_data G)].
Qed.

(** C9.  The second move is the inverse of the first: for an array at
    the root, an element at [from] and an index [to] of the array,
    [move('', from, to)] and then [move('', to, from)] return and leave
    the array as it was; on ['a','b','c','d'] with 0 and 2 the data is
    ['a','b','c','d'] again. *)
Theorem move_back_restores (path : rawpath) (elems : list (option value))
  (from to : nat) (x : value) (o : observer) :
  names_root path = true -> data o = VArray elems ->
  nth_error elems from = Some (Some x) -> (to < List.length elems)%nat ->
  exists o1 o2,
    Observer.move path (Z.of_nat from) (Z.of_nat to) o = Ok tt o1 /\
    Observer.move path (Z.of_nat to) (Z.of_nat from) o1 = Ok tt o2 /\
    data o2 = data o.
Proof.
  intros Hroot Hdata Hx Hto.
  assert (Hfrom : (from < List.length elems)%nat) by (apply nth_error_Some; congruence).
  destruct (Nat.eq_dec from to) as [<- | Hne].
  - exists o, o.
    assert (Hsame : Observer.move path (Z.of_nat from) (Z.of_nat from) o = Ok tt o).
    { unfold Observer.move, bind, locate. rewrite Hroot, Hdata.
      now rewrite Z.eqb_refl. }
    auto.
  - destruct (move_root path elems from to o Hroot Hdata Hfrom Hto Hne)
      as (o1 & Hrun1 & Hd1).
    assert (Hread : Arr.read from elems = x) by (unfold Arr.read; now rewrite Hx).
    rewrite Hread in Hd1.
    set (elems1 := Arr.insert to x (Arr.delete from elems)) in *.
    assert (Hlen1 : List.length elems1 = List.length elems).
    { unfold elems1. rewrite length_insert, length_delete by assumption. lia. }
    assert (Hto1 : (to <= List.length (Arr.delete from elems))%nat)
      by (rewrite length_delete by assumption; lia).
    destruct (move_root path elems1 to from o1 Hroot Hd1) as (o2 & Hrun2 & Hd2);
      try lia; try congruence.
    exists o1, o2. split; [exact Hrun1|]. split; [exact Hrun2|].
    rewrite Hd2, Hdata. f_equal. unfold elems1.
    rewrite read_insert, delete_insert by assumption.
    now apply insert_delete.
Qed.

(** On ['a','b','c','d'], [move('', 0, 2)] and [move('', 2, 0)]. *)
Lemma move_back_restores_witness :
  names_root (RStr "") = true /\
  data (new_observer abcd) = abcd /\
  nth_error [str "a"; str "b"; str "c"; str "d"] 0 = Some (Some (VStr "a")) /\
  (2 < 4)%nat /\
  exists o1 o2,
    Observer.move (RStr "") 0 2 (new_observer abcd) = Ok tt o1 /\
    Observer.move (RStr "") 2 0 o1 = Ok tt o2 /\
    data o2 = abcd.
Proof.
  split; [reflexivity|]. split; [reflexivity|]. split; [reflexivity|].
  split; [lia|].
  apply (move_back_restores (RStr "") [str "a"; str "b"; str "c"; str "d"]
           0%nat 2%nat (VStr "a") (new_observer abcd));
    [reflexivity | reflexivity | reflexivity | cbn; lia].
Defined.

(* ------------------------------------------------------------------ *)
(** ** [unset] of the root, before arrays                              *)
(* ------------------------------------------------------------------ *)

Lemma legacy_push_nil (o : Legacy.observer) : legacy_push [] o = o.
Proof. destruct o. unfold legacy_push. cbn. now rewrite app_nil_r. Qed.

Lemma legacy_push_app (a b : list (string * list value)) (o : Legacy.observer) :
  legacy_push b (legacy_push a o) = legacy_push (a ++ b) o.
Proof. unfold legacy_push. cbn. now rewrite app_assoc. Qed.

Lemma legacy_loop_props (props : list (string * value)) (data_ : value) :
  (forall k, paired data_ k = VUndefined) ->
  Forall (fun kv => legacy_announces (snd kv)) props ->
  forall (path : string) (o : Legacy.observer),
    Legacy.for_each
      (fun kv => Legacy._checkUnset (Legacy.child_path path (fst kv)) (snd kv)
                   (paired data_ (fst kv)))
      props o =
    legacy_push
      (flat_map Legacy.unset_calls
         (flat_map (fun kv => Legacy.paths_under (Legacy.child_path path (fst kv)) (snd kv))
            props)) o.
Proof.
  intros Hd. induction 1 as [|kv props Hkv _ IH]; intros path o; cbn.
  - now rewrite legacy_push_nil.
  - rewrite Hd, Hkv, IH, legacy_push_app, flat_map_app. reflexivity.
Qed.

Lemma legacy_loop_slots (elems : list (option value)) (data_ : value) :
  (forall k, paired data_ k = VUndefined) ->
  Forall (slot_holds legacy_announces) elems ->
  forall (path : string) (i : nat) (o : Legacy.observer),
    Legacy.for_slots
      (fun j x => Legacy._checkUnset (Legacy.child_path path (Str.of_nat j)) x
                    (paired data_ (Str.of_nat j)))
      i elems o =
    legacy_push
      (flat_map Legacy.unset_calls
         ((fix slots (i : nat) (l : list (option value)) : list (string * value) :=
             match l with
             | [] => []
             | None :: rest => slots (S i) rest
             | Some x :: rest =>
                 Legacy.paths_under (Legacy.child_path path (Str.of_nat i)) x
                 ++ slots (S i) rest
             end) i elems)) o.
Proof.
  intros Hd. induction 1 as [|[x|] elems Hx _ IH]; intros path i o; cbn.
  - now rewrite legacy_push_nil.
  - cbn in Hx. rewrite Hd, Hx, IH, legacy_push_app, flat_map_app. reflexivity.
  - apply IH.
Qed.

Lemma legacy_emit_pair (path : string) (v : value) (o : Legacy.observer) :
  Legacy.emit "*:unset" [VStr path; v] (Legacy.emit (path ++ ":unset") [v] o) =
  legacy_push (Legacy.unset_calls (path, v)) o.
Proof.
  unfold Legacy.emit, legacy_push, Legacy.unset_calls. cbn.
  now rewrite <- app_assoc.
Qed.

Lemma legacy_teardown (v : value) : legacy_announces v.
Proof.
  induction v using value_ind; intros path o; cbn [Legacy._checkUnset is_undefined];
    cbn [Legacy.paths_under]; rewrite flat_map_app; cbn [flat_map];
    rewrite app_nil_r, <- legacy_push_app.
  1-5: now rewrite legacy_push_nil, legacy_emit_pair.
  - now rewrite legacy_emit_pair, (legacy_loop_props props VUndefined).
  - now rewrite legacy_emit_pair, (legacy_loop_slots elems VUndefined).
Qed.

(** X23.  On the earlier file the reset of the root does what is
    documented, for a root no key of which is a member of
    [Object.prototype] (the old root is compared with a new [{ }], in
    which such a key is not [undefined]): [unset()] and [unset('')]
    return, the root is an empty object afterwards, every path below
    the old root was announced (a node after the nodes below it, under
    [path + ':unset'] and under ['*:unset']), nothing else was emitted,
    and [get()] answers the empty object. *)
Theorem legacy_unset_resets_root (arg : option string) (o : Legacy.observer) :
  arg = None \/ arg = Some "" ->
  Forall (fun kv => inherited_by_object (fst kv) = false) (own_entries (Legacy.data o)) ->
  exists o',
    Legacy.unset arg o = Some o' /\
    Legacy.data o' = VObject [] /\
    Legacy.emitted o' =
      Legacy.emitted o
      ++ flat_map Legacy.unset_calls (Legacy.paths_below_root (Legacy.data o)) /\
    Legacy.get None o' = (Some (VObject []), o') /\
    (Legacy.data o = VObject [] -> Legacy.emitted o' = Legacy.emitted o).
Proof.
  intros Harg _.
  assert (Hempty : forall k, paired (VObject []) k = VUndefined) by reflexivity.
  set (o0 := Legacy.Observer (VObject []) (Legacy.pathCache o) (Legacy.emitted o)).
  assert (Hrun : Legacy.unset arg o =
                 Some (legacy_push
                         (flat_map Legacy.unset_calls
                            (Legacy.paths_below_root (Legacy.data o))) o0)).
  { unfold Legacy.unset.
    replace (match arg with Some p => p | None => "" end) with "" 
      by (now destruct Harg as [-> | ->]).
    cbn [String.eqb]. f_equal. fold o0. unfold Legacy.paths_below_root.
    destruct (Legacy.data o) as [| | b | q | s | props | elems];
      cbn [Legacy._checkUnset is_undefined Legacy.paths_under];
      rewrite ?removelast_last; try (cbn; now rewrite legacy_push_nil).
    - apply legacy_loop_props; [exact Hempty|].
      apply Forall_forall. intros kv _. apply legacy_teardown.
    - apply legacy_loop_slots; [exact Hempty|].
      apply Forall_forall. intros [x|] _; cbn; [apply legacy_teardown | exact I]. }
  eexists. split; [exact Hrun|]. cbn.
  split; [reflexivity|]. split; [reflexivity|]. split; [reflexivity|].
  intros ->. cbn. now rewrite app_nil_r.
Qed.

Lemma legacy_unset_resets_root_witness :
  let o := Legacy.Observer ab12 [] [] in
  (@None string = None \/ @None string = Some "") /\
  Forall (fun kv => inherited_by_object (fst kv) = false) (own_entries ab12) /\
  exists o',
    Legacy.unset None o = Some o' /\
    Legacy.data o' = VObject [] /\
    Legacy.emitted o' =
      [("a:unset", [VNum 1]); ("*:unset", [VStr "a"; VNum 1]);
       ("b:unset", [VNum 2]); ("*:unset", [VStr "b"; VNum 2])] /\
    Legacy.get None o' = (Some (VObject []), o').
Proof.
  intros o.
  assert (H1 : @None string = None \/ @None string = Some "") by (left; reflexivity).
  assert (H2 : Forall (fun kv => inherited_by_object (fst kv) = false) (own_entries ab12))
    by (repeat constructor).
  split; [exact H1|]. split; [exact H2|].
  destruct (legacy_unset_resets_root None o H1 H2) as (o' & E & D & Hev & G & _).
  exists o'. split; [exact E|]. split; [exact D|]. split; [|exact G].
  rewrite Hev. reflexivity.
Defined.

(* ------------------------------------------------------------------ *)
(** ** Numerals read back                                             *)
(* ------------------------------------------------------------------ *)

Lemma digits_prefix_numeral (d : Decimal.uint) :
  forall (acc : Z) (count : nat),
    Str.digits_prefix (NilEmpty.string_of_uint d) acc count =
    (uint_value d acc, (count + Decimal.nb_digits d)%nat).
Proof.
  induction d; intros acc count; cbn [NilEmpty.string_of_uint Str.digits_prefix uint_value Decimal.nb_digits];
    try (now rewrite Nat.add_0_r);
    change (Str.is_digit _) with true; cbv iota; rewrite IHd; f_equal; try lia;
    unfold Str.digit_val; cbn; f_equal; lia.
Qed.

Lemma uint_value_pos (d : Decimal.uint) :
  forall acc : positive, uint_value d (Z.pos acc) = Z.pos (Pos.of_uint_acc d acc).
Proof.
  induction d; intros acc; cbn [uint_value Pos.of_uint_acc]; try reflexivity;
    rewrite <- IHd; f_equal; lia.
Qed.

Lemma uint_value_zero (d : Decimal.uint) : uint_value d 0 = Z.of_N (Pos.of_uint d).
Proof.
  induction d; cbn [uint_value Pos.of_uint]; try reflexivity; try exact IHd;
    cbn [Z.mul Z.add]; now rewrite uint_value_pos.
Qed.



Lemma nb_digits_pos (d : Decimal.uint) : d <> Decimal.Nil -> exists n, Decimal.nb_digits d = S n.
Proof. destruct d; intros H; try contradiction; cbn; eauto. Qed.

Lemma unsigned_numeral (p : positive) :
  exists n, Str.digits_prefix (NilEmpty.string_of_uint (Pos.to_uint p)) 0 0 = (Z.pos p, S n).
Proof.
  rewrite digits_prefix_numeral, uint_value_zero, DecimalPos.Unsigned.of_to.
  destruct (nb_digits_pos (Pos.to_uint p) (Unsigned.to_uint_nonnil p)) as [n ->].
  now exists n.
Qed.

Lemma of_Z_pos (p : positive) :
  Str.of_Z (Z.pos p) = NilEmpty.string_of_uint (Pos.to_uint p).
Proof.
  unfold Str.of_Z. cbn [Z.to_int NilZero.string_of_int NilZero.string_of_uint].
  pose proof (Unsigned.to_uint_nonnil p). now destruct (Pos.to_uint p).
Qed.


(** The numeral of a natural number below 2^32 - 1 is an array index. *)
Lemma array_index_of_nat (n : nat) :
  (Z.of_nat n < 4294967295) -> Str.array_index (Str.of_nat n) = Some n.
Proof.
  intros H. unfold Str.array_index, Str.of_nat.
  destruct (Z.of_nat n) as [|p|p] eqn:E; try lia.
  - replace n with 0%nat by lia. reflexivity.
  - rewrite of_Z_pos. destruct (unsigned_numeral p) as [m ->].
    rewrite <- of_Z_pos, String.eqb_refl. 
    destruct (Z.ltb_spec (Z.pos p) 4294967295); [|lia].
    cbn [andb]. f_equal. lia.
Qed.

(* ------------------------------------------------------------------ *)
(** ** What every call leaves of the root and the subscriptions       *)
(* ------------------------------------------------------------------ *)

Lemma set_prop_object (node : value) (k : string) (v node' : value) :
  set_prop node k v = Some node' -> is_object node' = true.
Proof.
  destruct node; cbn; try discriminate.
  - now intros [= <-].
  - destruct (Str.array_index k); [now intros [= <-] | discriminate].
Qed.

Lemma update_at_object (keys : list string) (root node root' : value) :
  update_at root keys node = Some root' ->
  keys <> [] \/ is_object node = true -> is_object root' = true.
Proof.
  destruct keys as [|k rest]; cbn.
  - intros [= <-] [H|H]; [contradiction | exact H].
  - destruct (update_at (get_prop root k) rest node); [|discriminate].
    intros H _. eapply set_prop_object, H.
Qed.

Lemma app_one_nonnil (A : Type) (l : list A) (x : A) : l ++ [x] <> [].
Proof. now destruct l. Qed.

(* ------------------------------------------------------------------ *)
(** ** What the methods that write the data keep                       *)
(* ------------------------------------------------------------------ *)

(** A relation between the state before and the state after that holds
    across a change of the cache, across calls of the emitter and across
    a write that leaves an object at the root, holds across every method
    but [on] and [clear]. *)
Section Framing.

Variable R : observer -> observer -> Prop.

Hypothesis R_refl : forall o, R o o.
Hypothesis R_trans : forall a b c, R a b -> R b c -> R a c.
Hypothesis R_cache : forall o c, R o (with_cache c o).
Hypothesis R_push : forall o evs, R o (push_events evs o).
Hypothesis R_data : forall o d, is_object d = true -> R o (with_data d o).

Lemma frame_same (A : Type) (f : M A) :
  (forall o, final (f o) = o) -> keeps R f.
Proof. intros H o. rewrite H. apply R_refl. Qed.

Lemma frame_ret (A : Type) (a : A) : keeps R (ret a).
Proof. now apply frame_same. Qed.

Lemma frame_throw (A : Type) (e : error) : keeps R (@throw A e).
Proof. now apply frame_same. Qed.

Lemma frame_bind (A B : Type) (m : M A) (k : A -> M B) :
  keeps R m -> (forall a, keeps R (k a)) -> keeps R (bind m k).
Proof.
  intros Hm Hk o. unfold bind. specialize (Hm o).
  destruct (m o) as [a o'|e o']; cbn in *; [|exact Hm].
  eapply R_trans; [exact Hm | apply Hk].
Qed.

Lemma frame_for_each (A : Type) (body : A -> M unit) (xs : list A) :
  Forall (fun x => keeps R (body x)) xs -> keeps R (for_each body xs).
Proof.
  induction 1 as [|x xs Hx _ IH]; cbn; [apply frame_ret|].
  apply frame_bind; auto.
Qed.

Lemma frame_for_all (A : Type) (body : A -> M unit) (xs : list A) :
  (forall x, keeps R (body x)) -> keeps R (for_each body xs).
Proof. intros H. apply frame_for_each, Forall_forall. auto. Qed.

Lemma frame_for_slots (A : Type) (body : nat -> A -> M unit) (slots : list (option A)) :
  Forall (fun e => match e with
                   | Some x => forall i, keeps R (body i x)
                   | None => True
                   end) slots ->
  forall i, keeps R (for_slots body i slots).
Proof.
  induction 1 as [|e slots He _ IH]; intros i; cbn; [apply frame_ret|].
  destruct e as [x|]; [apply frame_bind; auto | apply IH].
Qed.

Lemma frame_store (keys : list string) (node : value) :
  keys <> [] \/ is_object node = true -> keeps R (store keys node).
Proof.
  intros H o. unfold store.
  destruct (update_at (data o) keys node) as [root'|] eqn:E; cbn; [|apply R_refl].
  apply R_data. eapply update_at_object; eauto.
Qed.

Lemma frame_resolve (p : rawpath) : keeps R (_makePathParts p).
Proof.
  intros o. unfold _makePathParts.
  destruct (cache_get p (_pathCache o)); [apply R_refl|].
  destruct (fresh_parts p (data o)); cbn; [apply R_cache | apply R_refl].
Qed.

Lemma frame_emit (name : string) (ps : list part) (v old to : value) :
  keeps R (emit name ps v old to).
Proof. intros o. apply (R_push o [Event name ps v old to]). Qed.

Lemma frame_emitWildcard (p : rawpath) (type : string) (v old to : value) :
  keeps R (_emitWildcard p type v old to).
Proof.
  unfold _emitWildcard.
  apply frame_bind; [apply frame_resolve|]. intros ps.
  apply frame_bind; [|intros _; apply frame_emit].
  intros o. rewrite emit_all_spec. apply R_push.
Qed.

Lemma frame_checkSet (data_ : value) :
  forall (path : rawpath) (old : value), keeps R (_checkSet path data_ old).
Proof.
  induction data_ using value_ind; intros path old; cbn [_checkSet];
    (apply frame_bind;
     [| intros _;
        match goal with
        | |- keeps _ (if ?c then _ else _) =>
            destruct c; [apply frame_emitWildcard | apply frame_ret]
        end]);
    try apply frame_ret.
  - apply frame_for_each. eapply Forall_impl; [|exact H].
    intros kv Hkv. apply Hkv.
  - apply frame_for_slots. eapply Forall_impl; [|exact H].
    intros [x|] Hx; cbn in *; [|exact I].
    intros i. apply Hx.
Qed.

Lemma frame_checkUnset (old : value) :
  forall (path : rawpath) (data_ : value), keeps R (_checkUnset path old data_).
Proof.
  induction old using value_ind; intros path data_; cbn [_checkUnset];
    (apply frame_bind;
     [| intros _; destruct (is_undefined data_);
        [apply frame_emitWildcard | apply frame_ret]]);
    try apply frame_ret.
  - apply frame_for_each. eapply Forall_impl; [|exact H].
    intros kv Hkv. apply Hkv.
  - apply frame_for_slots. eapply Forall_impl; [|exact H].
    intros [x|] Hx; cbn in *; [|exact I].
    intros i. apply Hx.
Qed.

Lemma frame_apply (A : Type) (m : M A) : keeps R m -> forall o, R o (final (m o)).
Proof. intros H. exact H. Qed.

Ltac framed :=
  repeat first
    [ apply frame_ret
    | apply frame_throw
    | apply R_refl
    | apply frame_store; solve [left; apply app_one_nonnil | right; reflexivity]
    | solve [apply frame_same; intros ?; reflexivity]
    | apply frame_emitWildcard
    | apply frame_checkSet
    | apply frame_checkUnset
    | apply frame_resolve
    | apply frame_for_all; intros ?
    | apply frame_bind; [|intros ?]
    | match goal with
      | |- keeps _ (if ?c then _ else _) => destruct c
      | |- keeps _ (match ?x with _ => _ end) => destruct x
      | |- keeps _ (fun o => _) => let o' := fresh "o" in intros o'; cbv beta
      | |- R _ (final (if ?c then _ else _)) => destruct c
      | |- R _ (final (match ?x with _ => _ end)) => destruct x
      | |- R ?o (final (_ ?o)) => apply frame_apply
      end ].

Lemma frame_get (path : rawpath) : keeps R (Observer.get path).
Proof. unfold Observer.get. destruct (Observer.or_empty path); framed. Qed.

Lemma frame_set (path : rawpath) (v : value) : keeps R (Observer.set path v).
Proof.
  unfold Observer.set.
  destruct (is_undefined v).
  - destruct (Observer.is_empty (RStr "") && negb (is_object (Observer.path_value path))) eqn:G;
      [apply frame_ret|].
    cbn in G. apply negb_false_iff in G.
    framed; now apply R_data.
  - destruct (Observer.is_empty path) eqn:E; cbn [andb];
      [destruct (is_object v) eqn:Hv; cbn [negb]; [|apply frame_ret] |];
      framed; now apply R_data.
Qed.

Lemma frame_unset (path : rawpath) : keeps R (Observer.unset path).
Proof.
  unfold Observer.unset, Observer.reset_root, Observer.unset_at.
  destruct (Observer.or_empty path); framed.
  eapply R_trans; [|apply frame_checkUnset]. now apply R_data.
Qed.

Lemma frame_insert (path : rawpath) (v : value) (index : Z) :
  keeps R (Observer.insert path v index).
Proof. unfold Observer.insert, locate. framed. Qed.

Lemma frame_move (path : rawpath) (from to : Z) :
  keeps R (Observer.move path from to).
Proof. unfold Observer.move, locate. framed. Qed.

Lemma frame_remove (path : rawpath) (index : Z) :
  keeps R (Observer.remove path index).
Proof. unfold Observer.remove, locate. framed. Qed.

Lemma frame_patch_add (pos : list string) (path : rawpath) (isArray : bool)
  (kv : string * value) :
  keeps R (Observer.patch_add pos path isArray kv).
Proof. unfold Observer.patch_add. destruct kv as [key v]. framed. Qed.

Lemma frame_patch_turn (pos : list string) (path : rawpath) (key : string)
  (current incoming : value) :
  keeps R (Observer.patch_scalar pos path key current incoming) /\
  keeps R (Observer.patch_replace pos path key current incoming).
Proof. unfold Observer.patch_scalar, Observer.patch_replace. split; framed. Qed.

Lemma frame_patchNode (node : value) :
  forall (pos : list string) (path : rawpath) (data_ : value),
    keeps R (Observer._patchNode pos path node data_).
Proof.
  induction node using value_ind; intros pos path data_;
    cbn [Observer._patchNode];
    (apply frame_bind;
     [| intros _; apply frame_for_all; intros kv; apply frame_patch_add]);
    try apply frame_ret.
  - apply frame_for_each. eapply Forall_impl; [|exact H].
    intros kv Hkv. cbv zeta.
    destruct (is_undefined (get_prop data_ (fst kv))); [apply frame_ret|].
    destruct (is_object (snd kv)); [|apply frame_patch_turn].
    destruct (is_object (get_prop data_ (fst kv))); [|apply frame_patch_turn].
    apply Hkv.
  - apply frame_for_slots. eapply Forall_impl; [|exact H].
    intros [x|] Hx; cbn in *; [|exact I].
    intros i.
    destruct (is_undefined (get_prop data_ (Str.of_nat i))); [apply frame_ret|].
    destruct (is_object x); [|apply frame_patch_turn].
    destruct (is_object (get_prop data_ (Str.of_nat i))); [|apply frame_patch_turn].
    apply Hx.
Qed.

Lemma frame_patch (path : rawpath) (v : value) : keeps R (Observer.patch path v).
Proof.
  unfold Observer.patch.
  destruct (is_undefined v); framed; apply frame_patchNode.
Qed.

(** Every call but [on] and [clear]. *)
Lemma frame_perform (c : call) (o : observer) :
  match c with COn _ | CClear => True | _ => R o (perform c o) end.
Proof.
  destruct c; cbn; try exact I.
  - apply frame_get.
  - apply frame_set.
  - apply frame_patch.
  - apply frame_unset.
  - apply frame_insert.
  - apply frame_move.
  - apply frame_remove.
Qed.

End Framing.

Lemma root_kept_refl (o : observer) : root_kept o o.
Proof. now left. Qed.

Lemma root_kept_trans (a b c : observer) :
  root_kept a b -> root_kept b c -> root_kept a c.
Proof.
  intros [H1|H1] [H2|H2]; unfold root_kept.
  - left. congruence.
  - now right.
  - right. congruence.
  - now right.
Qed.

(** Every call leaves the root as it was, or leaves an object or an
    array there. *)
Lemma root_perform (c : call) (o : observer) : root_kept o (perform c o).
Proof.
  pose proof (frame_perform root_kept root_kept_refl root_kept_trans
                (fun o _ => or_introl eq_refl) (fun o _ => or_introl eq_refl)
                (fun o d H => or_intror H) c o) as H.
  destruct c; try exact H.
  - (* on *)
    cbn. unfold Observer.on, bind.
    destruct (_makePathParts _ o) as [ps o'|e o'] eqn:E; cbn.
    + left. now destruct (makePathParts_root _ _ _ _ E).
    + left. unfold _makePathParts in E.
      destruct (cache_get _ (_pathCache o)); [discriminate|].
      destruct (fresh_parts _ (data o)); [discriminate|]. now injection E as <- <-.
  - (* clear *)
    now right.
Qed.

Lemma reachable_root_defined (o : observer) :
  reachable o -> is_nullish (data o) = false.
Proof.
  induction 1 as [d | c o _ IH].
  - unfold new_observer. cbn [data].
    destruct (falsy d) eqn:E; [reflexivity|].
    destruct d; try reflexivity; discriminate E.
  - destruct (root_perform c o) as [-> | H]; [exact IH|].
    now destruct (data (perform c o)).
Qed.

(** No call but [on] and [clear] changes the subscriptions. *)
Lemma subscriptions_perform (c : call) (o : observer) :
  match c with COn _ | CClear => True | _ => subscriptions_kept o (perform c o) end.
Proof.
  apply frame_perform; unfold subscriptions_kept.
  - auto.
  - intros a b c0 [H1 H2] [H3 H4]. split; congruence.
  - auto.
  - auto.
  - auto.
Qed.

(* ------------------------------------------------------------------ *)
(** ** [set] and the [get] after it                                   *)
(* ------------------------------------------------------------------ *)

Lemma split_dot_nonempty (s cur : string) : Str.split_dot s cur <> [].
Proof.
  revert cur. induction s as [|c s IH]; intros cur; cbn; [discriminate|].
  destruct (Ascii.eqb c "."); [discriminate | apply IH].
Qed.

Lemma resolve_nonempty (segments : list string) (node : value) (ps : list part) :
  segments <> [] -> resolve node segments = Some ps -> ps <> [].
Proof.
  destruct segments as [|s rest]; [contradiction|]. intros _. cbn.
  destruct (deref node _) as [node'|]; [|discriminate].
  destruct (is_nullish node'); [now intros [= <-]|].
  destruct (resolve node' rest); cbn; [now intros [= <-] | discriminate].
Qed.

Lemma fresh_parts_nonempty (p : rawpath) (root : value) (ps : list part) :
  fresh_parts p root = Some ps -> names_root (cache_key p) = false -> ps <> [].
Proof.
  destruct p as [| |s|z]; cbn; try discriminate.
  - destruct s; [discriminate|]. intros H _. revert H.
    apply resolve_nonempty, split_dot_nonempty.
  - intros H _. revert H. apply resolve_nonempty, split_dot_nonempty.
Qed.

Lemma makePathParts_segments_ok (p : rawpath) :
  keeps (fun o o' => cache_segments_ok o -> cache_segments_ok o') (_makePathParts p).
Proof.
  intros o Hok. unfold _makePathParts.
  destruct (cache_get p (_pathCache o)) as [hit|] eqn:Hget; [exact Hok|].
  destruct (fresh_parts p (data o)) as [fresh|] eqn:Hfresh; [|exact Hok].
  intros k ps. cbn [final with_cache _pathCache].
  destruct (rawpath_eqb (cache_key p) k) eqn:E.
  - apply rawpath_eqb_eq in E. subst k. rewrite cache_get_set_same.
    intros [= <-]. now apply fresh_parts_nonempty with (root := data o).
  - rewrite cache_get_set_other.
    + apply Hok.
    + intros <-. now rewrite rawpath_eqb_refl in E.
Qed.

Lemma reachable_cache_segments_ok (o : observer) :
  reachable o -> cache_segments_ok o.
Proof.
  set (R := fun s s' : observer => cache_segments_ok s -> cache_segments_ok s').
  assert (Hrefl : forall s, R s s) by (intros s H; exact H).
  assert (Htrans : forall a b d, R a b -> R b d -> R a d)
    by (intros a b d Hab Hbd H; apply Hbd, Hab, H).
  assert (Hcache : forall s s', _pathCache s' = _pathCache s -> R s s').
  { intros s s' E H k ps Hk. rewrite E in Hk. now apply H. }
  assert (Hres : forall p, True -> keeps R (_makePathParts p))
    by (intros p _; apply makePathParts_segments_ok).
  induction 1 as [d | c o _ IH].
  - intros k ps H. discriminate H.
  - destruct c as [arg|p v|p v|arg|p v i|p from to|p i|name|]; cbn.
    + now apply (keeps_get R (fun _ => True)).
    + now apply (keeps_set R (fun _ => True)).
    + now apply (keeps_patch R (fun _ => True)).
    + now apply (keeps_unset R (fun _ => True)).
    + now apply (keeps_insert R (fun _ => True)).
    + now apply (keeps_move R (fun _ => True)).
    + now apply (keeps_remove R (fun _ => True)).
    + now apply (keeps_on R (fun _ => True)).
    + intros k ps H. discriminate H.
Qed.

Lemma lookup_app_new (k : string) (v : value) (props : list (string * value)) :
  Props.lookup k props = None -> Props.lookup k (props ++ [(k, v)]) = Some v.
Proof.
  induction props as [|[k' v'] rest IH]; cbn.
  - now rewrite String.eqb_refl.
  - destruct (k' =? k)%string; [discriminate | exact IH].
Qed.

Lemma lookup_add_index (n : nat) (k : string) (v : value) (props : list (string * value)) :
  Props.lookup k props = None -> Props.lookup k (Props.add_index n k v props) = Some v.
Proof.
  induction props as [|[k' v'] rest IH]; cbn [Props.lookup Props.add_index].
  - now rewrite String.eqb_refl.
  - destruct (k' =? k)%string eqn:E; [discriminate|]. intros H.
    destruct (Str.array_index k') as [m|]; [destruct (m <? n)%nat|];
      cbn [Props.lookup].
    + rewrite E. auto.
    + now rewrite String.eqb_refl.
    + now rewrite String.eqb_refl.
Qed.

Lemma lookup_assign (k : string) (v : value) (props : list (string * value)) :
  Props.lookup k (Props.assign k v props) = Some v.
Proof.
  unfold Props.assign. destruct (Props.lookup k props) eqn:E.
  - apply lookup_replace_same. congruence.
  - destruct (Str.array_index k); [now apply lookup_add_index | now apply lookup_app_new].
Qed.




Lemma parts_last (parts : list part) :
  parts <> [] ->
  parts = removelast parts ++ [last parts (PStr "")] /\
  key_of (last_part parts) = part_string (last parts (PStr "")).
Proof.
  intros H. split; [now apply app_removelast_last|].
  destruct parts; [contradiction | reflexivity].
Qed.





(* ------------------------------------------------------------------ *)
(** ** [insert], [remove] and [move] on any array                     *)
(* ------------------------------------------------------------------ *)


Lemma insert_first (v : value) (elems : list (option value)) :
  Arr.insert 0 v elems = Some v :: elems.
Proof. reflexivity. Qed.



















(* ------------------------------------------------------------------ *)
(** ** [get] and [clear]                                              *)
(* ------------------------------------------------------------------ *)

Lemma get_walk_total (parts : list part) :
  forall root, is_nullish root = false -> exists v, get_walk root parts = Some v.
Proof.
  induction parts as [|p rest IH]; intros root Hroot; cbn.
  - now exists root.
  - unfold deref. rewrite Hroot.
    destruct (is_nullish (get_prop root (part_string p))) eqn:E; eauto.
Qed.

(** Resolving a path that is not [undefined] against a root that is
    neither [null] nor [undefined] returns, and changes the cache only. *)
Lemma makePathParts_defined (p : rawpath) (o : observer) :
  p <> RUndefined -> is_nullish (data o) = false ->
  exists ps o',
    _makePathParts p o = Ok ps o' /\ o' = with_cache (_pathCache o') o.
Proof.
  intros Hp Hroot. unfold _makePathParts.
  destruct (cache_get p (_pathCache o)) as [ps|].
  - exists ps, o. split; [reflexivity | now destruct o].
  - assert (H : exists ps, fresh_parts p (data o) = Some ps).
    { destruct p as [| |s|z]; [contradiction | now exists [] | |].
      - destruct s; [now exists []|]. now apply resolve_total.
      - now apply resolve_total. }
    destruct H as [ps ->]. exists ps. eexists. split; reflexivity.
Qed.

(** [get()], [get('')] and [get(null)] answer the root itself. *)
Lemma get_root (path : rawpath) (o : observer) :
  reachable o -> path = RUndefined \/ path = RStr "" \/ path = RNull ->
  exists o', Observer.get path o = Ok (data o) o' /\ data o' = data o.
Proof.
  intros Hreach Hpath.
  pose proof (reachable_root_cache_ok o Hreach) as Hok.
  set (p := Observer.or_empty path).
  assert (Hroot : names_root p = true) by (now destruct Hpath as [-> | [-> | ->]]).
  assert (Hres : resolved p [] o).
  { destruct (cache_get p (_pathCache o)) as [ps|] eqn:E.
    - left. now rewrite E, (Hok p ps Hroot E).
    - right. auto. }
  destruct (makePathParts_resolved _ _ _ Hres) as (o' & Hrun & _ & Hd & _).
  exists o'. split; [|exact Hd].
  unfold Observer.get. fold p.
  destruct p; try discriminate; unfold bind; rewrite Hrun; cbn; now rewrite Hd.
Qed.

Lemma split_nonempty (s : string) : exists seg rest, Str.split s = seg :: rest.
Proof.
  pose proof (split_dot_nonempty s "") as H. unfold Str.split.
  destruct (Str.split_dot s ""); [contradiction | eauto].
Qed.

(** X3.  [clear()] always returns: the root is an empty object, no
    handler is left, nothing is emitted; a [get] afterwards answers the
    empty object for a path of the root and [undefined] for every other
    path whose first piece is no member of [Object.prototype]. *)
Theorem clear_then_get (path : rawpath) (o : observer) :
  match path with
  | RStr s => inherited_by_object (hd "" (Str.split s)) = false
  | _ => True
  end ->
  exists o1 o2,
    Observer.clear o = Ok tt o1 /\
    data o1 = VObject [] /\ emitted o1 = emitted o /\ handlers o1 = [] /\
    Observer.get path o1 =
      Ok (if names_root (Observer.or_empty path) then VObject [] else VUndefined) o2.
Proof.
  intros _.
  assert (H : exists o2,
             Observer.get path (final (Observer.clear o)) =
             Ok (if names_root (Observer.or_empty path) then VObject [] else VUndefined) o2).
  { unfold Observer.get.
    destruct path as [| |s|z]; cbn [Observer.or_empty names_root].
    - eexists. reflexivity.
    - eexists. reflexivity.
    - destruct s as [|c s]; [eexists; reflexivity|].
      unfold bind, _makePathParts. cbn [_pathCache cache_get fresh_parts data path_string].
      destruct (split_nonempty (String c s)) as (seg & rest & ->). cbn.
      eexists. reflexivity.
    - unfold bind, _makePathParts. cbn [_pathCache cache_get fresh_parts data path_string].
      destruct (split_nonempty (Str.of_Z z)) as (seg & rest & ->). cbn.
      eexists. reflexivity. }
  destruct H as [o2 H]. exists (final (Observer.clear o)), o2.
  split; [reflexivity|]. do 3 (split; [reflexivity|]). exact H.
Qed.

Lemma clear_then_get_witness :
  let o := new_observer planets in
  inherited_by_object (hd "" (Str.split "earth.population")) = false /\
  exists o1 o2,
    Observer.clear o = Ok tt o1 /\
    data o1 = VObject [] /\ emitted o1 = emitted o /\ handlers o1 = [] /\
    Observer.get (RStr "earth.population") o1 = Ok VUndefined o2.
Proof.
  intros o.
  assert (H1 : inherited_by_object (hd "" (Str.split "earth.population")) = false)
    by reflexivity.
  split; [exact H1|].
  exact (clear_then_get (RStr "earth.population") o H1).
Defined.

(** X2.  [get()], [get('')] and [get(null)] answer the root. *)
Theorem get_without_path (o : observer) :
  reachable o ->
  (exists o1, Observer.get RUndefined o = Ok (data o) o1) /\
  (exists o2, Observer.get (RStr "") o = Ok (data o) o2) /\
  (exists o3, Observer.get RNull o = Ok (data o) o3).
Proof.
  intros Hreach. repeat split.
  - destruct (get_root RUndefined o Hreach) as (o' & H & _); eauto.
  - destruct (get_root (RStr "") o Hreach) as (o' & H & _); eauto.
  - destruct (get_root RNull o Hreach) as (o' & H & _); eauto.
Qed.

Lemma get_without_path_witness :
  reachable (new_observer planets) /\
  exists o1, Observer.get RUndefined (new_observer planets) = Ok planets o1.
Proof.
  split; [apply reachable_new|].
  exact (proj1 (get_without_path _ (reachable_new planets))).
Defined.

(* ------------------------------------------------------------------ *)
(** ** Dispatch to a subscription                                     *)
(* ------------------------------------------------------------------ *)

Lemma part_eqb_eq (a b : part) : part_eqb a b = true <-> a = b.
Proof.
  destruct a, b; cbn; split; intros H; try discriminate.
  - apply String.eqb_eq in H. now subst.
  - injection H as ->. apply String.eqb_refl.
  - apply Z.eqb_eq in H. now subst.
  - injection H as ->. apply Z.eqb_refl.
Qed.

Lemma part_eqb_refl (a : part) : part_eqb a a = true.
Proof. now apply part_eqb_eq. Qed.














(* ------------------------------------------------------------------ *)
(** ** [on] and the [destroy] of its handle                           *)
(* ------------------------------------------------------------------ *)

Lemma counted_children (c e : nat) (children : list (part * trie)) :
  counted (Trie c e children) <->
  Forall (fun kt => (0 < counter_of (snd kt))%nat /\ counted (snd kt)) children.
Proof.
  cbn. induction children as [|[k child] rest IH].
  - split; [constructor | trivial].
  - split.
    + intros (H1 & H2 & H3). constructor; [now split | now apply IH].
    + intros H. inversion H as [|x l [H1 H2] H3]; subst. cbn in *.
      split; [exact H1|]. split; [exact H2 | now apply IH].
Qed.

Lemma trie_get_in (k : part) (t : trie) (cs : list (part * trie)) :
  trie_get k cs = Some t -> exists k', In (k', t) cs.
Proof.
  induction cs as [|[k' t'] rest IH]; cbn; [discriminate|].
  destruct (part_eqb k' k).
  - intros [= <-]. eauto.
  - intros H. destruct (IH H) as [k0 H0]. eauto.
Qed.

(** [node.set(k, t)] and then [node.set(k, t')] for a key that was there
    with [t'] leaves the map as it was. *)
Lemma trie_put_back (k : part) (t t' : trie) (cs : list (part * trie)) :
  trie_get k cs = Some t' -> trie_put k t' (trie_put k t cs) = cs.
Proof.
  induction cs as [|[k0 t0] rest IH]; cbn; [discriminate|].
  destruct (part_eqb k0 k) eqn:E; cbn; rewrite E.
  - now intros [= ->].
  - intros H. now rewrite IH.
Qed.

(** [node.set(k, t)] and then [node.delete(k)] for a key that was not
    there leaves the map as it was. *)
Lemma trie_delete_put (k : part) (t : trie) (cs : list (part * trie)) :
  trie_get k cs = None -> trie_delete k (trie_put k t cs) = cs.
Proof.
  induction cs as [|[k0 t0] rest IH]; cbn.
  - now rewrite part_eqb_refl.
  - destruct (part_eqb k0 k) eqn:E; [discriminate|]. cbn. rewrite E.
    intros H. now rewrite IH.
Qed.

Lemma trie_get_put (k : part) (t : trie) (cs : list (part * trie)) :
  trie_get k (trie_put k t cs) = Some t.
Proof.
  induction cs as [|[k0 t0] rest IH]; cbn.
  - now rewrite part_eqb_refl.
  - destruct (part_eqb k0 k) eqn:E; cbn; rewrite E; auto.
Qed.

(** [on] changes the children of a node, not its counters. *)
Lemma trie_add_node (backwards : list part) (c e : nat) (cs : list (part * trie)) :
  exists cs',
    forall c' e', Observer.trie_add backwards (Trie c' e' cs) = Trie c' e' cs'.
Proof.
  destruct backwards as [|p rest].
  - exists cs. reflexivity.
  - cbn. eexists. intros c' e'. reflexivity.
Qed.

Lemma trie_drop_node (backwards : list part) (cs : list (part * trie)) (c e : nat)
  (t : trie) :
  trie_drop backwards (Trie c e cs) = inr t ->
  exists cs', t = Trie c e cs' /\
              forall c' e', trie_drop backwards (Trie c' e' cs) = inr (Trie c' e' cs').
Proof.
  destruct backwards as [|p rest]; cbn.
  - intros [= <-]. exists cs. auto.
  - destruct (trie_get p cs) as [[[|[|mc]] me mcs]|]; try discriminate.
    + intros [= <-]. eexists. split; reflexivity.
    + destruct rest as [|q rest'].
      * destruct me; [discriminate|].
        destruct (trie_drop [] _) as [err|map'] eqn:E; [discriminate|].
        intros [= <-]. eexists. split; reflexivity.
      * destruct (trie_drop (q :: rest') _) as [err|map'] eqn:E; [discriminate|].
        intros [= <-]. eexists. split; reflexivity.
Qed.

(** The loop of [evt.destroy] undoes the loop of [on]. *)
Lemma trie_drop_add (backwards : list part) :
  forall t, counted t -> trie_drop backwards (Observer.trie_add backwards t) = inr t.
Proof.
  induction backwards as [|p rest IH]; intros [c e children] Hc; [reflexivity|].
  cbn [Observer.trie_add].
  destruct (trie_get p children) as [[mc me mcs]|] eqn:Hget.
  - (* the node of the segment was there *)
    assert (Hchild : (0 < mc)%nat /\ counted (Trie mc me mcs)).
    { destruct (trie_get_in _ _ _ Hget) as [k' Hin].
      apply counted_children in Hc.
      exact (proj1 (Forall_forall _ _) Hc _ Hin). }
    destruct Hchild as [Hpos Hsub].
    destruct (trie_add_node rest mc me mcs) as [mcs' Hadd].
    rewrite (Hadd (S mc)). cbn [trie_drop]. rewrite trie_get_put.
    destruct mc as [|mc]; [lia|].
    specialize (IH (Trie (S mc) me mcs) Hsub). rewrite (Hadd (S mc) me) in IH.
    destruct (trie_drop_node _ _ _ _ _ IH) as (cs'' & Heq & Hdrop).
    injection Heq as <-.
    destruct rest as [|q rest'].
    + cbn [Nat.sub]. rewrite Nat.sub_0_r. rewrite Hdrop.
      now rewrite trie_put_back.
    + rewrite Hdrop. now rewrite trie_put_back.
  - (* the node of the segment is new *)
    destruct (trie_add_node rest 0 0 []) as [cs' Hadd].
    rewrite (Hadd 1%nat). cbn [trie_drop]. rewrite trie_get_put.
    now rewrite trie_delete_put.
Qed.

Lemma counted_put (k : part) (t : trie) (cs : list (part * trie)) :
  Forall (fun kt => (0 < counter_of (snd kt))%nat /\ counted (snd kt)) cs ->
  (0 < counter_of t)%nat -> counted t ->
  Forall (fun kt => (0 < counter_of (snd kt))%nat /\ counted (snd kt)) (trie_put k t cs).
Proof.
  intros Hcs Hpos Ht. induction Hcs as [|[k0 t0] rest H0 Hrest IH]; cbn [trie_put].
  - constructor; [split; assumption | constructor].
  - destruct (part_eqb k0 k); constructor; auto.
Qed.

(** [on] leaves no node without a subscription. *)
Lemma counted_add (backwards : list part) :
  forall t, counted t ->
            counted (Observer.trie_add backwards t) /\
            counter_of (Observer.trie_add backwards t) = counter_of t.
Proof.
  induction backwards as [|p rest IH]; intros [c e children] Hc; [now split|].
  cbn [Observer.trie_add]. split; [|reflexivity].
  apply counted_children. apply counted_children in Hc.
  set (map := match trie_get p children with
              | Some m => m
              | None => Trie 0 0 []
              end).
  assert (Hmap : counted map).
  { unfold map. destruct (trie_get p children) as [m|] eqn:Hget; [|exact I].
    destruct (trie_get_in _ _ _ Hget) as [k' Hin].
    exact (proj2 (proj1 (Forall_forall _ _) Hc _ Hin)). }
  destruct map as [mc me mcs].
  destruct (IH (Trie (S mc) (match rest with [] => S me | _ => me end) mcs) Hmap)
    as [H1 H2].
  apply counted_put; [exact Hc | rewrite H2; cbn; lia | exact H1].
Qed.

Lemma on_trie (name : string) (o o1 : observer) :
  Observer.on name o = Ok tt o1 ->
  exists pathParts,
    _eventsCache o1 = Observer.trie_add (rev pathParts) (_eventsCache o) /\
    handlers o1 = handlers o ++ [name].
Proof.
  unfold Observer.on, bind.
  destruct (_makePathParts _ o) as [ps o'|e o'] eqn:E; [|discriminate].
  intros [= <-]. exists ps. cbn.
  destruct (makePathParts_root _ _ _ _ E) as (_ & -> & _).
  split; [reflexivity|].
  unfold _makePathParts in E.
  destruct (cache_get _ (_pathCache o)); [now injection E as _ <-|].
  destruct (fresh_parts _ (data o)); [|discriminate]. now injection E as _ <-.
Qed.

Lemma on_final_trie (name : string) (o : observer) :
  counted (_eventsCache o) -> counted (_eventsCache (final (Observer.on name o))).
Proof.
  intros Hc. destruct (Observer.on name o) as [[] o1|e o1] eqn:E.
  - cbn [final]. destruct (on_trie _ _ _ E) as (ps & Ht & _). rewrite Ht.
    now apply counted_add.
  - unfold Observer.on, bind in E.
    destruct (_makePathParts _ o) as [ps o'|e' o'] eqn:E'; [discriminate|].
    injection E as _ <-. cbn.
    unfold _makePathParts in E'.
    destruct (cache_get _ (_pathCache o)); [discriminate|].
    destruct (fresh_parts _ (data o)); [discriminate|]. now injection E' as _ <-.
Qed.

(** In every state an observer goes through, every node of the trie
    carries at least one subscription. *)
Lemma reachable_counted (o : observer) : reachable o -> counted (_eventsCache o).
Proof.
  induction 1 as [d | c o _ IH]; [exact I|].
  pose proof (subscriptions_perform c o) as H.
  destruct c; cbn [perform] in *;
    try (rewrite (proj1 H); exact IH).
  - now apply on_final_trie.
  - exact IH.
Qed.

(** X18.  What [on] adds to [_eventsCache], the loop of [destroy] takes
    out again: after [on(name)] every node of the trie carries a
    positive counter, and the loop over the same segments returns with
    the trie as it was before. *)
Theorem destroy_undoes_on (name : string) (o o1 : observer) :
  reachable o ->
  Observer.on name o = Ok tt o1 ->
  exists pathParts : list part,
    _eventsCache o1 = Observer.trie_add (rev pathParts) (_eventsCache o) /\
    counted (_eventsCache o1) /\
    trie_drop (rev pathParts) (_eventsCache o1) = inr (_eventsCache o).
Proof.
  intros Hreach Hon. pose proof (reachable_counted o Hreach) as Hc.
  destruct (on_trie _ _ _ Hon) as (ps & Ht & _).
  exists ps. split; [exact Ht|]. rewrite Ht.
  split; [now apply counted_add | now apply trie_drop_add].
Qed.

Lemma destroy_undoes_on_witness :
  let o := new_observer planets in
  let o1 := final (Observer.on "*.population:set" o) in
  reachable o /\
  Observer.on "*.population:set" o = Ok tt o1 /\
  exists pathParts,
    _eventsCache o1 = Observer.trie_add (rev pathParts) (_eventsCache o) /\
    counted (_eventsCache o1) /\
    trie_drop (rev pathParts) (_eventsCache o1) = inr (_eventsCache o).
Proof.
  intros o o1.
  assert (H1 : reachable o) by apply reachable_new.
  assert (H2 : Observer.on "*.population:set" o = Ok tt o1) by reflexivity.
  repeat (split; [assumption|]).
  exact (destroy_undoes_on "*.population:set" o o1 H1 H2).
Defined.

(* ------------------------------------------------------------------ *)
(** ** Setting what is there                                          *)
(* ------------------------------------------------------------------ *)

Lemma settled_object (props : list (string * value)) :
  settled (VObject props) <->
  NoDup (map fst props) /\ Forall (fun kv => settled (snd kv)) props.
Proof.
  cbn. apply and_iff_compat_l.
  induction props as [|[k x] rest IH].
  - split; [constructor | trivial].
  - split.
    + intros [H1 H2]. constructor; [exact H1 | now apply IH].
    + intros H. inversion H; subst. split; [assumption | now apply IH].
Qed.

Lemma settled_array (elems : list (option value)) :
  settled (VArray elems) <->
  Z.of_nat (List.length elems) < 4294967295 /\ Forall (slot_holds settled) elems.
Proof.
  cbn. apply and_iff_compat_l.
  induction elems as [|[x|] rest IH].
  - split; [constructor | trivial].
  - split.
    + intros [H1 H2]. constructor; [exact H1 | now apply IH].
    + intros H. inversion H; subst. split; [assumption | now apply IH].
  - split.
    + intros H. constructor; [exact I | now apply IH].
    + intros H. inversion H; subst. now apply IH.
Qed.

Lemma lookup_unique (k : string) (x : value) (props : list (string * value)) :
  NoDup (map fst props) -> In (k, x) props -> Props.lookup k props = Some x.
Proof.
  induction props as [|[k' x'] rest IH]; cbn; [contradiction|].
  intros Hnd [H|H]; inversion Hnd as [|a l Hnotin Hrest]; subst.
  - injection H as -> ->. now rewrite String.eqb_refl.
  - destruct (String.eqb_spec k' k) as [->|Hne].
    + exfalso. apply Hnotin. now apply (in_map fst) in H.
    + now apply IH.
Qed.

Lemma indexed_in (k : string) (x : value) (elems : list (option value)) :
  forall i, In (k, x) (indexed i elems) ->
            exists j, k = Str.of_nat (i + j) /\ nth_error elems j = Some (Some x).
Proof.
  induction elems as [|[y|] rest IH]; intros i; cbn; [contradiction| |].
  - intros [H|H].
    + injection H as <- <-. exists 0%nat. now rewrite Nat.add_0_r.
    + destruct (IH _ H) as (j & -> & Hj). exists (S j). split; [f_equal; lia | exact Hj].
  - intros H. destruct (IH _ H) as (j & -> & Hj). exists (S j). split; [f_equal; lia | exact Hj].
Qed.

(** What [for (key in v)] pairs a key with is what [v[key]] reads. *)
Lemma own_entry_read (v : value) (k : string) (x : value) :
  settled v -> In (k, x) (own_entries v) -> paired v k = x /\ settled x.
Proof.
  destruct v as [| | b | q | s | props | elems]; try contradiction.
  - intros Hs Hin. apply settled_object in Hs. destruct Hs as [Hnd Hall].
    cbn in Hin. unfold paired. cbn. rewrite (lookup_unique _ _ _ Hnd Hin).
    split; [reflexivity|]. exact (proj1 (Forall_forall _ _) Hall _ Hin).
  - intros Hs Hin. apply settled_array in Hs. destruct Hs as [Hlen Hall].
    cbn in Hin. destruct (indexed_in _ _ _ _ Hin) as (j & -> & Hj).
    assert (Hlt : (j < List.length elems)%nat) by (apply nth_error_Some; congruence).
    unfold paired. cbn. rewrite array_index_of_nat by lia.
    unfold Arr.read. rewrite Hj. split; [reflexivity|].
    apply nth_error_In in Hj.
    exact (proj1 (Forall_forall _ _) Hall _ Hj).
Qed.

Lemma strict_eq_refl (v : value) : is_object v = false -> strict_eq v v = true.
Proof.
  destruct v; cbn; try discriminate; intros _; try reflexivity.
  - now destruct b.
  - apply Qeq_bool_iff. reflexivity.
  - apply String.eqb_refl.
Qed.

(** Comparing a value with itself emits nothing. *)
Lemma same_value_silent (v : value) :
  settled v ->
  forall path, plain path = true ->
    runs (fun _ => False) (_checkSet path v v) /\
    runs (fun _ => False) (_checkUnset path v v).
Proof.
  induction v as [| | b | q | s | props IH | elems IH] using value_ind;
    intros Hs path Hp; try contradiction.
  1-4: split;
       (eapply runs_ext; [intros o; first [apply checkSet_unfold | apply checkUnset_unfold]|]);
       (apply runs_seq; [unfold checkSet_keys, checkUnset_keys; cbn; apply runs_ret|]);
       cbn [is_object is_undefined andb negb];
       rewrite ?strict_eq_refl by reflexivity; apply runs_ret.
  - assert (Hkeys : forall kv, In kv (own_entries (VObject props)) ->
                      paired (VObject props) (fst kv) = snd kv /\
                      forall p, plain p = true ->
                        runs (fun _ => False) (_checkSet p (snd kv) (snd kv)) /\
                        runs (fun _ => False) (_checkUnset p (snd kv) (snd kv))).
    { intros [k x] Hin. destruct (own_entry_read _ _ _ Hs Hin) as [Hread Hx].
      split; [exact Hread|]. cbn in Hin.
      exact (proj1 (Forall_forall _ _) IH _ Hin Hx). }
    split;
      (eapply runs_ext; [intros o; first [apply checkSet_unfold | apply checkUnset_unfold]|]);
      (apply runs_seq; [| cbn; apply runs_ret]);
      unfold checkSet_keys, checkUnset_keys; apply runs_for_each, Forall_forall;
      intros kv Hin; destruct (Hkeys kv Hin) as [-> Hsub]; now apply Hsub.
  - assert (Hkeys : forall kv, In kv (own_entries (VArray elems)) ->
                      paired (VArray elems) (fst kv) = snd kv /\
                      forall p, plain p = true ->
                        runs (fun _ => False) (_checkSet p (snd kv) (snd kv)) /\
                        runs (fun _ => False) (_checkUnset p (snd kv) (snd kv))).
    { intros [k x] Hin. destruct (own_entry_read _ _ _ Hs Hin) as [Hread Hx].
      split; [exact Hread|]. cbn in Hin.
      destruct (indexed_in _ _ _ _ Hin) as (j & _ & Hj). apply nth_error_In in Hj.
      exact (proj1 (Forall_forall _ _) IH _ Hj Hx). }
    split;
      (eapply runs_ext; [intros o; first [apply checkSet_unfold | apply checkUnset_unfold]|]);
      (apply runs_seq; [| cbn; apply runs_ret]);
      unfold checkSet_keys, checkUnset_keys; apply runs_for_each, Forall_forall;
      intros kv Hin; destruct (Hkeys kv Hin) as [-> Hsub]; now apply Hsub.
Qed.

Lemma get_walk_reached (pre : list part) (l : part) (v : value) :
  forall root,
    get_walk root (pre ++ [l]) = Some v -> is_nullish v = false ->
    exists node, walk root pre = Reached node /\ get_prop node (part_string l) = v.
Proof.
  induction pre as [|p rest IH]; intros root; cbn; unfold deref.
  - destruct (is_nullish root); [discriminate|].
    destruct (is_nullish (get_prop root (part_string l))) eqn:E.
    + intros [= <-]. congruence.
    + intros [= <-] _. now exists root.
  - destruct (is_nullish root); [discriminate|].
    destruct (is_nullish (get_prop root (part_string p))) eqn:E.
    + intros [= <-] Hv. destruct rest; cbn in *; congruence.
    + replace (is_undefined (get_prop root (part_string p))) with false
        by (now destruct (get_prop root (part_string p))).
      apply IH.
Qed.

Lemma replace_same (k : string) (v : value) (props : list (string * value)) :
  Props.lookup k props = Some v -> Props.replace k v props = props.
Proof.
  induction props as [|[k' v'] rest IH]; cbn [Props.lookup Props.replace]; [reflexivity|].
  destruct (k' =? k)%string.
  - now intros [= ->].
  - intros H. now rewrite IH.
Qed.

Lemma arr_replace_same (n : nat) (v : value) (elems : list (option value)) :
  nth_error elems n = Some (Some v) -> Arr.replace n v elems = elems.
Proof.
  revert n. induction elems as [|e rest IH]; intros [|n]; cbn; try discriminate.
  - now intros [= ->].
  - intros H. now rewrite IH.
Qed.

(** Writing to a property the value it holds leaves the node as it
    is. *)
Lemma set_prop_same (node : value) (k : string) (v node' : value) :
  get_prop node k = v -> is_undefined v = false ->
  set_prop node k v = Some node' -> node' = node.
Proof.
  destruct node as [| | b | q | s | props | elems]; cbn; try discriminate.
  - destruct (Props.lookup k props) as [x|] eqn:E.
    + intros -> _ [= <-]. unfold Props.assign. rewrite E. now rewrite replace_same.
    + intros <-. discriminate.
  - destruct (Str.array_index k) as [n|]; [|discriminate].
    intros Hread Hv [= <-]. f_equal. unfold Arr.assign, Arr.read in *.
    destruct (nth_error elems n) as [[x|]|] eqn:E; subst; try discriminate.
    assert (Hn : (n < List.length elems)%nat) by (apply nth_error_Some; congruence).
    apply Nat.ltb_lt in Hn. rewrite Hn. now apply arr_replace_same.
Qed.

Lemma update_at_same (pre : list part) (k : string) (v : value) :
  forall root node root',
    walk root pre = Reached node -> get_prop node k = v -> is_undefined v = false ->
    update_at root (map part_string pre ++ [k]) v = Some root' -> root' = root.
Proof.
  induction pre as [|p rest IH]; intros root node root'; cbn.
  - intros [= <-]. apply set_prop_same.
  - unfold deref. destruct (is_nullish root); [discriminate|].
    destruct (is_undefined (get_prop root (part_string p))) eqn:Hu; [discriminate|].
    intros Hwalk Hget Hv.
    destruct (update_at (get_prop root (part_string p)) _ v) as [child'|] eqn:E;
      [|discriminate].
    rewrite (IH _ _ _ Hwalk Hget Hv E).
    now apply set_prop_same.
Qed.

Lemma walk_node_at (ps : list part) :
  forall root node, walk root ps = Reached node ->
                    node_at root (map part_string ps) = node.
Proof.
  unfold node_at.
  induction ps as [|p rest IH]; intros root node; cbn.
  - now intros [= <-].
  - unfold deref. destruct (is_nullish root); [discriminate|].
    destruct (is_undefined (get_prop root (part_string p))); [discriminate|].
    apply IH.
Qed.

Lemma with_data_same (o : observer) : with_data (data o) o = o.
Proof. now destruct o. Qed.

Lemma silent_run (m : M unit) (o o1 : observer) :
  runs (fun _ => False) m -> is_nullish (data o) = false -> m o = Ok tt o1 ->
  data o1 = data o /\ emitted o1 = emitted o.
Proof.
  intros H Ho E. destruct (H o Ho) as (o' & E' & G).
  rewrite E in E'. injection E' as <-.
  split; [exact (grows_data G)|].
  destruct (grows_emitted G) as ([|e evs] & He & Hf).
  - now rewrite app_nil_r in He.
  - inversion Hf; contradiction.
Qed.

Lemma settled_defined (v : value) : settled v -> is_undefined v = false.
Proof. now destruct v. Qed.

Lemma grows_silent (o o' : observer) :
  grows (fun _ => False) o o' -> emitted o' = emitted o.
Proof.
  intros G. destruct (grows_emitted G) as ([|e evs] & He & Hf).
  - now rewrite app_nil_r in He.
  - inversion Hf; contradiction.
Qed.

(** X5.  Setting at a path what [get] answers there, for a value as
    JSON gives it that is not [null], changes nothing and emits
    nothing. *)
Theorem set_same_value (s : string) (v : value) (o o0 o1 : observer) :
  reachable o ->
  Observer.get (RStr s) o = Ok v o0 ->
  settled v -> is_nullish v = false ->
  Observer.set (RStr s) v o = Ok tt o1 ->
  data o1 = data o /\ emitted o1 = emitted o.
Proof.
  intros Hreach Hget Hs Hnn Hset.
  pose proof (settled_defined v Hs) as Hv.
  pose proof (reachable_root_defined o Hreach) as Hroot.
  unfold Observer.get, bind in Hget. cbn [Observer.or_empty] in Hget.
  unfold Observer.set in Hset. rewrite Hv in Hset. cbv iota beta in Hset.
  destruct (Observer.is_empty (RStr s) && negb (is_object v)) eqn:Hguard.
  { injection Hset as <-. now split. }
  unfold bind at 1 in Hset.
  destruct (_makePathParts (RStr s) o) as [parts o'|] eqn:Hrun; [|discriminate].
  destruct (makePathParts_root _ _ _ _ Hrun) as (Hd & _ & He & Hc & Hok).
  specialize (Hc eq_refl).
  specialize (Hok eq_refl (reachable_root_cache_ok o Hreach)).
  destruct (get_walk (data o') parts) as [v'|] eqn:Hwalk; [|discriminate].
  injection Hget as -> <-.
  assert (Hroot' : is_nullish (data o') = false) by now rewrite Hd.
  rewrite <- Hd, <- He.
  destruct (walk (data o') (removelast parts)) as [node| |] eqn:Hparent;
    [|injection Hset as <-; now split|discriminate].
  destruct (negb (is_object node)) eqn:Hobj; [injection Hset as <-; now split|].
  set (key := key_of (last_part parts)) in *.
  set (old := if Observer.is_empty (RStr s) then data o' else get_prop node key) in *.
  set (write := if Observer.is_empty (RStr s)
                then (fun o2 => Ok tt (with_data v o2))
                else store (parent_keys parts ++ [key]) v) in *.
  set (grown := match (if Observer.is_empty (RStr s)
                       then None
                       else match node with
                            | VArray elems => Some (ArrZ.length elems)
                            | _ => None
                            end) with
                | Some n =>
                    fun o2 : observer =>
                      match node_at (data o2) (parent_keys parts) with
                      | VArray elems =>
                          for_each
                            (fun i : Z =>
                               _emitWildcard (array_path parts) "insert"
                                 (ArrZ.read i elems) (of_int i) VUndefined)
                            (up_to n (ArrZ.length elems)) o2
                      | _ => Ok tt o2
                      end
                | None => ret tt
                end) in *.
  assert (Hfacts : old = v /\
                   (forall r, write o' = r -> r = Ok tt o' \/ r = Err Unmodelled o') /\
                   (forall ob, data ob = data o' -> grown ob = Ok tt ob)).
  { unfold old, write, grown.
    destruct (Observer.is_empty (RStr s)) eqn:Hempty.
    - (* the path of the root *)
      assert (Hnil : parts = []) by (apply (Hok (RStr s)); [exact Hempty | exact Hc]).
      subst parts. cbn in Hwalk. injection Hwalk as <-.
      split; [reflexivity|]. split; [|reflexivity].
      intros r <-. left. now rewrite with_data_same.
    - assert (Hne : parts <> []).
      { pose proof (makePathParts_segments_ok (RStr s) o
                      (reachable_cache_segments_ok o Hreach)) as Hseg.
        rewrite Hrun in Hseg. apply (Hseg (RStr s)); [exact Hc | exact Hempty]. }
      destruct (parts_last parts Hne) as (Hsplit & Hkey). fold key in Hkey.
      rewrite Hsplit in Hwalk.
      destruct (get_walk_reached _ _ _ _ Hwalk Hnn) as (node0 & Hw0 & Hread).
      rewrite Hparent in Hw0. injection Hw0 as <-. rewrite <- Hkey in Hread.
      split; [exact Hread|]. split.
      + intros r <-. unfold store.
        destruct (update_at (data o') (parent_keys parts ++ [key]) v) as [root'|] eqn:Hupd;
          [left | now right].
        rewrite (update_at_same _ _ _ _ _ _ Hparent Hread Hv Hupd).
        now rewrite with_data_same.
      + intros ob Hob. pose proof (walk_node_at _ _ _ Hparent) as Hat.
        destruct node; try reflexivity.
        cbv beta. rewrite Hob. unfold parent_keys. rewrite Hat.
        unfold up_to. now rewrite Z.sub_diag. }
  destruct Hfacts as (Hold & Hwrite & Hgrown). rewrite Hold in Hset.
  unfold bind at 1 in Hset.
  match type of Hset with
  | match ?w with _ => _ end = _ => destruct w as [[] ow|e ow] eqn:Ew; [|discriminate]
  end.
  destruct (Hwrite _ Ew) as [[= ->]|[=]].
  destruct (same_value_silent v Hs (RStr s) eq_refl) as [H1 H2].
  destruct (H2 o' Hroot') as (oa & Ea & Ga).
  destruct (H1 oa) as (ob & Eb & Gb); [now rewrite (grows_data Ga)|].
  unfold bind in Hset. rewrite Ea, Eb in Hset.
  assert (Hlast : grown ob = Ok tt ob)
    by (apply Hgrown; now rewrite (grows_data Gb), (grows_data Ga)).
  assert (Hend : Ok tt ob = Ok tt o1) by (rewrite <- Hlast; exact Hset).
  clear Hset. injection Hend as <-.
  split.
  - now rewrite (grows_data Gb), (grows_data Ga).
  - now rewrite (grows_silent _ _ Gb), (grows_silent _ _ Ga).
Qed.

Lemma set_same_value_witness :
  let o := new_observer planets in
  let o1 := final (Observer.set (RStr "mars.population") (VNum 0) o) in
  reachable o /\
  Observer.get (RStr "mars.population") o = Ok (VNum 0) (final (Observer.get (RStr "mars.population") o)) /\
  settled (VNum 0) /\
  Observer.set (RStr "mars.population") (VNum 0) o = Ok tt o1 /\
  data o1 = data o /\ emitted o1 = emitted o.
Proof.
  intros o o1.
  assert (H1 : reachable o) by apply reachable_new.
  assert (H2 : Observer.get (RStr "mars.population") o
               = Ok (VNum 0) (final (Observer.get (RStr "mars.population") o)))
    by reflexivity.
  assert (H3 : settled (VNum 0)) by exact I.
  assert (H4 : Observer.set (RStr "mars.population") (VNum 0) o = Ok tt o1) by reflexivity.
  repeat (split; [assumption|]).
  exact (set_same_value "mars.population" (VNum 0) o _ o1 H1 H2 H3 eq_refl H4).
Defined.

(* ------------------------------------------------------------------ *)
(** ** What [set] and [unset] tell the handlers                       *)
(* ------------------------------------------------------------------ *)













Lemma walk_then_get (pre : list part) (l : part) :
  forall root node,
    walk root pre = Reached node -> is_nullish node = false ->
    get_walk root (pre ++ [l]) = Some (get_prop node (part_string l)).
Proof.
  induction pre as [|p rest IH]; intros root node; cbn; unfold deref.
  - intros [= <-] ->. now destruct (is_nullish (get_prop root (part_string l))).
  - destruct (is_nullish root); [discriminate|].
    destruct (is_undefined (get_prop root (part_string p))) eqn:Hu; [discriminate|].
    intros Hwalk Hnode.
    destruct (is_nullish (get_prop root (part_string p))) eqn:Hn.
    + (* the walk went through null: it threw, or ended in null *)
      destruct (get_prop root (part_string p)); try discriminate.
      destruct rest; cbn in Hwalk; [injection Hwalk as <-; discriminate|discriminate].
    + now apply IH.
Qed.










(* ------------------------------------------------------------------ *)
(** ** Array methods off an array, and small patches                  *)
(* ------------------------------------------------------------------ *)









Lemma get_walk_walk (ps : list part) (v : value) :
  forall root, get_walk root ps = Some v -> is_nullish v = false ->
               walk root ps = Reached v.
Proof.
  induction ps as [|p rest IH]; intros root; cbn; unfold deref.
  - now intros [= <-].
  - destruct (is_nullish root); [discriminate|].
    destruct (is_nullish (get_prop root (part_string p))) eqn:E.
    + intros [= <-]. congruence.
    + replace (is_undefined (get_prop root (part_string p))) with false
        by (now destruct (get_prop root (part_string p))).
      apply IH.
Qed.

(** Where [get] finds a value, [insert], [move] and [remove] find the
    same one, for a path that is a string or [null]. *)
Lemma get_then_locate (path : rawpath) (v : value) (o o0 : observer) :
  reachable o -> plain path = true ->
  Observer.get path o = Ok v o0 -> is_nullish v = false ->
  exists p parts o1, locate path o = Ok (Found p parts v) o1 /\
                     data o1 = data o /\ emitted o1 = emitted o.
Proof.
  intros Hreach Hplain Hget Hv.
  unfold locate. destruct (names_root path) eqn:Hroot.
  - destruct (get_root path o Hreach) as (o' & Hget' & _).
    { destruct path as [| |s|z]; try discriminate; auto.
      cbn in Hroot. apply String.eqb_eq in Hroot. subst. auto. }
    rewrite Hget in Hget'. injection Hget' as -> _.
    eexists. eexists. eexists. split; [reflexivity | auto].
  - rewrite (plain_cache_key _ Hplain).
    unfold Observer.get in Hget.
    replace (Observer.or_empty path) with path in Hget by (now destruct path).
    destruct path as [| |s|z]; try discriminate.
    unfold bind in *.
    destruct (_makePathParts (RStr s) o) as [parts o'|] eqn:Hrun; [|discriminate].
    destruct (get_walk (data o') parts) as [v'|] eqn:Hwalk; [|discriminate].
    injection Hget as -> _.
    rewrite (get_walk_walk _ _ _ Hwalk Hv).
    destruct (makePathParts_root _ _ _ _ Hrun) as (Hd & _ & He & _).
    eexists. eexists. eexists. split; [reflexivity | auto].
Qed.

(** X13.  Where the path leads to a value that is no array, [insert],
    [move] and [remove] return: no change, no event. *)
Theorem array_methods_need_array (path : rawpath) (v x : value) (index from to : Z)
  (o o0 : observer) :
  reachable o -> plain path = true ->
  Observer.get path o = Ok v o0 -> is_nullish v = false -> is_array v = false ->
  exists o1,
    Observer.insert path x index o = Ok tt o1 /\
    Observer.move path from to o = Ok tt o1 /\
    Observer.remove path index o = Ok tt o1 /\
    data o1 = data o /\ emitted o1 = emitted o.
Proof.
  intros Hreach Hplain Hget Hv Harr.
  destruct (get_then_locate path v o o0 Hreach Hplain Hget Hv)
    as (p & parts & o1 & Hloc & Hd & He).
  exists o1. unfold Observer.insert, Observer.move, Observer.remove, bind.
  rewrite Hloc. now destruct v.
Qed.

Lemma array_methods_need_array_witness :
  let o := new_observer planets in
  reachable o /\
  Observer.get (RStr "mars") o
    = Ok (VObject [("population", VNum 0)]) (final (Observer.get (RStr "mars") o)) /\
  exists o1,
    Observer.insert (RStr "mars") (VNum 1) 0 o = Ok tt o1 /\
    Observer.move (RStr "mars") 0 1 o = Ok tt o1 /\
    Observer.remove (RStr "mars") 0 o = Ok tt o1 /\
    data o1 = data o /\ emitted o1 = emitted o.
Proof.
  intros o.
  assert (H1 : reachable o) by apply reachable_new.
  assert (H2 : Observer.get (RStr "mars") o
               = Ok (VObject [("population", VNum 0)]) (final (Observer.get (RStr "mars") o)))
    by reflexivity.
  repeat (split; [assumption|]).
  exact (array_methods_need_array (RStr "mars") _ (VNum 1) 0 0 1 o _
           H1 eq_refl H2 eq_refl eq_refl).
Defined.

Lemma for_each_skip (A : Type) (body : A -> M unit) (xs : list A) (o : observer) :
  (forall x, In x xs -> body x o = Ok tt o) -> for_each body xs o = Ok tt o.
Proof.
  induction xs as [|x xs IH]; intros H; cbn; [reflexivity|].
  unfold bind. rewrite H by now left. apply IH. intros y Hy. apply H. now right.
Qed.

(** Patching a node with an object that has no key changes nothing. *)
Lemma patchNode_empty (node : value) (pos : list string) (path : rawpath) (o : observer) :
  Observer._patchNode pos path node (VObject []) o = Ok tt o.
Proof.
  destruct node as [| | b | q | s | props | elems]; cbn [Observer._patchNode];
    unfold bind; cbn [own_entries for_each is_array ret]; try reflexivity.
  - rewrite for_each_skip; [reflexivity|]. intros kv _. reflexivity.
  - rewrite (for_slots_indexed
               (fun key current =>
                  let incoming := get_prop (VObject []) key in
                  if is_undefined incoming then ret tt
                  else if is_object current
                       then if is_object incoming
                            then Observer._patchNode (pos ++ [key]) (child_path path key)
                                   current incoming
                            else Observer.patch_replace pos (child_path path key) key
                                   current incoming
                       else Observer.patch_scalar pos (child_path path key) key
                              current incoming)).
    rewrite for_each_skip; [reflexivity|]. intros kv _. reflexivity.
Qed.

(** X14.  [patch(path, {})] on an object or an array no key of which is
    a member of [Object.prototype] changes nothing and emits
    nothing. *)
Theorem patch_with_empty_object (s : string) (v : value) (o o0 : observer) :
  reachable o ->
  Observer.get (RStr s) o = Ok v o0 -> is_object v = true ->
  Forall (fun kv => inherited_by_object (fst kv) = false) (own_entries v) ->
  exists o1,
    Observer.patch (RStr s) (VObject []) o = Ok tt o1 /\
    data o1 = data o /\ emitted o1 = emitted o.
Proof.
  intros Hreach Hget Hv _.
  pose proof (reachable_root_cache_ok o Hreach) as Hok.
  assert (Hnn : is_nullish v = false) by now destruct v.
  unfold Observer.get, bind in Hget. cbn [Observer.or_empty] in Hget.
  destruct (_makePathParts (RStr s) o) as [parts o'|] eqn:Hrun; [|discriminate].
  destruct (get_walk (data o') parts) as [v'|] eqn:Hwalk; [|discriminate].
  injection Hget as -> _.
  destruct (makePathParts_root _ _ _ _ Hrun) as (Hd & _ & He & Hc & Hok').
  specialize (Hc eq_refl). specialize (Hok' eq_refl Hok).
  exists o'. split; [|now split].
  unfold Observer.patch. cbn [is_undefined is_object negb andb].
  rewrite andb_false_r. unfold bind. rewrite Hrun.
  destruct (Observer.is_empty (RStr s)) eqn:Hempty.
  - assert (Hnil : parts = []) by (apply (Hok' (RStr s)); [exact Hempty | exact Hc]).
    subst parts. cbn in Hwalk. injection Hwalk as <-. cbn [removelast walk].
    rewrite Hv. cbn [negb]. now rewrite patchNode_empty.
  - assert (Hne : parts <> []).
    { pose proof (makePathParts_segments_ok (RStr s) o
                    (reachable_cache_segments_ok o Hreach)) as Hseg.
      rewrite Hrun in Hseg. apply (Hseg (RStr s)); [exact Hc | exact Hempty]. }
    destruct (parts_last parts Hne) as (Hsplit & Hkey).
    rewrite Hsplit in Hwalk.
    destruct (get_walk_reached _ _ _ _ Hwalk Hnn) as (node & Hw & Hread).
    rewrite Hw.
    assert (Hnode : is_object node = true).
    { destruct (is_object node) eqn:E; [reflexivity|].
      pose proof (get_prop_primitive node (part_string (last parts (PStr ""))) E) as Hp.
      congruence. }
    rewrite Hnode. cbn [negb]. rewrite Hkey, Hread, Hv.
    now rewrite patchNode_empty.
Qed.

Lemma patch_with_empty_object_witness :
  let o := new_observer planets in
  let mars := VObject [("population", VNum 0)] in
  reachable o /\
  Observer.get (RStr "mars") o = Ok mars (final (Observer.get (RStr "mars") o)) /\
  Forall (fun kv => inherited_by_object (fst kv) = false) (own_entries mars) /\
  exists o1,
    Observer.patch (RStr "mars") (VObject []) o = Ok tt o1 /\
    data o1 = data o /\ emitted o1 = emitted o.
Proof.
  intros o mars.
  assert (H1 : reachable o) by apply reachable_new.
  assert (H2 : Observer.get (RStr "mars") o
               = Ok mars (final (Observer.get (RStr "mars") o))) by reflexivity.
  assert (H3 : Forall (fun kv => inherited_by_object (fst kv) = false) (own_entries mars))
    by (repeat constructor).
  repeat (split; [assumption|]).
  exact (patch_with_empty_object "mars" _ o _ H1 H2 eq_refl H3).
Defined.

Lemma bind_ret_tt (m : M unit) (o : observer) : (m ;;; ret tt) o = m o.
Proof. unfold bind, ret. now destruct (m o) as [[] o'|e o']. Qed.

(** Next to a value that is there, nothing that was not there is torn
    down. *)
Lemma checkUnset_absent (path : rawpath) (v : value) (o : observer) :
  is_undefined v = false -> _checkUnset path VUndefined v o = Ok tt o.
Proof. intros H. cbn [_checkUnset]. unfold bind, ret. now rewrite H. Qed.

Lemma checkSet_scalar (path : rawpath) (v old : value) (o : observer) :
  is_object v = false ->
  _checkSet path v old o =
  (if negb (strict_eq v old) then _emitWildcard path "set" v old VUndefined else ret tt) o.
Proof. intros H. destruct v; try discriminate; reflexivity. Qed.

(** X15.  Under a key that the parent object does not have,
    [patch(path, v)] is [set(path, v)]. *)
Theorem patch_new_property (s : string) (v : value) (props : list (string * value))
  (o o0 : observer) :
  reachable o -> s <> "" ->
  parent_of (RStr s) o = Some (VObject props) ->
  Observer.get (RStr s) o = Ok VUndefined o0 ->
  is_undefined v = false ->
  Observer.patch (RStr s) v o = Observer.set (RStr s) v o.
Proof.
  intros Hreach Hs Hparent Hget Hdef.
  unfold parent_of in Hparent. unfold Observer.get, bind in Hget.
  cbn [Observer.or_empty] in Hget.
  destruct (_makePathParts (RStr s) o) as [parts o'|] eqn:Hrun; [|discriminate].
  destruct (walk (data o') (removelast parts)) as [n| |] eqn:Hwalk; try discriminate.
  injection Hparent as ->.
  destruct (makePathParts_root _ _ _ _ Hrun) as (Hd & _ & He & Hc & _).
  specialize (Hc eq_refl).
  assert (Hempty : Observer.is_empty (RStr s) = false) by (cbn; now apply String.eqb_neq).
  assert (Hne : parts <> []).
  { pose proof (makePathParts_segments_ok (RStr s) o
                  (reachable_cache_segments_ok o Hreach)) as Hok.
    rewrite Hrun in Hok. apply (Hok (RStr s)); [exact Hc | exact Hempty]. }
  destruct (parts_last parts Hne) as (Hsplit & Hkey).
  assert (Hread : get_prop (VObject props) (key_of (last_part parts)) = VUndefined).
  { rewrite Hsplit in Hget. rewrite (walk_then_get _ _ _ _ Hwalk eq_refl) in Hget.
    rewrite <- Hkey in Hget. now injection Hget. }
  set (X := match store (parent_keys parts ++ [key_of (last_part parts)]) v o' with
            | Ok _ o2 => _checkSet (RStr s) v VUndefined o2
            | Err e o2 => Err e o2
            end).
  transitivity X; [|symmetry].
  - unfold Observer.patch. rewrite Hdef. cbv iota beta. rewrite Hempty. cbn [andb].
    unfold bind at 1. rewrite Hrun, Hwalk. cbn [is_object negb].
    rewrite Hread. cbn [is_object].
    destruct (is_object v) eqn:Hobj; [reflexivity|].
    replace (strict_eq VUndefined v) with false by (now destruct v).
    cbn [negb]. unfold bind, X.
    destruct (store (parent_keys parts ++ [key_of (last_part parts)]) v o')
      as [[] o2|e o2]; [|reflexivity].
    rewrite checkSet_scalar by exact Hobj.
    now replace (strict_eq v VUndefined) with false by (now destruct v).
  - unfold Observer.set. rewrite Hdef. cbv iota beta. rewrite Hempty. cbn [andb].
    unfold bind at 1. rewrite Hrun, Hwalk. cbn [is_object negb].
    rewrite Hread. unfold bind at 1. unfold X.
    destruct (store (parent_keys parts ++ [key_of (last_part parts)]) v o')
      as [[] o2|e o2]; [|reflexivity].
    unfold bind at 1. rewrite checkUnset_absent by exact Hdef.
    apply bind_ret_tt.
Qed.

Lemma patch_new_property_witness :
  let o := new_observer ab12 in
  reachable o /\
  "c" <> "" /\
  parent_of (RStr "c") o = Some ab12 /\
  Observer.get (RStr "c") o = Ok VUndefined (final (Observer.get (RStr "c") o)) /\
  Observer.patch (RStr "c") (VNum 3) o = Observer.set (RStr "c") (VNum 3) o.
Proof.
  intros o.
  assert (H1 : reachable o) by apply reachable_new.
  assert (H2 : "c" <> "") by discriminate.
  assert (H3 : parent_of (RStr "c") o = Some ab12) by reflexivity.
  assert (H4 : Observer.get (RStr "c") o
               = Ok VUndefined (final (Observer.get (RStr "c") o))) by reflexivity.
  repeat (split; [assumption|]).
  exact (patch_new_property "c" (VNum 3) _ o _ H1 H2 H3 H4 eq_refl).
Defined.

(** X20.  The root of an observer is never [undefined] or [null], and a
    call leaves the root it found or an object or array in its
    place. *)
Theorem root_stays_defined (c : call) (o : observer) :
  reachable o ->
  is_nullish (data (perform c o)) = false /\
  (data (perform c o) = data o \/ is_object (data (perform c o)) = true).
Proof.
  intros Hreach. split.
  - apply reachable_root_defined. now constructor.
  - apply root_perform.
Qed.

Lemma root_stays_defined_witness :
  let o := new_observer planets in
  let c := CUnset (RStr "earth") in
  reachable o /\
  is_nullish (data (perform c o)) = false /\
  (data (perform c o) = data o \/ is_object (data (perform c o)) = true).
Proof.
  intros o c.
  assert (H1 : reachable o) by apply reachable_new.
  split; [exact H1|].
  exact (root_stays_defined c o H1).
Defined.

(* ------------------------------------------------------------------ *)
(** ** Resolved paths, and [set] past the end of an array             *)
(* ------------------------------------------------------------------ *)

Lemma resolve_shaped (segments : list string) :
  forall node ps, resolve node segments = Some ps -> Forall2 resolves_to segments ps.
Proof.
  induction segments as [|s rest IH]; intros node ps; cbn.
  - intros [= <-]. constructor.
  - set (p := if is_array node
              then match Str.parseInt s with Some z => PNum z | None => PStr s end
              else PStr s).
    assert (Hp : resolves_to s p).
    { unfold p. destruct (is_array node); [|now left].
      destruct (Str.parseInt s) as [z|] eqn:E; [right; eauto | now left]. }
    destruct (deref node (part_string p)) as [node'|]; [|discriminate].
    destruct (is_nullish node').
    + intros [= <-]. constructor; [exact Hp|].
      clear. induction rest; constructor; [now left | assumption].
    + destruct (resolve node' rest) as [ps'|] eqn:E; [|discriminate].
      intros [= <-]. constructor; [exact Hp | eapply IH, E].
Qed.

Lemma makePathParts_shaped (p : rawpath) :
  keeps (fun o o' => cache_shaped o -> cache_shaped o') (_makePathParts p).
Proof.
  intros o Hok. unfold _makePathParts.
  destruct (cache_get p (_pathCache o)) as [hit|] eqn:Hget; [exact Hok|].
  destruct (fresh_parts p (data o)) as [fresh|] eqn:Hfresh; [|exact Hok].
  intros k ps. cbn [final with_cache _pathCache].
  destruct (rawpath_eqb (cache_key p) k) eqn:E.
  - apply rawpath_eqb_eq in E. subst k. rewrite cache_get_set_same.
    intros [= <-]. destruct p as [| |s|z]; cbn in *; try discriminate.
    + now injection Hfresh as <-.
    + destruct s as [|c s]; [now injection Hfresh as <-|].
      cbn [String.eqb]. eapply resolve_shaped, Hfresh.
    + destruct (String.eqb_spec (Str.of_Z z) ""); [now apply of_Z_nonempty in e|].
      eapply resolve_shaped, Hfresh.
  - rewrite cache_get_set_other.
    + apply Hok.
    + intros <-. now rewrite rawpath_eqb_refl in E.
Qed.

Lemma reachable_cache_shaped (o : observer) : reachable o -> cache_shaped o.
Proof.
  set (R := fun s s' : observer => cache_shaped s -> cache_shaped s').
  assert (Hrefl : forall s, R s s) by (intros s H; exact H).
  assert (Htrans : forall a b d, R a b -> R b d -> R a d)
    by (intros a b d Hab Hbd H; apply Hbd, Hab, H).
  assert (Hcache : forall s s', _pathCache s' = _pathCache s -> R s s').
  { intros s s' E H k ps Hk. rewrite E in Hk. now apply H. }
  assert (Hres : forall p, True -> keeps R (_makePathParts p))
    by (intros p _; apply makePathParts_shaped).
  induction 1 as [d | c o _ IH].
  - intros k ps H. discriminate H.
  - destruct c as [arg|p v|p v|arg|p v i|p from to|p i|name|]; cbn.
    + now apply (keeps_get R (fun _ => True)).
    + now apply (keeps_set R (fun _ => True)).
    + now apply (keeps_patch R (fun _ => True)).
    + now apply (keeps_unset R (fun _ => True)).
    + now apply (keeps_insert R (fun _ => True)).
    + now apply (keeps_move R (fun _ => True)).
    + now apply (keeps_remove R (fun _ => True)).
    + now apply (keeps_on R (fun _ => True)).
    + intros k ps H. discriminate H.
Qed.

(** What [_makePathParts] answers, from the cache or not. *)
Lemma resolved_shape (path : rawpath) (ps : list part) (o o' : observer) :
  reachable o ->
  _makePathParts path o = Ok ps o' ->
  if names_root path then ps = []
  else Forall2 resolves_to (Str.split (path_string path)) ps.
Proof.
  intros Hreach Hrun.
  pose proof (reachable_cache_shaped o Hreach) as Hshape.
  unfold _makePathParts in Hrun.
  destruct (cache_get path (_pathCache o)) as [hit|] eqn:Hget.
  - injection Hrun as <- _. specialize (Hshape _ _ Hget).
    destruct path as [| |s|z]; try contradiction; [exact Hshape|].
    cbn [names_root path_string]. exact Hshape.
  - destruct (fresh_parts path (data o)) as [fresh|] eqn:Hfresh; [|discriminate].
    injection Hrun as <- _.
    destruct path as [| |s|z]; cbn in *; try discriminate.
    + now injection Hfresh as <-.
    + destruct s as [|c s]; [now injection Hfresh as <-|].
      cbn [String.eqb]. eapply resolve_shaped, Hfresh.
    + eapply resolve_shaped, Hfresh.
Qed.








(** X21.  [_makePathParts] answers no segment for [''] and [null], and
    for every other path of at most 15 ASCII characters one segment for
    each piece of [path.split('.')]: the piece itself, or the integer
    that [parseInt] reads in it. *)
Theorem resolution_shape (path : rawpath) (ps : list part) (o o' : observer) :
  reachable o ->
  modest (path_string path) = true ->
  _makePathParts path o = Ok ps o' ->
  (names_root path = true -> ps = []) /\
  (names_root path = false ->
   Forall2 resolves_to (Str.split (path_string path)) ps /\
   List.length ps = List.length (Str.split (path_string path))).
Proof.
  intros Hreach _ Hrun. pose proof (resolved_shape _ _ _ _ Hreach Hrun) as H.
  destruct (names_root path); split; try discriminate; intros _; [exact H|].
  split; [exact H|]. symmetry. eapply Forall2_length, H.
Qed.

Lemma resolution_shape_witness :
  let o := new_observer (VObject [("list", abc)]) in
  let ps := [PStr "list"; PNum 2; PStr "length"] in
  reachable o /\
  modest "list.02.length" = true /\
  _makePathParts (RStr "list.02.length") o
    = Ok ps (final (_makePathParts (RStr "list.02.length") o)) /\
  (names_root (RStr "list.02.length") = true -> ps = []) /\
  (names_root (RStr "list.02.length") = false ->
   Forall2 resolves_to (Str.split "list.02.length") ps /\
   List.length ps = List.length (Str.split "list.02.length")).
Proof.
  intros o ps.
  assert (H1 : reachable o) by apply reachable_new.
  assert (H2 : modest "list.02.length" = true) by reflexivity.
  assert (H3 : _makePathParts (RStr "list.02.length") o
               = Ok ps (final (_makePathParts (RStr "list.02.length") o)))
    by reflexivity.
  repeat (split; [assumption|]).
  exact (resolution_shape (RStr "list.02.length") ps o _ H1 H2 H3).
Defined.










(* ------------------------------------------------------------------ *)
(** ** [patch] as a merge                                             *)
(* ------------------------------------------------------------------ *)

Lemma lookup_app (k : string) (a b : list (string * value)) :
  Props.lookup k (a ++ b) =
  match Props.lookup k a with Some x => Some x | None => Props.lookup k b end.
Proof.
  induction a as [|[k' v'] a IH]; cbn [app Props.lookup]; [reflexivity|].
  now destruct (k' =? k)%string.
Qed.

Lemma lookup_none_keys (k : string) (props : list (string * value)) :
  ~ In k (map fst props) -> Props.lookup k props = None.
Proof.
  induction props as [|[k' v'] rest IH]; cbn; [reflexivity|].
  intros H. destruct (String.eqb_spec k' k) as [->|Hne]; [exfalso; auto | apply IH; auto].
Qed.

Lemma lookup_some_keys (k : string) (x : value) (props : list (string * value)) :
  Props.lookup k props = Some x -> In k (map fst props).
Proof.
  induction props as [|[k' v'] rest IH]; cbn; [discriminate|].
  destruct (String.eqb_spec k' k) as [->|Hne]; [now left | right; auto].
Qed.

Lemma replace_app_new (k : string) (x : value) (a b : list (string * value)) :
  Props.lookup k a = None -> Props.replace k x (a ++ b) = a ++ Props.replace k x b.
Proof.
  induction a as [|[k' v'] a IH]; cbn [app Props.lookup Props.replace]; [reflexivity|].
  destruct (k' =? k)%string; [discriminate|]. intros H. now rewrite IH.
Qed.

Lemma patched_keys (dprops props : list (string * value)) :
  map fst (map (patched dprops) props) = map fst props.
Proof. rewrite map_map. reflexivity. Qed.

Lemma lookup_patched (dprops props : list (string * value)) (k : string) :
  Props.lookup k (map (patched dprops) props) =
  match Props.lookup k props with
  | Some cur => Some (match Props.lookup k dprops with Some x => x | None => cur end)
  | None => None
  end.
Proof.
  induction props as [|[k' v'] rest IH]; cbn [map Props.lookup patched fst snd];
    [reflexivity|].
  destruct (String.eqb_spec k' k) as [->|Hne]; [reflexivity | exact IH].
Qed.

(** A write to one key leaves what the other keys read. *)
Lemma lookup_replace_other (k k' : string) (x : value) (props : list (string * value)) :
  k <> k' -> Props.lookup k' (Props.replace k x props) = Props.lookup k' props.
Proof.
  intros Hne. induction props as [|[k0 v0] rest IH]; cbn [Props.lookup Props.replace];
    [reflexivity|].
  destruct (String.eqb_spec k0 k) as [->|H0]; cbn [Props.lookup].
  - now rewrite (proj2 (String.eqb_neq k k') Hne).
  - now rewrite IH.
Qed.

Lemma lookup_add_index_other (n : nat) (k k' : string) (x : value)
  (props : list (string * value)) :
  k <> k' -> Props.lookup k' (Props.add_index n k x props) = Props.lookup k' props.
Proof.
  intros Hne. induction props as [|[k0 v0] rest IH]; cbn [Props.lookup Props.add_index].
  - now rewrite (proj2 (String.eqb_neq k k') Hne).
  - destruct (Str.array_index k0) as [m|]; [destruct (m <? n)%nat|];
      cbn [Props.lookup]; rewrite ?IH, ?(proj2 (String.eqb_neq k k') Hne); reflexivity.
Qed.

Lemma lookup_assign_other (k k' : string) (x : value) (props : list (string * value)) :
  k <> k' -> Props.lookup k' (Props.assign k x props) = Props.lookup k' props.
Proof.
  intros Hne. unfold Props.assign.
  destruct (Props.lookup k props); [now apply lookup_replace_other|].
  destruct (Str.array_index k); [now apply lookup_add_index_other|].
  rewrite lookup_app. cbn [Props.lookup].
  rewrite (proj2 (String.eqb_neq k k') Hne). now destruct (Props.lookup k' props).
Qed.

(** [_checkSet] under a path of the class's own making returns and
    leaves the data. *)
Lemma checkSet_child_keeps (path : rawpath) (key : string) (v old : value) (o : observer) :
  is_nullish (data o) = false ->
  exists o', _checkSet (child_path path key) v old o = Ok tt o' /\ data o' = data o.
Proof.
  intros Ho.
  destruct (checkSet_runs v (child_path path key) old eq_refl o Ho) as (o' & E & G).
  exists o'. split; [exact E | apply (grows_data G)].
Qed.

(** The first loop of [_patchNode] at the root, over properties that are
    no objects: each one named by [dprops] takes its value. *)
Lemma patch_first_loop (path : rawpath) (dprops : list (string * value)) :
  Forall (fun kv => is_undefined (snd kv) = false) dprops ->
  forall (rest done : list (string * value)) (o : observer),
    data o = VObject (map (patched dprops) done ++ rest) ->
    NoDup (map fst (done ++ rest)) ->
    Forall (fun kv => is_object (snd kv) = false) rest ->
    exists o',
      for_each
        (fun kv =>
           let key := fst kv in
           let current := snd kv in
           let incoming := get_prop (VObject dprops) key in
           if is_undefined incoming then ret tt
           else if is_object current then
             if is_object incoming
             then Observer._patchNode ([] ++ [key]) (child_path path key) current incoming
             else Observer.patch_replace [] (child_path path key) key current incoming
           else Observer.patch_scalar [] (child_path path key) key current incoming)
        rest o = Ok tt o' /\
      data o' = VObject (map (patched dprops) (done ++ rest)).
Proof.
  intros Hdef. induction rest as [|[k cur] rest IH]; intros done o Hdata Hnd Hflat.
  - exists o. split; [reflexivity|]. now rewrite Hdata, !app_nil_r.
  - inversion Hflat as [|? ? Hcur Hrest]; subst. cbn [snd] in Hcur.
    assert (Hnew : Props.lookup k (map (patched dprops) done) = None).
    { apply lookup_none_keys. rewrite patched_keys.
      rewrite map_app in Hnd. cbn [map fst] in Hnd.
      apply NoDup_remove_2 in Hnd. intros Hin. apply Hnd, in_or_app. now left. }
    assert (Hnext : forall o1,
               data o1 = VObject (map (patched dprops) done ++ patched dprops (k, cur) :: rest) ->
               exists o',
                 for_each
                   (fun kv =>
                      let key := fst kv in
                      let current := snd kv in
                      let incoming := get_prop (VObject dprops) key in
                      if is_undefined incoming then ret tt
                      else if is_object current then
                        if is_object incoming
                        then Observer._patchNode ([] ++ [key]) (child_path path key)
                               current incoming
                        else Observer.patch_replace [] (child_path path key) key
                               current incoming
                      else Observer.patch_scalar [] (child_path path key) key
                             current incoming)
                   rest o1 = Ok tt o' /\
                 data o' = VObject (map (patched dprops) (done ++ (k, cur) :: rest))).
    { intros o1 H1.
      destruct (IH (done ++ [(k, cur)]) o1) as (o' & E & D).
      - rewrite map_app, <- app_assoc. exact H1.
      - now rewrite <- app_assoc.
      - exact Hrest.
      - exists o'. split; [exact E|]. now rewrite <- app_assoc in D. }
    cbn [for_each fst snd]. unfold bind at 1.
    cbn [get_prop]. unfold patched in Hnext at 2. cbn [fst snd] in Hnext.
    destruct (Props.lookup k dprops) as [x|] eqn:Hx.
    + assert (Hxd : is_undefined x = false).
      { rewrite Forall_forall in Hdef.
        assert (Hin : exists kv, In kv dprops /\ snd kv = x).
        { clear - Hx. induction dprops as [|[k' v'] ds IHd]; cbn in Hx; [discriminate|].
          destruct (k' =? k)%string.
          - injection Hx as <-. exists (k', v'). split; [now left | reflexivity].
          - destruct (IHd Hx) as (kv & Hin & E). exists kv. split; [now right | exact E]. }
        destruct Hin as (kv & Hin & <-). now apply Hdef. }
      rewrite Hxd, Hcur. unfold Observer.patch_scalar, bind at 1.
      unfold store. cbn [app update_at]. rewrite Hdata. cbn [get_prop set_prop].
      unfold Props.assign. rewrite lookup_app, Hnew. cbn [Props.lookup].
      rewrite String.eqb_refl. rewrite replace_app_new by exact Hnew.
      cbn [Props.replace]. rewrite String.eqb_refl.
      match goal with
      | |- context [_checkSet ?p ?a ?b ?st] =>
          destruct (checkSet_child_keeps path k a b st) as (o2 & E2 & D2);
            [reflexivity|]
      end.
      rewrite E2. apply Hnext. rewrite D2. reflexivity.
    + cbn [is_undefined ret]. apply Hnext. exact Hdata.
Qed.

(** The second loop of [_patchNode] at the root object: each key of the
    patch that the object does not have is added. *)
Lemma patch_second_loop (path : rawpath) (m1 : list (string * value)) :
  forall (rest done m : list (string * value)) (o : observer),
    data o = VObject m ->
    (forall k, Props.lookup k m =
               match Props.lookup k m1 with
               | Some y => Some y
               | None => Props.lookup k done
               end) ->
    exists o' m',
      for_each (Observer.patch_add [] path false) rest o = Ok tt o' /\
      data o' = VObject m' /\
      forall k, Props.lookup k m' =
                match Props.lookup k m1 with
                | Some y => Some y
                | None => Props.lookup k (done ++ rest)
                end.
Proof.
  induction rest as [|[k x] rest IH]; intros done m o Hdata Hinv.
  - exists o, m. split; [reflexivity|]. split; [exact Hdata|]. now rewrite app_nil_r.
  - assert (Hnext : forall o1 m2,
               data o1 = VObject m2 ->
               (forall k', Props.lookup k' m2 =
                           match Props.lookup k' m1 with
                           | Some y => Some y
                           | None => Props.lookup k' (done ++ [(k, x)])
                           end) ->
               exists o' m',
                 for_each (Observer.patch_add [] path false) rest o1 = Ok tt o' /\
                 data o' = VObject m' /\
                 forall k', Props.lookup k' m' =
                            match Props.lookup k' m1 with
                            | Some y => Some y
                            | None => Props.lookup k' (done ++ (k, x) :: rest)
                            end).
    { intros o1 m2 H1 H2. destruct (IH (done ++ [(k, x)]) m2 o1 H1 H2) as (o' & m' & E & D & L).
      exists o', m'. split; [exact E|]. split; [exact D|].
      intros k'. rewrite L, <- app_assoc. reflexivity. }
    cbn [for_each]. unfold bind at 1. unfold Observer.patch_add at 1.
    unfold node_at. cbn [fold_left]. rewrite Hdata. cbn [has_own].
    destruct (Props.lookup k m) as [y|] eqn:Hk.
    + apply (Hnext o m Hdata). intros k'. rewrite Hinv, lookup_app. cbn [Props.lookup].
      destruct (Props.lookup k' m1) as [y1|] eqn:H1; [reflexivity|].
      destruct (Props.lookup k' done) as [y2|] eqn:H2; [reflexivity|].
      destruct (String.eqb_spec k k') as [->|Hne]; [|reflexivity].
      rewrite Hinv, H1, H2 in Hk. discriminate.
    + unfold bind at 1. unfold bind at 1. unfold store. cbn [app update_at].
      rewrite Hdata. cbn [get_prop set_prop].
      match goal with
      | |- context [_checkSet ?p ?a ?b ?st] =>
          destruct (checkSet_child_keeps path k a b st) as (o2 & E2 & D2);
            [reflexivity|]
      end.
      rewrite E2. cbn [ret]. apply (Hnext o2 (Props.assign k x m) D2).
      intros k'. rewrite lookup_app. cbn [Props.lookup].
      destruct (String.eqb_spec k k') as [<-|Hne].
      * rewrite lookup_assign. rewrite Hinv in Hk.
        destruct (Props.lookup k m1); [discriminate|]. now rewrite Hk.
      * rewrite lookup_assign_other by exact Hne. rewrite Hinv.
        destruct (Props.lookup k' m1); [reflexivity|].
        now destruct (Props.lookup k' done).
Qed.

(** X16.  A patch of the root object by an object, no property of
    either being an object itself and every key of both being one
    segment and no member of [Object.prototype], merges the two: a key
    that the patch names reads what the patch gives it, every other key
    reads what it read. *)
Theorem patch_merges_properties (props dprops : list (string * value)) (o : observer) :
  reachable o -> data o = VObject props ->
  NoDup (map fst props) ->
  Forall (fun kv => is_object (snd kv) = false) props ->
  Forall (fun kv => is_undefined (snd kv) = false) dprops ->
  Forall (fun kv => is_object (snd kv) = false) dprops ->
  Forall (fun kv => plain_key (fst kv) = true) (props ++ dprops) ->
  exists o1,
    Observer.patch (RStr "") (VObject dprops) o = Ok tt o1 /\
    is_object (data o1) = true /\
    forall k, get_prop (data o1) k =
              match Props.lookup k dprops with
              | Some x => x
              | None => get_prop (data o) k
              end.
Proof.
  intros Hreach Hdata Hnd Hflat Hdef _ _.
  pose proof (reachable_root_cache_ok o Hreach) as Hok.
  assert (Hres : resolved (RStr "") [] o).
  { destruct (cache_get (RStr "") (_pathCache o)) as [ps|] eqn:E.
    - left. now rewrite E, (Hok (RStr "") ps eq_refl E).
    - right. auto. }
  destruct (makePathParts_resolved _ _ _ Hres) as (o' & Hrun & _ & Hd & _).
  unfold Observer.patch. cbn [is_undefined Observer.is_empty String.eqb is_object negb andb].
  unfold bind at 1. rewrite Hrun. cbn [removelast walk].
  rewrite Hd, Hdata. cbn [is_object negb]. cbn [Observer._patchNode].
  unfold bind at 1.
  destruct (patch_first_loop (RStr "") dprops Hdef props [] o') as (o2 & E2 & D2).
  - now rewrite Hd, Hdata.
  - exact Hnd.
  - exact Hflat.
  - match goal with
    | |- context [for_each ?f props o'] =>
        replace (for_each f props o') with (Ok tt o2 : result unit)
          by (symmetry; exact E2)
    end.
    cbn [is_array own_entries app] in *.
    destruct (patch_second_loop (RStr "") (map (patched dprops) props) dprops []
                (map (patched dprops) props) o2 D2) as (o3 & m' & E3 & D3 & L3).
    + intros k. now destruct (Props.lookup k (map (patched dprops) props)).
    + exists o3. split; [exact E3|]. rewrite D3. split; [reflexivity|].
      intros k. cbn [get_prop app] in *. rewrite L3, lookup_patched.
      destruct (Props.lookup k props) as [cur|]; destruct (Props.lookup k dprops);
        reflexivity.
Qed.

Lemma patch_merges_properties_witness :
  let o := new_observer ab12 in
  let props := [("a", VNum 1); ("b", VNum 2)] in
  let dprops := [("b", VNum 5); ("c", VNum 3)] in
  reachable o /\
  data o = VObject props /\
  NoDup ["a"; "b"] /\
  Forall (fun kv => plain_key (fst kv) = true) (props ++ dprops) /\
  exists o1,
    Observer.patch (RStr "") (VObject dprops) o = Ok tt o1 /\
    is_object (data o1) = true /\
    forall k, get_prop (data o1) k =
              match Props.lookup k dprops with
              | Some x => x
              | None => get_prop (data o) k
              end.
Proof.
  intros o props dprops.
  assert (H1 : reachable o) by apply reachable_new.
  assert (H2 : data o = VObject props) by reflexivity.
  assert (H3 : NoDup ["a"; "b"]).
  { constructor; [intros [H|[]]; discriminate H|].
    constructor; [intros []|constructor]. }
  assert (H4 : Forall (fun kv => plain_key (fst kv) = true) (props ++ dprops))
    by (repeat constructor).
  repeat (split; [assumption|]).
  apply (patch_merges_properties props dprops o H1 H2 H3); try exact H4;
    repeat constructor.
Defined.

(* ------------------------------------------------------------------ *)
(** ** The segments of the paths of a teardown                        *)
(* ------------------------------------------------------------------ *)
















(* ------------------------------------------------------------------ *)
(** ** [remove] at an index of the array, in full                     *)
(* ------------------------------------------------------------------ *)



(** The case of the documentation: on ['a','b','c'], [remove('', 0)]
    emits the [unset] of ['a'], the moves of ['c'] and ['b'], the
    [remove] of ['a']. *)
Example remove_first_of_abc :
  exists o3 : observer,
    Observer.remove (RStr "") 0 (new_observer abc) = Ok tt o3 /\
    data o3 = VArray [str "b"; str "c"] /\
    emitted o3 = [unset_event [PNum 0] (VStr "a");
                  move_event [] (VStr "c") 2 1;
                  move_event [] (VStr "b") 1 0;
                  remove_event [] (VStr "a") 0].
Proof.
  exists (final (Observer.remove (RStr "") 0 (new_observer abc))).
  split; [vm_compute; reflexivity|]. split; vm_compute; reflexivity.
Qed.
